(** * Macaron: a shallow embedding of the query-set engine of [macaron.py]

    The development follows the layout of the Python module: the runtime
    notions the code relies on (exceptions, [str.split], [sorted]), the
    temporal fields, the relationship descriptors, the [QuerySet] class
    with its condition compiler, and the [Model] base class.  Python objects
    that are mutated in place and may be shared (the clause dictionary, the
    join dictionary and the lists it holds, the wrapper list) live in an
    explicit store; every method is a computation over that store. *)

From stdpp Require Import base gmap strings list fin_maps pretty sorting.
From Stdlib Require Import ZArith Lia Ascii.
From Stdlib Require OrderedTypeEx.

Set Warnings "-register-all".

Open Scope string_scope.
Open Scope Z_scope.
Open Scope list_scope.

(** ** Python runtime notions *)

Module Py.

(** The exception kinds the module raises or lets through. *)
Inductive exn :=
| KeyError | RuntimeError | ValueError | TypeError | AttributeError
| IndexError | AssertionError | StopIteration
| ObjectDoesNotExist          (* [cls.DoesNotExist] *)
| MultipleObjectsReturned
| ValidationError
| StorageError.               (* any error raised by the storage engine *)

#[global] Instance exn_eq_dec : EqDecision exn.
Proof. solve_decision. Defined.

Inductive result (A : Type) :=
| Ok (a : A)
| Raise (e : exn).
Arguments Ok {A} a.
Arguments Raise {A} e.

#[global] Instance result_ret : MRet result := fun A a => Ok a.
#[global] Instance result_bind : MBind result := fun A B f m =>
  match m with Ok a => f a | Raise e => Raise e end.

#[global] Instance result_fmap : FMap result := fun A B f m =>
  match m with Ok a => Ok (f a) | Raise e => Raise e end.

Definition of_option {A} (e : exn) (o : option A) : result A :=
  match o with Some a => Ok a | None => Raise e end.

(** [s.split(sep)] for a non-empty separator: leftmost, non-overlapping
    occurrences.  [skip] counts the characters of a separator that was
    just recognised and is still to be passed over. *)
Fixpoint split_go (sep : string) (skip : nat) (cur : string) (s : string)
  : list string :=
  match s with
  | EmptyString => [cur]
  | String c s' =>
      match skip with
      | S k => split_go sep k cur s'
      | O =>
          if String.prefix sep s
          then cur :: split_go sep (Nat.pred (String.length sep)) "" s'
          else split_go sep O (cur +:+ String c "") s'
      end
  end.

Definition split (sep s : string) : list string := split_go sep O "" s.

(** [s.replace(old, new)] for a non-empty [old]. *)
Definition replace (old new s : string) : string :=
  String.concat new (split old s).

Definition startswith (p s : string) : bool := String.prefix p s.

(** [s[1:]] *)
Definition tail (s : string) : string :=
  match s with EmptyString => "" | String _ r => r end.

(** [sorted(l, key=...)]: a stable sort.  The element [x] is put in front
    of the first element that is not smaller, so elements that compare
    equal keep the order they had in [l]. *)
Fixpoint insert_sorted {A} (le : A → A → bool) (x : A) (l : list A) : list A :=
  match l with
  | [] => [x]
  | y :: l' => if le x y then x :: l else y :: insert_sorted le x l'
  end.

Definition sorted {A} (le : A → A → bool) (l : list A) : list A :=
  foldr (insert_sorted le) [] l.

(** Comparison of [str] values is lexicographic on code points. *)
Definition str_le (a b : string) : bool := String.leb a b.

(** Python truthiness of a string. *)
Definition truthy (s : string) : bool :=
  match s with EmptyString => false | _ => true end.

(** [l[i]] on a list, with negative indices counted from the end. *)
Definition getitem {A} (l : list A) (i : Z) : result A :=
  let n := Z.of_nat (length l) in
  if (0 <=? i) && (i <? n) then of_option IndexError (l !! Z.to_nat i)
  else if (- n <=? i) && (i <? 0) then of_option IndexError (l !! Z.to_nat (n + i))
  else Raise IndexError.

End Py.

Export Py(exn(..), result(..)).

(** ** Dates and times

    The values of Python's [datetime] module (naive: no time zone), with
    [strftime] and [datetime.strptime] for the directives the temporal
    fields use.  [strftime] is the one of the C library, which CPython 3
    calls: the fields of two digits are zero-padded, and [%Y] is the year in
    decimal without padding, so a year before 1000 prints on fewer than four
    digits.  [strptime] follows the regular expressions of the library's
    [_strptime], where [%Y] is four digits: each directive is a group of
    alternatives tried in order with backtracking, a blank of the format
    matches a non-empty run of blanks, and input left over after the match
    is an error. *)

Module Datetime.

Record date := { year : Z; month : Z; day : Z }.
Record time := { hour : Z; minute : Z; second : Z; microsecond : Z }.
Record datetime := { date_of : date; time_of : time }.

Definition is_leap (y : Z) : bool :=
  (y mod 4 =? 0) && negb (y mod 100 =? 0) || (y mod 400 =? 0).

Definition days_in_month (y m : Z) : Z :=
  match m with
  | 2 => if is_leap y then 29 else 28
  | 4 | 6 | 9 | 11 => 30
  | _ => 31
  end.

(** The range checks of the constructors [date(...)], [time(...)]. *)
Definition valid_date (d : date) : bool :=
  (1 <=? year d) && (year d <=? 9999) && (1 <=? month d) && (month d <=? 12)
  && (1 <=? day d) && (day d <=? days_in_month (year d) (month d)).

Definition valid_time (t : time) : bool :=
  (0 <=? hour t) && (hour t <? 24) && (0 <=? minute t) && (minute t <? 60)
  && (0 <=? second t) && (second t <? 60)
  && (0 <=? microsecond t) && (microsecond t <? 1000000).

Definition valid_datetime (dt : datetime) : bool :=
  valid_date (date_of dt) && valid_time (time_of dt).

(** *** Format strings *)

Inductive directive := dY | dm | dd | dH | dM | dS.
Inductive item := Dir (d : directive) | Lit (c : Ascii.ascii).

Definition directive_of (c : Ascii.ascii) : option directive :=
  (if Ascii.eqb c "Y" then Some dY else if Ascii.eqb c "m" then Some dm
   else if Ascii.eqb c "d" then Some dd else if Ascii.eqb c "H" then Some dH
   else if Ascii.eqb c "M" then Some dM else if Ascii.eqb c "S" then Some dS
   else None)%char.

Fixpoint parse_format (fmt : string) : option (list item) :=
  match fmt with
  | EmptyString => Some []
  | String c r =>
      if Ascii.eqb c "%"%char then
        match r with
        | String k r' =>
            match directive_of k, parse_format r' with
            | Some d, Some its => Some (Dir d :: its)
            | _, _ => None
            end
        | EmptyString => None
        end
      else option_map (cons (Lit c)) (parse_format r)
  end.

(** The broken-down time both functions work on ([timetuple]). *)
Record tm := { tm_year : Z; tm_mon : Z; tm_mday : Z;
               tm_hour : Z; tm_min : Z; tm_sec : Z }.

Definition tm_get (d : directive) (x : tm) : Z :=
  match d with
  | dY => tm_year x | dm => tm_mon x | dd => tm_mday x
  | dH => tm_hour x | dM => tm_min x | dS => tm_sec x
  end.

Definition tm_set (d : directive) (v : Z) (x : tm) : tm :=
  match d with
  | dY => {| tm_year := v; tm_mon := tm_mon x; tm_mday := tm_mday x;
             tm_hour := tm_hour x; tm_min := tm_min x; tm_sec := tm_sec x |}
  | dm => {| tm_year := tm_year x; tm_mon := v; tm_mday := tm_mday x;
             tm_hour := tm_hour x; tm_min := tm_min x; tm_sec := tm_sec x |}
  | dd => {| tm_year := tm_year x; tm_mon := tm_mon x; tm_mday := v;
             tm_hour := tm_hour x; tm_min := tm_min x; tm_sec := tm_sec x |}
  | dH => {| tm_year := tm_year x; tm_mon := tm_mon x; tm_mday := tm_mday x;
             tm_hour := v; tm_min := tm_min x; tm_sec := tm_sec x |}
  | dM => {| tm_year := tm_year x; tm_mon := tm_mon x; tm_mday := tm_mday x;
             tm_hour := tm_hour x; tm_min := v; tm_sec := tm_sec x |}
  | dS => {| tm_year := tm_year x; tm_mon := tm_mon x; tm_mday := tm_mday x;
             tm_hour := tm_hour x; tm_min := tm_min x; tm_sec := v |}
  end.

(** *** strftime *)

Definition digit_char (n : Z) : Ascii.ascii := Ascii.ascii_of_N (Z.to_N (48 + n)).

Definition pad2 (v : Z) : string :=
  String (digit_char (v / 10 mod 10)) (String (digit_char (v mod 10)) "").

(** [%Y]: the year, from 0 to 9999, in decimal without padding. *)
Definition print_year (v : Z) : string :=
  let digit k := digit_char (v / k mod 10) in
  if v <? 10 then String (digit 1) ""
  else if v <? 100 then String (digit 10) (String (digit 1) "")
  else if v <? 1000
       then String (digit 100) (String (digit 10) (String (digit 1) ""))
       else String (digit 1000)
              (String (digit 100) (String (digit 10) (String (digit 1) ""))).

Definition format_directive (d : directive) (x : tm) : string :=
  match d with dY => print_year (tm_year x) | _ => pad2 (tm_get d x) end.

Fixpoint format_items (its : list item) (x : tm) : string :=
  match its with
  | [] => ""
  | Dir d :: r => format_directive d x +:+ format_items r x
  | Lit c :: r => String c (format_items r x)
  end.

Definition strftime_tm (x : tm) (fmt : string) : result string :=
  match parse_format fmt with
  | Some its => Ok (format_items its x)
  | None => Raise ValueError
  end.

(** [date.strftime] formats with a zero time of day, [time.strftime] with
    the date 1900-01-01. *)
Definition tm_of_datetime (dt : datetime) : tm :=
  {| tm_year := year (date_of dt); tm_mon := month (date_of dt);
     tm_mday := day (date_of dt); tm_hour := hour (time_of dt);
     tm_min := minute (time_of dt); tm_sec := second (time_of dt) |}.

Definition tm_of_date (d : date) : tm :=
  {| tm_year := year d; tm_mon := month d; tm_mday := day d;
     tm_hour := 0; tm_min := 0; tm_sec := 0 |}.

Definition tm_of_time (t : time) : tm :=
  {| tm_year := 1900; tm_mon := 1; tm_mday := 1;
     tm_hour := hour t; tm_min := minute t; tm_sec := second t |}.

(** *** strptime *)

Definition digit_val (c : Ascii.ascii) : option Z :=
  let n := Z.of_N (Ascii.N_of_ascii c) in
  if (48 <=? n) && (n <=? 57) then Some (n - 48) else None.

Definition is_space (c : Ascii.ascii) : bool :=
  let n := Z.of_N (Ascii.N_of_ascii c) in
  (n =? 32) || ((9 <=? n) && (n <=? 13)).

(** One alternative of a directive's group: an optional leading blank, a
    first digit in [lo1, hi1], and, when [two] holds, a second digit in
    [lo2, hi2]. *)
Record alt := { blank : bool; two : bool; lo1 : Z; hi1 : Z; lo2 : Z; hi2 : Z }.

Definition A2 (a b c d : Z) : alt :=
  {| blank := false; two := true; lo1 := a; hi1 := b; lo2 := c; hi2 := d |}.
Definition A1 (a b : Z) : alt :=
  {| blank := false; two := false; lo1 := a; hi1 := b; lo2 := 0; hi2 := 0 |}.
Definition B1 (a b : Z) : alt :=
  {| blank := true; two := false; lo1 := a; hi1 := b; lo2 := 0; hi2 := 0 |}.

Definition digit_in (lo hi : Z) (c : Ascii.ascii) : option Z :=
  match digit_val c with
  | Some v => if (lo <=? v) && (v <=? hi) then Some v else None
  | None => None
  end.

Definition match_alt (a : alt) (s : string) : option (Z * string) :=
  let s := if blank a
           then match s with
                | String c r => if Ascii.eqb c " "%char then Some r else None
                | EmptyString => None
                end
           else Some s in
  match s with
  | Some (String c1 r1) =>
      match digit_in (lo1 a) (hi1 a) c1 with
      | Some v1 =>
          if two a then
            match r1 with
            | String c2 r2 =>
                match digit_in (lo2 a) (hi2 a) c2 with
                | Some v2 => Some (10 * v1 + v2, r2)
                | None => None
                end
            | EmptyString => None
            end
          else Some (v1, r1)
      | None => None
      end
  | _ => None
  end.

(** The groups of [_strptime.TimeRE]. *)
Definition alternatives (d : directive) : list alt :=
  match d with
  | dd => [A2 3 3 0 1; A2 1 2 0 9; A2 0 0 1 9; A1 1 9; B1 1 9]
  | dH => [A2 2 2 0 3; A2 0 1 0 9; A1 0 9]
  | dm => [A2 1 1 0 2; A2 0 0 1 9; A1 1 9]
  | dM => [A2 0 5 0 9; A1 0 9]
  | dS => [A2 6 6 0 1; A2 0 5 0 9; A1 0 9]
  | dY => []
  end.

(** [%Y] is exactly four digits. *)
Definition match_year (s : string) : option (Z * string) :=
  match s with
  | String c1 (String c2 (String c3 (String c4 r))) =>
      match digit_val c1, digit_val c2, digit_val c3, digit_val c4 with
      | Some a, Some b, Some c, Some d =>
          Some (1000 * a + 100 * b + 10 * c + d, r)
      | _, _, _, _ => None
      end
  | _ => None
  end.

(** The ways a directive can match at the head of [s], best first. *)
Definition candidates (d : directive) (s : string) : list (Z * string) :=
  match d with
  | dY => option_list (match_year s)
  | _ => omap (fun a => match_alt a s) (alternatives d)
  end.

(** The ways a run of blanks can match at the head of [s], longest first. *)
Fixpoint blank_runs (s : string) : list string :=
  match s with
  | String c r => if is_space c then blank_runs r ++ [r] else []
  | EmptyString => []
  end.

Fixpoint first_some {A B} (f : A → option B) (l : list A) : option B :=
  match l with
  | [] => None
  | a :: l' => match f a with Some b => Some b | None => first_some f l' end
  end.

(** The first way, in backtracking order, to match the whole format at the
    head of [s]; it yields the fields found and the input left over. *)
Fixpoint regex_match (its : list item) (s : string) (acc : tm)
  : option (tm * string) :=
  match its with
  | [] => Some (acc, s)
  | Dir d :: r =>
      first_some (fun '(v, s') => regex_match r s' (tm_set d v acc))
                 (candidates d s)
  | Lit c :: r =>
      if is_space c
      then first_some (fun s' => regex_match r s' acc) (blank_runs s)
      else match s with
           | String c' s' => if Ascii.eqb c c' then regex_match r s' acc else None
           | EmptyString => None
           end
  end.

(** Fields the format does not mention default to 1900-01-01 00:00:00. *)
Definition tm_default : tm :=
  {| tm_year := 1900; tm_mon := 1; tm_mday := 1;
     tm_hour := 0; tm_min := 0; tm_sec := 0 |}.

Definition datetime_of_tm (x : tm) : datetime :=
  {| date_of := {| year := tm_year x; month := tm_mon x; day := tm_mday x |};
     time_of := {| hour := tm_hour x; minute := tm_min x; second := tm_sec x;
                   microsecond := 0 |} |}.

(** [datetime.strptime(s, fmt)] *)
Definition strptime (s fmt : string) : result datetime :=
  match parse_format fmt with
  | None => Raise ValueError
  | Some its =>
      match regex_match its s tm_default with
      | Some (x, EmptyString) =>
          let dt := datetime_of_tm x in
          if valid_datetime dt then Ok dt else Raise ValueError
      | _ => Raise ValueError
      end
  end.

(** What [strftime] prints for a directive. *)
Definition print (d : directive) (v : Z) : string :=
  match d with dY => print_year v | _ => pad2 v end.

(** The values a directive prints and reads back: for [%Y], the years of
    four digits. *)
Definition in_range (d : directive) (v : Z) : Prop :=
  match d with
  | dY => 1000 <= v <= 9999
  | dm => 1 <= v <= 12
  | dd => 1 <= v <= 31
  | dH => 0 <= v <= 23
  | dM | dS => 0 <= v <= 59
  end.

End Datetime.

(** ** Python values *)

(** The values that flow through the mapper: query operands, column values,
    model instances and condition objects.  [VList] stands for a list or a
    tuple.  A model instance carries the name of its class, its [_data]
    dictionary and the primary-key value saved in [_orig_pk].  The
    condition classes are containers themselves: [Q] is a [dict], [_Qlst] a
    [list] with an operator, [_Qraw] a SQL fragment with its parameters. *)
Inductive value :=
| VNone
| VNotNull                        (* the class [NotNull], used as a marker *)
| VLike (likestr : string)        (* [Like(s)] *)
| VInt (z : Z)
| VStr (s : string)
| VList (l : list value)
| VDatetime (d : Datetime.datetime)
| VDate (d : Datetime.date)
| VTime (t : Datetime.time)
| VModel (cls : string) (_data : gmap string value) (_orig_pk : value)
| VQ (d : gmap string value)
| VQlst (op : string) (l : list value)
| VQraw (sql : string) (prms : list value).

(** [value.strftime(fmt)]: only the temporal values have the method. *)
Definition strftime (v : value) (fmt : string) : result string :=
  match v with
  | VDatetime d => Datetime.strftime_tm (Datetime.tm_of_datetime d) fmt
  | VDate d => Datetime.strftime_tm (Datetime.tm_of_date d) fmt
  | VTime t => Datetime.strftime_tm (Datetime.tm_of_time t) fmt
  | _ => Raise AttributeError
  end.

(** [datetime.strptime(value, fmt)]: the argument must be a [str]. *)
Definition strptime (v : value) (fmt : string) : result Datetime.datetime :=
  match v with
  | VStr s => Datetime.strptime s fmt
  | _ => Raise TypeError
  end.

(** [len(value)] *)
Definition len (v : value) : result nat :=
  match v with
  | VList l | VQlst _ l => Ok (length l)
  | VStr s => Ok (String.length s)
  | VQ d => Ok (size d)
  | _ => Raise TypeError
  end.

(** [isinstance(value, collections.Iterable)] *)
Definition is_Iterable (v : value) : bool :=
  match v with
  | VList _ | VQlst _ _ | VStr _ | VQ _ => true
  | _ => false
  end.

(** Truth value of an object. *)
Definition truthy (v : value) : bool :=
  match v with
  | VNone => false
  | VInt z => negb (z =? 0)
  | VStr s => Py.truthy s
  | VList l | VQlst _ l => match l with [] => false | _ => true end
  | VQ d => negb (bool_decide (d = ∅))
  | _ => true
  end.

(** ** Field descriptors

    A field object is its attributes together with the methods of its
    class; the classes below fill the methods in as the source does. *)

Module Field.

Record t := {
  name : string;
  null : bool;
  default : value;
  is_primary_key : bool;
  is_AtCreate : bool;          (* [isinstance(fld, AtCreate)] *)
  is_AtSave : bool;            (* [isinstance(fld, AtSave)] *)
  cast : value → result value;
  set : Datetime.datetime → value → value;   (* first argument: the clock *)
  to_database : value → result value;
  to_object : value → result value;
  validate : value → result bool;
}.

(** [Field.validate] *)
Definition base_validate (null : bool) (v : value) : result bool :=
  match v with
  | VNone => if null then Ok true else Raise ValidationError
  | _ => Ok true
  end.

(** class [Field] *)
Definition Field (name : string) (null : bool) (default : value)
    (primary_key : bool) : t :=
  {| name := name; null := null; default := default;
     is_primary_key := primary_key; is_AtCreate := false; is_AtSave := false;
     cast := Ok; set := fun _ v => v; to_database := Ok; to_object := Ok;
     validate := base_validate null |}.

End Field.

Module TimestampField.
Definition to_database (v : value) : result value :=
  match v with
  | VNone => Ok VNone
  | _ => VStr <$> strftime v "%Y-%m-%d %H:%M:%S"
  end.
Definition to_object (v : value) : result value :=
  match v with
  | VNone => Ok VNone
  | _ => VDatetime <$> strptime v "%Y-%m-%d %H:%M:%S"
  end.
Definition new (name : string) (null : bool) (default : value)
    (primary_key : bool) : Field.t :=
  {| Field.name := name; Field.null := null; Field.default := default;
     Field.is_primary_key := primary_key;
     Field.is_AtCreate := false; Field.is_AtSave := false;
     Field.cast := Ok; Field.set := fun _ v => v;
     Field.to_database := to_database; Field.to_object := to_object;
     Field.validate := Field.base_validate null |}.
End TimestampField.

Module DateField.
Definition to_database (v : value) : result value :=
  match v with
  | VNone => Ok VNone
  | _ => VStr <$> strftime v "%Y-%m-%d"
  end.
Definition to_object (v : value) : result value :=
  match v with
  | VNone => Ok VNone
  | _ => (fun dt => VDate (Datetime.date_of dt)) <$> strptime v "%Y-%m-%d"
  end.
Definition new (name : string) (null : bool) (default : value)
    (primary_key : bool) : Field.t :=
  {| Field.name := name; Field.null := null; Field.default := default;
     Field.is_primary_key := primary_key;
     Field.is_AtCreate := false; Field.is_AtSave := false;
     Field.cast := Ok; Field.set := fun _ v => v;
     Field.to_database := to_database; Field.to_object := to_object;
     Field.validate := Field.base_validate null |}.
End DateField.

Module TimeField.
Definition to_database (v : value) : result value :=
  match v with
  | VNone => Ok VNone
  | _ => VStr <$> strftime v "%H:%M:%S"
  end.
Definition to_object (v : value) : result value :=
  match v with
  | VNone => Ok VNone
  | _ => (fun dt => VTime (Datetime.time_of dt)) <$> strptime v "%H:%M:%S"
  end.
Definition new (name : string) (null : bool) (default : value)
    (primary_key : bool) : Field.t :=
  {| Field.name := name; Field.null := null; Field.default := default;
     Field.is_primary_key := primary_key;
     Field.is_AtCreate := false; Field.is_AtSave := false;
     Field.cast := Ok; Field.set := fun _ v => v;
     Field.to_database := to_database; Field.to_object := to_object;
     Field.validate := Field.base_validate null |}.
End TimeField.

(** [TimestampAtCreate] forces [null] and sets the current time;
    [TimestampAtSave] is in addition an [AtSave] field. *)
Module TimestampAtSave.
Definition set (now : Datetime.datetime) (_ : value) : value := VDatetime now.
Definition new (name : string) (default : value) (primary_key : bool)
  : Field.t :=
  {| Field.name := name; Field.null := true; Field.default := default;
     Field.is_primary_key := primary_key;
     Field.is_AtCreate := true; Field.is_AtSave := true;
     Field.cast := Ok; Field.set := set;
     Field.to_database := TimestampField.to_database;
     Field.to_object := TimestampField.to_object;
     Field.validate := Field.base_validate true |}.
End TimestampAtSave.

(** ** Model classes and relationship descriptors

    A model class is known by its name; the classes of the program are an
    environment from names to classes, so that a descriptor can refer to a
    class that refers back to it. *)

Record ManyToOne_t := {
  m2o_name : string;
  m2o_ref : string;                (* the class on the [one] side *)
  m2o_fkey : string;
  m2o__ref_key : option string;
}.

Record _ManyToOne_Rev_t := {
  rev_ref : string;                (* parent class *)
  rev__ref_key : option string;
  rev_rev : string;                (* child class, the [many] side *)
  rev_rev_fkey : string;
}.

Record _ManyToManyBase_t := {
  m2m_ref : string;
  m2m_lnk : string;                (* the link class *)
  m2m_cls : string;
  m2m_name : string;
}.

(** What a class dictionary can hold under an attribute name. *)
Inductive attr :=
| AField (f : Field.t)
| AManyToOne (d : ManyToOne_t)
| A_ManyToOne_Rev (d : _ManyToOne_Rev_t)
| A_ManyToManyBase (d : _ManyToManyBase_t)
| AOther.                          (* a method, a constant, ... *)

Module TableMetaInfo.
Record t := {
  table_name : string;
  primary_key : option Field.t;
  fields : list Field.t;         (* in declaration order *)
}.
End TableMetaInfo.

Record ModelClass := {
  __name__ : string;
  _meta : TableMetaInfo.t;
  __dict__ : gmap string attr;
}.

Abbreviation classes := (gmap string ModelClass).

(** ['"%s"' % s] *)
Definition dq (s : string) : string := String "034" (s +:+ String "034" "").

Section Descriptors.
Variable env : classes.

(** [cls._meta], for a class given by name. *)
Definition meta_of (cls : string) : result TableMetaInfo.t :=
  _meta <$> Py.of_option AttributeError (env !! cls).

(** [cls._meta.primary_key.name] *)
Definition primary_key_name (cls : string) : result string :=
  m ← meta_of cls;
  Field.name <$> Py.of_option AttributeError (TableMetaInfo.primary_key m).

(** The property [ref_key] of [ManyToOne] and [_ManyToOne_Rev]. *)
Definition _get_ref_key (_ref_key : option string) (ref : string)
  : result string :=
  k ← match _ref_key with
      | Some k => if Py.truthy k then Ok k else primary_key_name ref
      | None => primary_key_name ref
      end;
  if Py.truthy k then Ok k else Raise AssertionError.

(** The table prefix of a key: [('"%s".' % tblname if tblname else "")]. *)
Definition qualify (tblname key : string) : string :=
  (if Py.truthy tblname then dq tblname +:+ "." else "") +:+ dq key.

Definition ManyToOne_sql_joins (d : ManyToOne_t) (as_name tblname : string)
  : result (list string) :=
  m ← meta_of (m2o_ref d);
  refkey ← _get_ref_key (m2o__ref_key d) (m2o_ref d);
  let fkey := qualify tblname (m2o_fkey d) in
  Ok ["INNER JOIN " +:+ dq (TableMetaInfo.table_name m) +:+ " AS " +:+ dq as_name
      +:+ " ON " +:+ fkey +:+ " = " +:+ dq as_name +:+ "." +:+ dq refkey].

Definition _ManyToOne_Rev_sql_joins (d : _ManyToOne_Rev_t)
    (as_name tblname : string) : result (list string) :=
  m ← meta_of (rev_rev d);
  k ← _get_ref_key (rev__ref_key d) (rev_ref d);
  let refkey := qualify tblname k in
  Ok ["INNER JOIN " +:+ dq (TableMetaInfo.table_name m) +:+ " AS " +:+ dq as_name
      +:+ " ON " +:+ refkey +:+ " = " +:+ dq as_name +:+ "."
      +:+ dq (rev_rev_fkey d)].

Definition _ManyToManyBase_sql_joins (d : _ManyToManyBase_t)
    (asname tblname : string) : result (list string) :=
  clskey ← primary_key_name (m2m_cls d);
  mref ← meta_of (m2m_ref d);
  refkey ← primary_key_name (m2m_ref d);
  mlnk ← meta_of (m2m_lnk d);
  mcls ← meta_of (m2m_cls d);
  let lnkclskey := TableMetaInfo.table_name mcls +:+ "_id" in
  let lnkrefkey := TableMetaInfo.table_name mref +:+ "_id" in
  let lnkas := asname +:+ ".lnk" in
  Ok ["INNER JOIN " +:+ dq (TableMetaInfo.table_name mlnk) +:+ " AS " +:+ dq lnkas
      +:+ " ON " +:+ dq tblname +:+ "." +:+ dq clskey +:+ " = "
      +:+ dq lnkas +:+ "." +:+ dq lnkclskey;
      "INNER JOIN " +:+ dq (TableMetaInfo.table_name mref) +:+ " AS " +:+ dq asname
      +:+ " ON " +:+ dq lnkas +:+ "." +:+ dq lnkrefkey +:+ " = "
      +:+ dq asname +:+ "." +:+ dq refkey].

(** [fld.sql_joins], when the attribute has such a method. *)
Definition sql_joins (fld : attr)
  : option (string → string → result (list string)) :=
  match fld with
  | AManyToOne d => Some (ManyToOne_sql_joins d)
  | A_ManyToOne_Rev d => Some (_ManyToOne_Rev_sql_joins d)
  | A_ManyToManyBase d => Some (_ManyToManyBase_sql_joins d)
  | AField _ | AOther => None
  end.

(** The property [model] of the three relationship descriptors. *)
Definition model (fld : attr) : option string :=
  match fld with
  | AManyToOne d => Some (m2o_ref d)
  | A_ManyToOne_Rev d => Some (rev_rev d)
  | A_ManyToManyBase d => Some (m2m_ref d)
  | AField _ | AOther => None
  end.

(** [isinstance(fld, Field)]: [ManyToOne] is a subclass of [Field]. *)
Definition is_Field (fld : attr) : bool :=
  match fld with AField _ | AManyToOne _ => true | _ => false end.

(** [fld.name] *)
Definition attr_name (fld : attr) : result string :=
  match fld with
  | AField f => Ok (Field.name f)
  | AManyToOne d => Ok (m2o_name d)
  | A_ManyToManyBase d => Ok (m2m_name d)
  | A_ManyToOne_Rev _ | AOther => Raise AttributeError
  end.

(** [fld.to_database(None, value)]; [ManyToOne] inherits [Field]'s. *)
Definition attr_to_database (fld : attr) (v : value) : result value :=
  match fld with
  | AField f => Field.to_database f v
  | AManyToOne _ => Ok v
  | _ => Raise AttributeError
  end.

End Descriptors.

(** ** The storage engine

    The engine is consumed through [execute(sql, params)], which yields a
    cursor: the rows in order, the column names, and the id of the last
    inserted row. *)

Record Cursor := {
  rows : list (list value);
  description : list string;
  lastrowid : value;
}.

Class Storage := {
  DB : Type;
  execute : DB → string → list value → result (DB * Cursor);
}.

(** ** Objects and the store *)

Definition loc := positive.

(** The dictionary [clauses] of a query set, with the lists it holds. *)
Module Clauses.
Record t := {
  type : string;
  where_ : list string;           (* the key [where] *)
  order_by : list string;
  values : list value;
  distinct : bool;
  limit : option Z;
  offset : option Z;
}.
End Clauses.

(** [convfunc] is one of the two lambdas the class installs. *)
Inductive convfunc_t :=
| conv_first                      (* [lambda tpl: tpl[0]] *)
| conv_tuple.                     (* [lambda tpl: tpl] *)

Inductive factory_t :=
| factory_to_objects              (* [self._to_objects] *)
| factory_single_value.           (* [single_value], set by [aggregate] *)

(** The attributes of a [QuerySet] object.  Attributes bound to a mutable
    dictionary or list hold its location in the store. *)
Module QS.
Record t := {
  cls : string;
  clauses : loc;
  select_fields : loc;
  joins : loc;
  convfunc : convfunc_t;
  wrappers : loc;
  factory : factory_t;
  subquery_serial : Z;
  cur : option Cursor;
  _index : Z;
  _cache : list value;
}.
End QS.

Inductive cell :=
| CClauses (c : Clauses.t)
| CFields (l : list (string * option string))  (* [select_fields] *)
| CJoins (j : gmap string loc)                 (* alias to list of clauses *)
| CStrs (l : list string)                      (* a list of join clauses *)
| CWrappers (l : list (string * string))       (* text before and after [%s] *)
| CQuerySet (q : QS.t).

Section Store.
Context `{Storage}.

Record world := {
  heap : gmap loc cell;
  db : DB;
  executed : list (string * list value);   (* statements sent so far *)
}.

Definition M (A : Type) : Type := world → world * result A.

#[global] Instance M_ret : MRet M := fun A a w => (w, Ok a).
#[global] Instance M_bind : MBind M := fun A B f m w =>
  match m w with
  | (w', Ok a) => f a w'
  | (w', Raise e) => (w', Raise e)
  end.

#[global] Instance M_fmap : FMap M := fun A B f m w =>
  match m w with
  | (w', Ok a) => (w', Ok (f a))
  | (w', Raise e) => (w', Raise e)
  end.

Definition raise {A} (e : exn) : M A := fun w => (w, Raise e).

Definition lift {A} (r : result A) : M A := fun w => (w, r).

(** [try: m  except e: h] *)
Definition try_except {A} (m : M A) (e : exn) (h : M A) : M A := fun w =>
  match m w with
  | (w', Raise e') => if decide (e' = e) then h w' else (w', Raise e')
  | r => r
  end.

Definition set_heap (h : gmap loc cell) (w : world) : world :=
  {| heap := h; db := db w; executed := executed w |}.

Definition alloc (c : cell) : M loc := fun w =>
  let l := fresh (dom (heap w)) in (set_heap (<[l := c]> (heap w)) w, Ok l).

Definition load (l : loc) : M cell := fun w =>
  (w, Py.of_option AttributeError (heap w !! l)).

Definition store (l : loc) (c : cell) : M unit := fun w =>
  (set_heap (<[l := c]> (heap w)) w, Ok tt).

Definition load_clauses (l : loc) : M Clauses.t :=
  c ← load l; match c with CClauses x => mret x | _ => raise TypeError end.
Definition load_fields (l : loc) : M (list (string * option string)) :=
  c ← load l; match c with CFields x => mret x | _ => raise TypeError end.
Definition load_joins (l : loc) : M (gmap string loc) :=
  c ← load l; match c with CJoins x => mret x | _ => raise TypeError end.
Definition load_strs (l : loc) : M (list string) :=
  c ← load l; match c with CStrs x => mret x | _ => raise TypeError end.
Definition load_wrappers (l : loc) : M (list (string * string)) :=
  c ← load l; match c with CWrappers x => mret x | _ => raise TypeError end.
Definition load_qs (l : loc) : M QS.t :=
  c ← load l; match c with CQuerySet x => mret x | _ => raise TypeError end.

(** Sending a statement to the engine. *)
Definition run_sql (sql : string) (params : list value) : M Cursor := fun w =>
  let w1 := {| heap := heap w; db := db w;
               executed := executed w ++ [(sql, params)] |} in
  match execute (db w) sql params with
  | Ok (d, c) => ({| heap := heap w; db := d; executed := executed w1 |}, Ok c)
  | Raise e => (w1, Raise e)
  end.

(** [for x in l: f x] *)
Fixpoint for_each {A} (f : A → M unit) (l : list A) : M unit :=
  match l with
  | [] => mret tt
  | x :: l' => f x;; for_each f l'
  end.

Fixpoint map_M {A B} (f : A → M B) (l : list A) : M (list B) :=
  match l with
  | [] => mret []
  | x :: l' => y ← f x; ys ← map_M f l'; mret (y :: ys)
  end.

End Store.

(** ** The operator converter *)

Module OpConverter.

Definition CONV : gmap string string :=
  list_to_map [("lt", "<"); ("le", "<="); ("ge", ">="); ("gt", ">");
               ("ne", "<>"); ("like", "LIKE"); ("glob", "GLOB");
               ("regexp", "REGEXP")].

(** A template has one [%s], to be filled with the quoted column: it is
    the function from the column to the text. *)
Definition template := string → string.

(** [",".join(["?"] * n)] *)
Definition placeholders (n : nat) : string :=
  String.concat "," (replicate n "?").

Definition _base_in (op : string) (val : value) : result (template * value) :=
  n ← len val;
  Ok (fun col => col +:+ " " +:+ op +:+ " (" +:+ placeholders n +:+ ")", val).
Definition _OP_in := _base_in "IN".
Definition _OP_not_in := _base_in "NOT IN".

Definition _base_between (op : string) (val : value)
  : result (template * value) :=
  if negb (is_Iterable val) then Raise TypeError else
  n ← len val;
  if negb (n =? 2)%nat then Raise ValueError else
  Ok (fun col => col +:+ " " +:+ op +:+ " ? AND ?", val).
Definition _OP_between := _base_between "BETWEEN".
Definition _OP_not_between := _base_between "NOT BETWEEN".

Definition _convert (fld : attr) (val : value) : result (template * value) :=
  match val with
  | VNone => Ok (fun col => col +:+ " IS NULL", VNone)
  | VNotNull => Ok (fun col => col +:+ " IS NOT NULL", VNone)
  | VLike likestr => Ok (fun col => col +:+ " LIKE ?", VStr likestr)
  | _ => v ← attr_to_database fld val; Ok (fun col => col +:+ " = ?", v)
  end.

(** The methods [_OP_<op>] of the class. *)
Definition _OP (op : string) : option (value → result (template * value)) :=
  if String.eqb op "in" then Some _OP_in
  else if String.eqb op "not_in" then Some _OP_not_in
  else if String.eqb op "between" then Some _OP_between
  else if String.eqb op "not_between" then Some _OP_not_between
  else None.

Definition get_clause (tblname : string) (op : option string) (fld : attr)
    (val : value) : result (string * value) :=
  '(sqltmpl, prm) ←
    match op with
    | Some o =>
        if Py.truthy o then
          match _OP o with
          | Some f => f val
          | None =>
              match CONV !! o with
              | Some c => Ok (fun col => col +:+ " " +:+ c +:+ " ?", val)
              | None => Raise ValueError
              end
          end
        else _convert fld val
    | None => _convert fld val
    end;
  name ← attr_name fld;
  Ok (sqltmpl (dq tblname +:+ "." +:+ dq name), prm).

End OpConverter.

(** ** Model instances

    The part of the [Model] base class and of the field descriptors that
    works on one object: attribute access through the descriptors, the
    constructor, validation and the conversions run before a write. *)

Record object := {
  __class__ : string;
  _data : gmap string value;
  _orig_pk : value;
}.

Definition box (o : object) : value := VModel (__class__ o) (_data o) (_orig_pk o).

Definition unbox (v : value) : result object :=
  match v with
  | VModel c d k => Ok {| __class__ := c; _data := d; _orig_pk := k |}
  | _ => Raise AttributeError
  end.

Module Instance.
Section Instance.
Variable env : classes.

(** [meta.fields[name]]: the dictionary of the collection keeps the last
    field appended under a name. *)
Definition field_named (m : TableMetaInfo.t) (k : string) : option Field.t :=
  last (filter (fun f => Field.name f = k) (TableMetaInfo.fields m)).

(** [Field.__get__] *)
Definition Field___get__ (f : Field.t) (owner : object) : value :=
  default VNone (_data owner !! Field.name f).

(** [Field.__set__] *)
Definition Field___set__ (f : Field.t) (owner : object) (val : value)
  : result object :=
  _ ← Field.validate f val;
  v ← Field.cast f val;
  Ok {| __class__ := __class__ owner;
        _data := <[Field.name f := v]> (_data owner);
        _orig_pk := _orig_pk owner |}.

(** [getattr(obj, name)] for the name of a stored field. *)
Definition getattr (o : object) (k : string) : result value :=
  c ← Py.of_option AttributeError (env !! __class__ o);
  f ← Py.of_option AttributeError (field_named (_meta c) k);
  Ok (Field___get__ f o).

(** [ManyToOne.__set__] *)
Definition ManyToOne___set__ (d : ManyToOne_t) (m : TableMetaInfo.t)
    (owner : object) (val : value) : result object :=
  let is_ref := match val with
                | VModel c _ _ => bool_decide (c = m2o_ref d)
                | _ => false
                end in
  if truthy val && negb is_ref then Raise TypeError else
  v ← match val with
      | VNone => Ok VNone
      | _ => k ← _get_ref_key env (m2o__ref_key d) (m2o_ref d);
             o ← unbox val;
             getattr o k
      end;
  match field_named m (m2o_fkey d) with
  | Some f => Field___set__ f owner v
  | None => Ok owner
  end.

(** [setattr(obj, k, val)] as the constructor uses it: [k] names a stored
    field or a [Field] of the class dictionary. *)
Definition setattr (c : ModelClass) (o : object) (k : string) (val : value)
  : result object :=
  match field_named (_meta c) k with
  | Some f => Field___set__ f o val
  | None =>
      match __dict__ c !! k with
      | Some (AField f) => Field___set__ f o val
      | Some (AManyToOne d) => ManyToOne___set__ d (_meta c) o val
      | _ => Ok o
      end
  end.

(** The property [pk]. *)
Definition pk (o : object) : result value :=
  k ← primary_key_name env (__class__ o);
  getattr o k.

(** [Model.__init__] on the keyword arguments [kw], in the order of the
    dictionary. *)
Definition __init__ (cls : string) (kw : list (string * value))
  : result object :=
  c ← Py.of_option AttributeError (env !! cls);
  let data0 := foldl (fun d f => <[Field.name f := Field.default f]> d)
                     ∅ (TableMetaInfo.fields (_meta c)) in
  o ← foldl (fun (r : result object) '(k, v) =>
               o ← r;
               match field_named (_meta c) k with
               | Some _ => setattr c o k v
               | None =>
                   a ← Py.of_option KeyError (__dict__ c !! k);
                   if is_Field a then setattr c o k v else Raise ValueError
               end)
            (Ok {| __class__ := cls; _data := data0; _orig_pk := VNone |}) kw;
  k ← pk o;
  Ok {| __class__ := cls; _data := _data o; _orig_pk := k |}.

(** [Model.validate] *)
Definition validate (o : object) : result unit :=
  c ← Py.of_option AttributeError (env !! __class__ o);
  foldl (fun (r : result unit) f =>
           r;;
           val ← getattr o (Field.name f);
           ok ← Field.validate f val;
           if ok : bool then Ok tt else Raise ValidationError)
        (Ok tt) (TableMetaInfo.fields (_meta c)).


End Instance.
End Instance.

(** ** The query set *)

Module QuerySet.
Section QuerySet.
Context `{Storage}.
Variable env : classes.

(** [_initialize_cursor]: clear cache and state. *)
Definition _initialize_cursor (q : QS.t) : QS.t :=
  {| QS.cls := QS.cls q; QS.clauses := QS.clauses q;
     QS.select_fields := QS.select_fields q; QS.joins := QS.joins q;
     QS.convfunc := QS.convfunc q; QS.wrappers := QS.wrappers q;
     QS.factory := QS.factory q; QS.subquery_serial := QS.subquery_serial q;
     QS.cur := None; QS._index := -1; QS._cache := [] |}.

(** [QuerySet.__init__(parent)]: [parent] is a query set (a location) or
    a model class (a name).  The clause dictionary is deep-copied, the
    lists are sliced, and the join dictionary is copied one level deep:
    the copy shares the lists of join clauses with the original. *)
Definition __init__ (parent : loc + string) : M loc :=
  match parent with
  | inl p =>
      q ← load_qs p;
      c ← load_clauses (QS.clauses q);
      lc ← alloc (CClauses c);
      sf ← load_fields (QS.select_fields q);
      lsf ← alloc (CFields sf);
      j ← load_joins (QS.joins q);
      lj ← alloc (CJoins j);
      wr ← load_wrappers (QS.wrappers q);
      lw ← alloc (CWrappers wr);
      alloc (CQuerySet
        {| QS.cls := QS.cls q; QS.clauses := lc; QS.select_fields := lsf;
           QS.joins := lj; QS.convfunc := QS.convfunc q; QS.wrappers := lw;
           QS.factory := factory_to_objects; QS.subquery_serial := 1;
           QS.cur := None; QS._index := -1; QS._cache := [] |})
  | inr cls =>
      lc ← alloc (CClauses
        {| Clauses.type := "SELECT"; Clauses.where_ := [];
           Clauses.order_by := []; Clauses.values := [];
           Clauses.distinct := false; Clauses.limit := None;
           Clauses.offset := None |});
      m ← lift (meta_of env cls);
      lsf ← alloc (CFields [(dq (TableMetaInfo.table_name m) +:+ ".*", Some cls)]);
      lj ← alloc (CJoins ∅);
      lw ← alloc (CWrappers []);
      alloc (CQuerySet
        {| QS.cls := cls; QS.clauses := lc; QS.select_fields := lsf;
           QS.joins := lj; QS.convfunc := conv_first; QS.wrappers := lw;
           QS.factory := factory_to_objects; QS.subquery_serial := 1;
           QS.cur := None; QS._index := -1; QS._cache := [] |})
  end.

(** [self.joins[asname] = js], for the list [js] just made. *)
Definition set_join (self : loc) (asname : string) (js : list string) : M unit :=
  l ← alloc (CStrs js);
  q ← load_qs self;
  j ← load_joins (QS.joins q);
  store (QS.joins q) (CJoins (<[asname := l]> j)).

(** The loop of [_parse_field_name]: [fld] is the attribute looked up
    last, [items] what is left of the split name. *)
Fixpoint parse_items (self : loc) (curmdl curname : string)
    (fld : option attr) (items : list string)
  : M (string * option attr * list string) :=
  match items with
  | [] => mret (curname, fld, [])
  | item :: items =>
      c ← lift (Py.of_option AttributeError (env !! curmdl));
      fld ← lift (Py.of_option KeyError (__dict__ c !! item));
      match sql_joins env fld, model fld with
      | Some fld_sql_joins, Some fld_model =>
          let asname := curname +:+ "." +:+ item in
          js ← lift (fld_sql_joins asname curname);
          set_join self asname js;;
          parse_items self fld_model asname (Some fld) items
      | _, _ =>
          if is_Field fld then mret (curname, Some fld, items)
          else raise RuntimeError
      end
  end.

(** Parse name and join table if needed. *)
Definition _parse_field_name (self : loc) (name : string)
  : M (string * attr * option string) :=
  q ← load_qs self;
  m ← lift (meta_of env (QS.cls q));
  '(curname, fld, items) ←
    parse_items self (QS.cls q) (TableMetaInfo.table_name m) None (Py.split "__" name);
  if (2 <=? length items)%nat then raise RuntimeError else
  fld ← lift (Py.of_option RuntimeError fld);
  mret (curname, fld, head items).

(** The sort key of the join aliases: [len(name.split("."))]. *)
Definition depth (name : string) : nat := length (Py.split "." name).

(** The aliases in the order the JOIN clauses are written:
    [sorted(sorted(keys), key=depth)]. *)
Definition join_order (keys : list string) : list string :=
  Py.sorted (fun a b => (depth a <=? depth b)%nat) (Py.sorted Py.str_le keys).

Definition newline : string := String "010" "".

(** The property [sql]. *)
Definition sql (self : loc) : M string :=
  q ← load_qs self;
  m ← lift (meta_of env (QS.cls q));
  let tbl := TableMetaInfo.table_name m in
  c ← load_clauses (QS.clauses q);
  sqls ←
    (if String.eqb (Clauses.type c) "DELETE"
     then mret ["DELETE FROM " +:+ dq tbl]
     else
       sf ← load_fields (QS.select_fields q);
       let flds := fst <$> sf in
       let distinct := if Clauses.distinct c then " DISTINCT" else "" in
       mret ["SELECT" +:+ distinct +:+ " " +:+ String.concat ", " flds
             +:+ " FROM " +:+ dq tbl]);
  j ← load_joins (QS.joins q);
  let keys := join_order (fst <$> map_to_list j) in
  js ← map_M (fun k => l ← lift (Py.of_option KeyError (j !! k)); load_strs l)
             keys;
  let sqls := (sqls ++ concat js)%list in
  let sqls :=
    match Clauses.where_ c with
    | [] => sqls
    | ws => (sqls ++ ["WHERE " +:+ String.concat " AND "
                        ((fun w => "(" +:+ w +:+ ")") <$> ws)])%list
    end in
  let sqls :=
    match Clauses.order_by c with
    | [] => sqls
    | os => (sqls ++ ["ORDER BY " +:+ String.concat ", " os])%list
    end in
  let sqls :=
    match Clauses.limit c with
    | Some n => (sqls ++ ["LIMIT " +:+ pretty n])%list
    | None => sqls
    end in
  let sqls :=
    match Clauses.offset c with
    | Some n => (sqls ++ ["OFFSET " +:+ pretty n])%list
    | None => sqls
    end in
  wr ← load_wrappers (QS.wrappers q);
  mret (foldl (fun sql '(before, after) => before +:+ sql +:+ after)
              (String.concat newline sqls) wr).

(** *** Conditions *)

(** [_Qraw(sql, prms)] *)
Definition _Qraw (sql : string) (prms : option value) : value :=
  VQraw sql match prms with
            | Some (VList l) | Some (VQlst _ l) => l
            | Some v => [v]
            | None => [VNone]
            end.

(** What a leaf adds to the parameters: nothing for [None], its elements
    for a list or a tuple, itself otherwise. *)
Definition extend (prms : list value) (prm : value) : list value :=
  match prm with
  | VNone => prms
  | VList l | VQlst _ l => prms ++ l
  | _ => prms ++ [prm]
  end.

(** The loop of [Q.to_sql] over the sorted items. *)
Fixpoint Q_items (qs : loc) (items : list (string * value))
    (whrs : list string) (prms : list value) : M (list string * list value) :=
  match items with
  | [] => mret (whrs, prms)
  | (key, val) :: items =>
      '(key, val) ←
        match val with
        | VModel c _ _ =>
            k ← lift (primary_key_name env c);
            o ← lift (unbox val);
            v ← lift (Instance.pk env o);
            mret (key +:+ "__" +:+ k, v)
        | _ => mret (key, val)
        end;
      '(curname, fld, op) ← _parse_field_name qs key;
      '(whr, prm) ← lift (OpConverter.get_clause curname op fld val);
      Q_items qs items (whrs ++ [whr]) (extend prms prm)
  end.

(** The methods [to_sql] of [_Qraw], [_Qlst] and [Q]. *)
Fixpoint to_sql (c : value) (qs : loc) {struct c} : M (string * list value) :=
  match c with
  | VQraw sql prms => mret ("(" +:+ sql +:+ ")", prms)
  | VQlst op l =>
      '(whrs, prms) ←
        (fix each (l : list value) (whrs : list string) (prms : list value)
           : M (list string * list value) :=
           match l with
           | [] => mret (whrs, prms)
           | q :: l =>
               '(whr, prm) ← to_sql q qs;
               each l (whrs ++ [whr]) (prms ++ prm)
           end) l [] [];
      mret ("(" +:+ String.concat (" " +:+ op +:+ " ") whrs +:+ ")", prms)
  | VQ d =>
      let items := Py.sorted (fun a b => Py.str_le a.1 b.1) (map_to_list d) in
      '(whrs, prms) ← Q_items qs items [] [];
      mret ("(" +:+ String.concat " AND " whrs +:+ ")", prms)
  | _ => raise AttributeError
  end.

(** *** Chained methods *)

Definition set_clauses (self : loc) (f : Clauses.t → Clauses.t) : M unit :=
  q ← load_qs self;
  c ← load_clauses (QS.clauses q);
  store (QS.clauses q) (CClauses (f c)).

Definition select (self : loc) (args : list value) (kw : gmap string value)
  : M loc :=
  newset ← __init__ (inl self);
  args ← match args with
         | VStr sql :: rest =>
             if (2 <? length args)%nat then raise RuntimeError
             else mret [_Qraw sql (head rest)]
         | _ => mret args
         end;
  (if bool_decide (args = []) && bool_decide (kw = ∅) then mret tt else
     let ql := VQlst "AND" (args ++ if bool_decide (kw = ∅) then [] else [VQ kw]) in
     '(whr, prms) ← to_sql ql newset;
     set_clauses newset (fun c =>
       {| Clauses.type := Clauses.type c;
          Clauses.where_ := Clauses.where_ c ++ [whr];
          Clauses.order_by := Clauses.order_by c;
          Clauses.values := Clauses.values c ++ prms;
          Clauses.distinct := Clauses.distinct c;
          Clauses.limit := Clauses.limit c;
          Clauses.offset := Clauses.offset c |}));;
  mret newset.

Definition all (self : loc) : M loc := select self [] ∅.

Definition join (self : loc) (names : list string) : M loc :=
  newset ← __init__ (inl self);
  for_each (fun name => _parse_field_name newset name;; mret tt) names;;
  mret newset.

Definition order_by (self : loc) (names : list string) : M loc :=
  newset ← __init__ (inl self);
  for_each (fun name =>
    let '(desc, name) :=
      if Py.startswith "-" name then (" DESC", Py.tail name) else ("", name) in
    let name := Py.replace "." "__" name in
    '(curname, fld, op) ← _parse_field_name newset name;
    match op with
    | Some _ => raise RuntimeError
    | None =>
        fname ← lift match model fld with
                     | Some m => primary_key_name env m
                     | None => attr_name fld
                     end;
        set_clauses newset (fun c =>
          {| Clauses.type := Clauses.type c;
             Clauses.where_ := Clauses.where_ c;
             Clauses.order_by :=
               Clauses.order_by c ++ [dq curname +:+ "." +:+ dq fname +:+ desc];
             Clauses.values := Clauses.values c;
             Clauses.distinct := Clauses.distinct c;
             Clauses.limit := Clauses.limit c;
             Clauses.offset := Clauses.offset c |})
    end) names;;
  mret newset.

(** An argument of [fields]: an aggregate function or a name. *)
Inductive field_spec :=
| AggregateFunction (name field_name : string)
| FieldName (name : string).

Definition fields (self : loc) (names : list field_spec)
    (conv : option convfunc_t) : M loc :=
  newset ← __init__ (inl self);
  lsf ← alloc (CFields []);
  q ← load_qs newset;
  store newset (CQuerySet
    {| QS.cls := QS.cls q; QS.clauses := QS.clauses q;
       QS.select_fields := lsf; QS.joins := QS.joins q;
       QS.convfunc := default conv_tuple conv; QS.wrappers := QS.wrappers q;
       QS.factory := QS.factory q; QS.subquery_serial := QS.subquery_serial q;
       QS.cur := QS.cur q; QS._index := QS._index q; QS._cache := QS._cache q |});;
  for_each (fun name =>
    info ←
      match name with
      | AggregateFunction agg field_name =>
          fldname ←
            (if String.eqb field_name "*" then mret "*" else
               '(curname, fld, op) ← _parse_field_name newset field_name;
               n ← lift (attr_name fld);
               mret (dq curname +:+ "." +:+ dq n));
          mret (agg +:+ "(" +:+ fldname +:+ ")", None)
      | FieldName name =>
          '(curname, fld, op) ← _parse_field_name newset name;
          match model fld with
          | Some m => mret (dq curname +:+ ".*", Some m)
          | None =>
              n ← lift (attr_name fld);
              mret (dq curname +:+ "." +:+ dq n, None)
          end
      end;
    sf ← load_fields lsf;
    store lsf (CFields (sf ++ [info]))) names;;
  mret newset.

Definition field (self : loc) (name : string) : M loc :=
  fields self [FieldName name] (Some conv_first).

Definition distinct (self : loc) : M loc :=
  newset ← __init__ (inl self);
  set_clauses newset (fun c =>
    {| Clauses.type := Clauses.type c; Clauses.where_ := Clauses.where_ c;
       Clauses.order_by := Clauses.order_by c;
       Clauses.values := Clauses.values c; Clauses.distinct := true;
       Clauses.limit := Clauses.limit c; Clauses.offset := Clauses.offset c |});;
  mret newset.

Definition limit (self : loc) (limit : Z) : M loc :=
  newset ← __init__ (inl self);
  set_clauses newset (fun c =>
    {| Clauses.type := Clauses.type c; Clauses.where_ := Clauses.where_ c;
       Clauses.order_by := Clauses.order_by c;
       Clauses.values := Clauses.values c;
       Clauses.distinct := Clauses.distinct c;
       Clauses.limit := Some limit; Clauses.offset := Clauses.offset c |});;
  mret newset.

(** [x or d] on an optional integer: [None] and [0] are false. *)
Definition or_else (x : option Z) (d : Z) : Z :=
  match x with
  | Some n => if n =? 0 then d else n
  | None => d
  end.

Definition offset (self : loc) (offset : Z) : M loc :=
  newset ← __init__ (inl self);
  set_clauses newset (fun c =>
    {| Clauses.type := Clauses.type c; Clauses.where_ := Clauses.where_ c;
       Clauses.order_by := Clauses.order_by c;
       Clauses.values := Clauses.values c;
       Clauses.distinct := Clauses.distinct c;
       Clauses.limit := Some (or_else (Clauses.limit c) (-1));
       Clauses.offset := Some offset |});;
  mret newset.

(** *** Execution and row factoring *)

Definition with_cursor (q : QS.t) (cur : option Cursor) (index : Z)
    (cache : list value) : QS.t :=
  {| QS.cls := QS.cls q; QS.clauses := QS.clauses q;
     QS.select_fields := QS.select_fields q; QS.joins := QS.joins q;
     QS.convfunc := QS.convfunc q; QS.wrappers := QS.wrappers q;
     QS.factory := QS.factory q; QS.subquery_serial := QS.subquery_serial q;
     QS.cur := cur; QS._index := index; QS._cache := cache |}.

(** Getting and setting a new cursor. *)
Definition _execute (self : loc) : M unit :=
  q ← load_qs self;
  store self (CQuerySet (_initialize_cursor q));;
  s ← sql self;
  q ← load_qs self;
  c ← load_clauses (QS.clauses q);
  cur ← run_sql s (Clauses.values c);
  q ← load_qs self;
  store self (CQuerySet (with_cursor q (Some cur) (QS._index q) (QS._cache q))).

(** [cur.fetchone()] *)
Definition fetchone (c : Cursor) : option (list value) * Cursor :=
  match rows c with
  | [] => (None, c)
  | r :: rs => (Some r, {| rows := rs; description := description c;
                           lastrowid := lastrowid c |})
  end.

(** [h[k] = v] on a dictionary kept in insertion order. *)
Fixpoint dict_set (k : string) (v : value) (h : list (string * value))
  : list (string * value) :=
  match h with
  | [] => [(k, v)]
  | (k', v') :: h' =>
      if String.eqb k k' then (k, v) :: h' else (k', v') :: dict_set k v h'
  end.

(** [[[d[0], values[i]] for i, d in enumerate(mdldesc)]] *)
Fixpoint enumerate (mdldesc : list string) (values : list value)
  : result (list (string * value)) :=
  match mdldesc, values with
  | [], _ => Ok []
  | d :: ds, v :: vs => cons (d, v) <$> enumerate ds vs
  | _ :: _, [] => Raise IndexError
  end.

(** The loop of [_to_objects] over the models of [select_fields]. *)
Fixpoint to_objects_loop (mdls : list (option string)) (values : list value)
    (desc : list string) (objs : list value) : result (list value * list value) :=
  match mdls with
  | [] => Ok (objs, values)
  | Some mdl :: mdls =>
      m ← meta_of env mdl;
      let n := length (TableMetaInfo.fields m) in
      prs ← enumerate (take n desc) values;
      let h1 : gmap string value := list_to_map (reverse prs) in
      h2 ← foldl (fun (r : result (list (string * value))) fld =>
                    h2 ← r;
                    raw ← Py.of_option KeyError (h1 !! Field.name fld);
                    v ← Field.to_object fld raw;
                    Ok (dict_set (Field.name fld) v h2))
                 (Ok []) (TableMetaInfo.fields m);
      o ← Instance.__init__ env mdl h2;
      to_objects_loop mdls (drop (length h2) values) (drop n desc)
                      (objs ++ [box o])
  | None :: mdls =>
      match values, desc with
      | v :: vs, _ :: ds => to_objects_loop mdls vs ds (objs ++ [v])
      | _, _ => Raise IndexError
      end
  end.

Definition _to_objects (sf : list (string * option string))
    (conv : convfunc_t) (cur : Cursor) (row : list value) : result value :=
  '(objs, values) ← to_objects_loop (snd <$> sf) row (description cur) [];
  if negb (length values =? 0)%nat then Raise AssertionError else
  match conv with
  | conv_first => Py.of_option IndexError (head objs)
  | conv_tuple => Ok (VList objs)
  end.

(** [self.factory(self.cur, row)] *)
Definition call_factory (q : QS.t) (cur : Cursor) (row : list value) : M value :=
  match QS.factory q with
  | factory_to_objects =>
      sf ← load_fields (QS.select_fields q);
      lift (_to_objects sf (QS.convfunc q) cur row)
  | factory_single_value => lift (Py.of_option IndexError (head row))
  end.

Definition next (self : loc) : M value :=
  q ← load_qs self;
  (if QS.cur q is None then _execute self else mret tt);;
  q ← load_qs self;
  c ← lift (Py.of_option AttributeError (QS.cur q));
  let '(row, c) := fetchone c in
  store self (CQuerySet (with_cursor q (Some c) (QS._index q + 1) (QS._cache q)));;
  match row with
  | None | Some [] => raise StopIteration
  | Some row =>
      obj ← call_factory q c row;
      q ← load_qs self;
      store self (CQuerySet (with_cursor q (QS.cur q) (QS._index q)
                               (QS._cache q ++ [obj])));;
      mret obj
  end.

(** The first statements of [get]: a single positional argument is a
    condition on the primary key; the query set [get] draws from. *)
Definition get_query (self : loc) (args : list value) (kw : gmap string value)
  : M loc :=
  '(args, kw) ←
    match args with
    | [arg] =>
        q ← load_qs self;
        k ← lift (primary_key_name env (QS.cls q));
        mret ([], <[k := arg]> kw)
    | _ => mret (args, kw)
    end;
  select self args kw.

Definition get (self : loc) (args : list value) (kw : gmap string value)
  : M value :=
  qs ← get_query self args kw;
  obj ← try_except (next qs) StopIteration (raise ObjectDoesNotExist);
  more ← try_except (Some <$> next qs) StopIteration (mret None);
  match more with
  | None => mret obj
  | Some _ => raise MultipleObjectsReturned
  end.

(** *** Indexing *)

Inductive index_t :=
| slice (start stop step : option Z)
| str_index (s : string)
| int_index (i : Z).

(** What [__getitem__] returns: a new query set or a produced object
    ([None] included). *)
Inductive item_t :=
| a_queryset (l : loc)
| an_object (v : value).

(** [for obj in self: if self._index >= index: return obj], once
    [__iter__] has run; a cursor of [n] rows is exhausted after at most
    [n + 1] steps, which is the bound [fuel] starts from. *)
Fixpoint iterate (fuel : nat) (self : loc) (index : Z) : M value :=
  match fuel with
  | O => mret VNone
  | S fuel =>
      r ← try_except (Some <$> next self) StopIteration (mret None);
      match r with
      | None => mret VNone
      | Some obj =>
          q ← load_qs self;
          if index <=? QS._index q then mret obj else iterate fuel self index
      end
  end.

Definition set_window (self : loc) (limit offset : option Z) : M unit :=
  set_clauses self (fun c =>
    {| Clauses.type := Clauses.type c; Clauses.where_ := Clauses.where_ c;
       Clauses.order_by := Clauses.order_by c;
       Clauses.values := Clauses.values c;
       Clauses.distinct := Clauses.distinct c;
       Clauses.limit := limit; Clauses.offset := offset |}).

(** The branch of [__getitem__] for a slice, on the copy [newset]. *)
Definition slice_item (newset : loc) (start stop step : option Z) : M item_t :=
  if negb (bool_decide (step = Some 1)) && negb (bool_decide (step = None))
  then raise ValueError else
  let start := or_else start 0 in
  q ← load_qs newset;
  c ← load_clauses (QS.clauses q);
  set_window newset (Clauses.limit c)
             (Some (or_else (Clauses.offset c) 0 + start));;
  c ← load_clauses (QS.clauses q);
  match stop with
  | None => set_window newset (Some (-1)) (Clauses.offset c)
  | Some stop =>
      if stop <? start then raise ValueError
      else set_window newset (Some (stop - start)) (Clauses.offset c)
  end;;
  mret (a_queryset newset).

(** The branch of [__getitem__] for an integer: from the cache when the
    pointer has reached the position, by iterating from a fresh cursor
    otherwise. *)
Definition int_item (self : loc) (index : Z) : M item_t :=
  q ← load_qs self;
  if index <=? QS._index q
  then an_object <$> lift (Py.getitem (QS._cache q) index)
  else
    _execute self;;
    q ← load_qs self;
    let n := match QS.cur q with Some c => length (rows c) | None => O end in
    an_object <$> iterate (S n) self index.

Definition __getitem__ (self : loc) (index : index_t) : M item_t :=
  newset ← __init__ (inl self);
  match index with
  | slice start stop step => slice_item newset start stop step
  | str_index s => a_queryset <$> field newset s
  | int_index index => int_item self index
  end.

End QuerySet.
End QuerySet.

(** ** The model base class: class methods and [save] *)

Module Model.
Section Model.
Context `{Storage}.
Variable env : classes.
Variable now : Datetime.datetime.     (* what [datetime.now()] returns *)

Definition select (cls : string) (args : list value) (kw : gmap string value)
  : M loc :=
  qs ← QuerySet.__init__ env (inr cls);
  QuerySet.select env qs args kw.

Definition all (cls : string) : M loc := select cls [] ∅.

Definition get (cls : string) (args : list value) (kw : gmap string value)
  : M value :=
  qs ← QuerySet.__init__ env (inr cls);
  QuerySet.get env qs args kw.




End Model.
End Model.

(** ** What a query set denotes

    The state a query set compiles from, read off the store: its clause
    dictionary, projected fields, wrappers, and its join dictionary with the
    lists resolved.  The properties of the chained methods are stated on
    this reading. *)

Record view := {
  v_clauses : Clauses.t;
  v_fields : list (string * option string);
  v_joins : gmap string (list string);
  v_wrappers : list (string * string);
}.

Definition joins_rel (h : gmap loc cell) (j : gmap string loc)
    (vj : gmap string (list string)) : Prop :=
  ∀ k, option_Forall2 (fun l s => h !! l = Some (CStrs s)) (j !! k) (vj !! k).

(** The object at [self] is the query set [q] and denotes [v]. *)
Definition has_view (h : gmap loc cell) (self : loc) (q : QS.t) (v : view)
  : Prop :=
  h !! self = Some (CQuerySet q)
  ∧ h !! QS.clauses q = Some (CClauses (v_clauses v))
  ∧ h !! QS.select_fields q = Some (CFields (v_fields v))
  ∧ h !! QS.wrappers q = Some (CWrappers (v_wrappers v))
  ∧ ∃ j, h !! QS.joins q = Some (CJoins j) ∧ joins_rel h j (v_joins v).

(** None of the cells of the query set [q] at [n] is a cell of the store
    [h0]: the object was made after [h0]. *)
Definition owned (h0 : gmap loc cell) (n : loc) (q : QS.t) : Prop :=
  h0 !! n = None ∧ h0 !! QS.clauses q = None ∧ h0 !! QS.select_fields q = None
  ∧ h0 !! QS.joins q = None ∧ h0 !! QS.wrappers q = None.

(** The JOIN clauses in the order [sql] writes them. *)
Definition join_clauses (vj : gmap string (list string)) : list string :=
  concat ((fun k => default [] (vj !! k))
            <$> QuerySet.join_order (fst <$> map_to_list vj)).

(** The lines [sql] writes after the JOIN clauses. *)
Definition tail_lines (c : Clauses.t) : list string :=
  match Clauses.where_ c with
  | [] => []
  | ws => ["WHERE " +:+ String.concat " AND " ((fun w => "(" +:+ w +:+ ")") <$> ws)]
  end
  ++ match Clauses.order_by c with
     | [] => []
     | os => ["ORDER BY " +:+ String.concat ", " os]
     end
  ++ match Clauses.limit c with
     | Some n => ["LIMIT " +:+ pretty n]
     | None => []
     end
  ++ match Clauses.offset c with
     | Some n => ["OFFSET " +:+ pretty n]
     | None => []
     end.

(** The first line: the SELECT or DELETE head. *)
Definition head_line (tbl : string) (v : view) : string :=
  if String.eqb (Clauses.type (v_clauses v)) "DELETE"
  then "DELETE FROM " +:+ dq tbl
  else "SELECT" +:+ (if Clauses.distinct (v_clauses v) then " DISTINCT" else "")
       +:+ " " +:+ String.concat ", " (fst <$> v_fields v)
       +:+ " FROM " +:+ dq tbl.

Definition sql_lines (tbl : string) (v : view) : list string :=
  head_line tbl v :: join_clauses (v_joins v) ++ tail_lines (v_clauses v).

(** The text [sql] compiles, as a function of the class and the view. *)
Definition sql_of (env : classes) (cls : string) (v : view) : result string :=
  m ← meta_of env cls;
  Ok (foldl (fun sql '(before, after) => before +:+ sql +:+ after)
            (String.concat QuerySet.newline
               (sql_lines (TableMetaInfo.table_name m) v))
            (v_wrappers v)).

(** What the factory of the query set [q] makes of a row. *)
Definition factored (env : classes) (q : QS.t) (v : view) (c : Cursor)
    (row : list value) : result value :=
  match QS.factory q with
  | factory_to_objects =>
      QuerySet._to_objects env (v_fields v) (QS.convfunc q) c row
  | factory_single_value => Py.of_option IndexError (head row)
  end.

(** The join entries a path writes, in order, and what the parser returns:
    the loop of [_parse_field_name] without the store. *)
Fixpoint path_entries (env : classes) (curmdl curname : string)
    (fld : option attr) (items : list string)
  : list (string * list string) * result (string * option attr * list string) :=
  match items with
  | [] => ([], Ok (curname, fld, []))
  | item :: items =>
      match env !! curmdl with
      | None => ([], Raise AttributeError)
      | Some c =>
          match __dict__ c !! item with
          | None => ([], Raise KeyError)
          | Some fld =>
              match sql_joins env fld, model fld with
              | Some fld_sql_joins, Some fld_model =>
                  let asname := curname +:+ "." +:+ item in
                  match fld_sql_joins asname curname with
                  | Raise e => ([], Raise e)
                  | Ok js =>
                      let '(es, r) :=
                        path_entries env fld_model asname (Some fld) items in
                      ((asname, js) :: es, r)
                  end
              | _, _ =>
                  if is_Field fld then ([], Ok (curname, Some fld, items))
                  else ([], Raise RuntimeError)
              end
          end
      end
  end.

Definition write_entries (es : list (string * list string))
    (vj : gmap string (list string)) : gmap string (list string) :=
  foldl (fun m '(k, js) => <[k := js]> m) vj es.

Definition with_joins (v : view) (vj : gmap string (list string)) : view :=
  {| v_clauses := v_clauses v; v_fields := v_fields v; v_joins := vj;
     v_wrappers := v_wrappers v |}.

(** Order by a key first and by [R1] among equal keys: what a stable sort
    on the key makes of a list sorted by [R1]. *)
Definition key_then {A} (key : A → nat) (R1 : relation A) (a b : A) : Prop :=
  (key a < key b)%nat ∨ (key a = key b ∧ R1 a b).

Definition str_leb (a b : string) : Prop := String.leb a b = true.

(** The order of the aliases: by depth, and lexically within a depth. *)
Definition join_before : relation string := key_then QuerySet.depth str_leb.

(** The number of dots of a string. *)
Fixpoint dots (s : string) : nat :=
  match s with
  | EmptyString => 0
  | String c s => (if Ascii.eqb c "." then 1 else 0) + dots s
  end.

(** The clause dictionary of the query set at [n]. *)
Definition clauses_of (h : gmap loc cell) (n : loc) : option Clauses.t :=
  match h !! n with
  | Some (CQuerySet q) =>
      match h !! QS.clauses q with
      | Some (CClauses c) => Some c
      | _ => None
      end
  | _ => None
  end.

Definition with_window (v : view) (limit offset : option Z) : view :=
  {| v_clauses :=
       {| Clauses.type := Clauses.type (v_clauses v);
          Clauses.where_ := Clauses.where_ (v_clauses v);
          Clauses.order_by := Clauses.order_by (v_clauses v);
          Clauses.values := Clauses.values (v_clauses v);
          Clauses.distinct := Clauses.distinct (v_clauses v);
          Clauses.limit := limit; Clauses.offset := offset |};
     v_fields := v_fields v; v_joins := v_joins v; v_wrappers := v_wrappers v |}.

(** What [LIMIT limit OFFSET offset] keeps of the rows of a query in the
    dialect of the storage engine: the first [offset] rows are skipped, then
    at most [limit] rows are kept, all of them when the limit is negative
    or absent. *)
Definition window {A} (limit offset : option Z) (rows : list A) : list A :=
  let rows := drop (Z.to_nat (default 0 offset)) rows in
  match limit with
  | Some l => if l <? 0 then rows else take (Z.to_nat l) rows
  | None => rows
  end.

(** [rows[start:stop]] for [0 <= start <= stop]. *)
Definition py_slice {A} (start stop : Z) (rows : list A) : list A :=
  take (Z.to_nat (stop - start)) (drop (Z.to_nat start) rows).

(** What [_parse_field_name] writes and returns for a name, without the
    store. *)
Definition resolve (env : classes) (cls : string) (name : string)
  : list (string * list string) * result (string * attr * option string) :=
  match meta_of env cls with
  | Raise e => ([], Raise e)
  | Ok m =>
      let '(es, r) := path_entries env cls (TableMetaInfo.table_name m) None
                        (Py.split "__" name) in
      (es, '(curname, fld, items) ← r;
           if (2 <=? length items)%nat then Raise RuntimeError else
           fld ← Py.of_option RuntimeError fld;
           Ok (curname, fld, head items))
  end.

(** The value the entries [es] bind [k] to: the last one written. *)
Fixpoint last_binding (k : string) (es : list (string * list string))
  : option (list string) :=
  match es with
  | [] => None
  | (k', x) :: es =>
      match last_binding k es with
      | Some y => Some y
      | None => if decide (k = k') then Some x else None
      end
  end.

(** The cumulative aliases of a path from [curname]. *)
Fixpoint cumulative (curname : string) (items : list string) : list string :=
  match items with
  | [] => []
  | item :: items =>
      (curname +:+ "." +:+ item) :: cumulative (curname +:+ "." +:+ item) items
  end.

(** The chained calls of a query set. *)
Inductive chained_call :=
| call_select (args : list value) (kw : gmap string value)
| call_order_by (names : list string)
| call_limit (n : Z)
| call_offset (n : Z)
| call_join (names : list string)
| call_fields (names : list QuerySet.field_spec) (conv : option convfunc_t)
| call_distinct.

Definition run_call `{Storage} (env : classes) (self : loc) (c : chained_call)
  : M loc :=
  match c with
  | call_select args kw => QuerySet.select env self args kw
  | call_order_by names => QuerySet.order_by env self names
  | call_limit n => QuerySet.limit env self n
  | call_offset n => QuerySet.offset env self n
  | call_join names => QuerySet.join env self names
  | call_fields names conv => QuerySet.fields env self names conv
  | call_distinct => QuerySet.distinct env self
  end.

(** The query set [q] at [n] was made after the store [h0]: its cells are
    none of [h0], it denotes some view, and [h0] is still part of the store;
    the database and the statements sent are those of [w0]. *)
Definition made_after `{Storage} (h0 : gmap loc cell) (n : loc) (q : QS.t)
    (w0 w : world) : Prop :=
  h0 ⊆ heap w ∧ db w = db w0 ∧ executed w = executed w0
  ∧ owned h0 n q ∧ ∃ v, has_view (heap w) n q v.

(** The computation [m] works on the query set at [n] only. *)
Definition keeps `{Storage} {A} (h0 : gmap loc cell) (n : loc) (q : QS.t)
    (m : M A) : Prop :=
  ∀ w0 w, made_after h0 n q w0 w → made_after h0 n q w0 (m w).1.

(** The computation [m] returns [a] when it returns. *)
Definition returns_only `{Storage} {A} (m : M A) (a : A) : Prop :=
  ∀ w a', (m w).2 = Ok a' → a' = a.

(** The computation [m] only adds to the statements sent. *)
Definition appends `{Storage} {A} (m : M A) : Prop :=
  ∀ w, ∃ l, executed (m w).1 = executed w ++ l.

(** ** A small program to run the definitions on

    The classes of the module's docstring: [Team] with a name, [Member]
    with a name, a part and a many-to-one relationship [team], whose
    reverse accessor on [Team] is [members].  The storage engine of the
    example answers every statement with the rows it holds. *)

Module Example.

Definition id_ : Field.t := Field.Field "id" true VNone true.
Definition name : Field.t := Field.Field "name" false VNone false.
Definition part : Field.t := Field.Field "part" false VNone false.
Definition team_id : Field.t := Field.Field "team_id" false VNone false.

Definition Team : ModelClass :=
  {| __name__ := "Team";
     _meta := {| TableMetaInfo.table_name := "team";
                 TableMetaInfo.primary_key := Some id_;
                 TableMetaInfo.fields := [id_; name] |};
     __dict__ := list_to_map
       [("id", AField id_); ("name", AField name);
        ("members", A_ManyToOne_Rev
           {| rev_ref := "Team"; rev__ref_key := None; rev_rev := "Member";
              rev_rev_fkey := "team_id" |});
        ("__repr__", AOther)] |}.

Definition Member : ModelClass :=
  {| __name__ := "Member";
     _meta := {| TableMetaInfo.table_name := "member";
                 TableMetaInfo.primary_key := Some id_;
                 TableMetaInfo.fields := [id_; name; part; team_id] |};
     __dict__ := list_to_map
       [("id", AField id_); ("name", AField name); ("part", AField part);
        ("team_id", AField team_id);
        ("team", AManyToOne
           {| m2o_name := "team"; m2o_ref := "Team"; m2o_fkey := "team_id";
              m2o__ref_key := None |})] |}.

Definition env : classes := list_to_map [("Team", Team); ("Member", Member)].

#[local] Instance storage : Storage :=
  {| DB := list (list value);
     execute := fun d _ _ =>
       Ok (d, {| rows := d; description := ["id"; "name"]; lastrowid := VNone |}) |}.

(** A store [h] over the rows [d], nothing executed yet. *)
Definition world_of (h : gmap loc cell) (d : list (list value)) : world :=
  {| heap := h; db := d; executed := [] |}.

Definition world0 (d : list (list value)) : world := world_of ∅ d.

(** The store after [Member.all()]: a query set at location 1 with its
    clause dictionary, fields, joins and wrappers at locations 2 to 5. *)
Definition member_qs : QS.t :=
  {| QS.cls := "Member"; QS.clauses := 2%positive;
     QS.select_fields := 3%positive; QS.joins := 4%positive;
     QS.convfunc := conv_first; QS.wrappers := 5%positive;
     QS.factory := factory_to_objects; QS.subquery_serial := 1;
     QS.cur := None; QS._index := -1; QS._cache := [] |}.

Definition member_view : view :=
  {| v_clauses := {| Clauses.type := "SELECT"; Clauses.where_ := [];
                     Clauses.order_by := []; Clauses.values := [];
                     Clauses.distinct := false; Clauses.limit := None;
                     Clauses.offset := None |};
     v_fields := [(dq "member" +:+ ".*", Some "Member")];
     v_joins := ∅; v_wrappers := [] |}.

Definition member_heap : gmap loc cell :=
  list_to_map
    [(1%positive, CQuerySet member_qs);
     (2%positive, CClauses (v_clauses member_view));
     (3%positive, CFields (v_fields member_view));
     (4%positive, CJoins ∅); (5%positive, CWrappers [])].

(** The store after [Team.all()], likewise. *)
Definition team_qs : QS.t :=
  {| QS.cls := "Team"; QS.clauses := 2%positive;
     QS.select_fields := 3%positive; QS.joins := 4%positive;
     QS.convfunc := conv_first; QS.wrappers := 5%positive;
     QS.factory := factory_to_objects; QS.subquery_serial := 1;
     QS.cur := None; QS._index := -1; QS._cache := [] |}.

Definition team_view : view :=
  {| v_clauses := v_clauses member_view;
     v_fields := [(dq "team" +:+ ".*", Some "Team")];
     v_joins := ∅; v_wrappers := [] |}.

Definition team_heap : gmap loc cell :=
  list_to_map
    [(1%positive, CQuerySet team_qs);
     (2%positive, CClauses (v_clauses team_view));
     (3%positive, CFields (v_fields team_view));
     (4%positive, CJoins ∅); (5%positive, CWrappers [])].

End Example.

(** * Properties *)

(** ** The operator converter: special leaves, IN and BETWEEN *)

Lemma placeholders_spec (n : nat) :
  ∃ ps : list string,
    length ps = n ∧ Forall (fun p => p = "?") ps
    ∧ OpConverter.placeholders n = String.concat "," ps.
Proof.
  exists (replicate n "?"). split; [apply length_replicate|]. split; [|done].
  apply Forall_forall. intros p Hp. by apply elem_of_replicate in Hp as [-> _].
Qed.

(** C6.  A leaf without operator whose value is [None] compiles to
    [IS NULL] and adds no parameter; the marker [NotNull] compiles to
    [IS NOT NULL] and adds no parameter; a [Like] pattern compiles to
    [LIKE ?] and adds its pattern string as one parameter; the operators
    [in] and [not_in] on a list compile to a parenthesised list of as many
    placeholders as the list has elements and add the elements in order. *)
Theorem special_leaves_compile (tblname : string) (fld : attr) (name : string)
    (prms : list value) :
  attr_name fld = Ok name →
  let col := dq tblname +:+ "." +:+ dq name in
  (OpConverter.get_clause tblname None fld VNone = Ok (col +:+ " IS NULL", VNone)
   ∧ QuerySet.extend prms VNone = prms)
  ∧ (OpConverter.get_clause tblname None fld VNotNull
       = Ok (col +:+ " IS NOT NULL", VNone))
  ∧ (∀ s, OpConverter.get_clause tblname None fld (VLike s)
            = Ok (col +:+ " LIKE ?", VStr s)
          ∧ QuerySet.extend prms (VStr s) = prms ++ [VStr s])
  ∧ (∀ l, ∃ ps : list string,
        length ps = length l ∧ Forall (fun p => p = "?") ps
        ∧ OpConverter.get_clause tblname (Some "in") fld (VList l)
          = Ok (col +:+ " IN (" +:+ String.concat "," ps +:+ ")", VList l)
        ∧ OpConverter.get_clause tblname (Some "not_in") fld (VList l)
          = Ok (col +:+ " NOT IN (" +:+ String.concat "," ps +:+ ")", VList l)
        ∧ QuerySet.extend prms (VList l) = prms ++ l).
Proof.
  intros Hname col.
  unfold OpConverter.get_clause. cbn. rewrite Hname. cbn.
  repeat split.
  intros l. destruct (placeholders_spec (length l)) as (ps & Hlen & Hall & Hps).
  exists ps. rewrite <- Hps. repeat split; done.
Qed.

Lemma special_leaves_compile_witness :
  attr_name (AField (Field.Field "name" false VNone false)) = Ok "name"
  ∧ OpConverter.get_clause "member" None
      (AField (Field.Field "name" false VNone false)) VNone
    = Ok (dq "member" +:+ "." +:+ dq "name" +:+ " IS NULL", VNone).
Proof.
  split; [reflexivity|].
  apply (special_leaves_compile "member"
           (AField (Field.Field "name" false VNone false)) "name" []).
  reflexivity.
Defined.

(** C7.  [between] and [not_between] compile only on an operand of length
    two: the compilation succeeds exactly when the operand is iterable and
    has two elements, and an operand of any other length is refused with
    [ValueError]. *)
Theorem between_needs_two_operands (tblname : string) (fld : attr) (name : string)
    (op : string) (val : value) :
  attr_name fld = Ok name →
  op = "between" ∨ op = "not_between" →
  (∀ n, len val = Ok n → n ≠ 2%nat →
        OpConverter.get_clause tblname (Some op) fld val = Raise ValueError)
  ∧ (∀ r, OpConverter.get_clause tblname (Some op) fld val = Ok r →
          len val = Ok 2%nat ∧ r.2 = val)
  ∧ (is_Iterable val = true → len val = Ok 2%nat →
     ∃ sql, OpConverter.get_clause tblname (Some op) fld val = Ok (sql, val)).
Proof.
  intros Hname Hop.
  assert (Hget : OpConverter.get_clause tblname (Some op) fld val
                 = '(t, p) ← OpConverter._base_between
                               (if String.eqb op "between" then "BETWEEN"
                                else "NOT BETWEEN") val;
                   Ok (t (dq tblname +:+ "." +:+ dq name), p)).
  { unfold OpConverter.get_clause. rewrite Hname.
    destruct Hop as [-> | ->]; reflexivity. }
  rewrite Hget. unfold OpConverter._base_between.
  assert (Hlen : ∀ n, len val = Ok n → is_Iterable val = true).
  { intros n. by destruct val. }
  repeat split.
  - intros n Hn Hne. rewrite (Hlen n Hn), Hn. cbn.
    destruct (Nat.eqb_spec n 2); [done|]. reflexivity.
  - destruct (is_Iterable val); [|done]. cbn in *.
    destruct (len val) as [n|]; [|done]. cbn in *.
    destruct (Nat.eqb_spec n 2); [by subst|done].
  - destruct (is_Iterable val); [|done]. cbn in *.
    destruct (len val) as [n|]; [|done]. cbn in *.
    destruct (Nat.eqb_spec n 2); [|done]. cbn in *. by injection H as <-.
  - intros Hit Hn. rewrite Hit, Hn. cbn. eauto.
Qed.

Lemma between_needs_two_operands_witness :
  OpConverter.get_clause "member" (Some "between")
    (AField (Field.Field "age" false VNone false)) (VList [VInt 1; VInt 2; VInt 3])
  = Raise ValueError.
Proof.
  refine (proj1 (between_needs_two_operands "member"
           (AField (Field.Field "age" false VNone false)) "age" "between"
           (VList [VInt 1; VInt 2; VInt 3]) _ _) 3%nat _ _);
    [reflexivity | left; reflexivity | reflexivity | lia].
Defined.

(** ** Temporal fields: formatting and parsing back *)

Section Roundtrip.
Import Datetime.

Lemma append_String (c : ascii) (s r : string) :
  String c s +:+ r = String c (s +:+ r).
Proof. reflexivity. Qed.

Lemma append_empty (r : string) : "" +:+ r = r.
Proof. reflexivity. Qed.

Lemma digit_val_digit_char (k : Z) :
  0 <= k < 10 → digit_val (digit_char k) = Some k.
Proof.
  intros Hk.
  assert (k = 0 ∨ k = 1 ∨ k = 2 ∨ k = 3 ∨ k = 4 ∨ k = 5 ∨ k = 6 ∨ k = 7
          ∨ k = 8 ∨ k = 9) as Hcases by lia.
  repeat (destruct Hcases as [-> | Hcases]; [reflexivity|]). by subst.
Qed.

Lemma small_Z_is_nat (v : Z) (b : nat) :
  0 <= v < Z.of_nat b → ∃ n : nat, (n < b)%nat ∧ v = Z.of_nat n.
Proof. intros Hv. exists (Z.to_nat v). lia. Qed.

Lemma print_year_four_digits (y : Z) :
  1000 <= y <= 9999 →
  print_year y
  = String (digit_char (y / 1000 mod 10))
      (String (digit_char (y / 100 mod 10))
         (String (digit_char (y / 10 mod 10)) (String (digit_char (y mod 10)) ""))).
Proof.
  intros Hy. unfold print_year.
  destruct (Z.ltb_spec y 10); [lia|]. destruct (Z.ltb_spec y 100); [lia|].
  destruct (Z.ltb_spec y 1000); [lia|]. by rewrite Z.div_1_r.
Qed.

Lemma match_year_print_year (y : Z) (rest : string) :
  1000 <= y <= 9999 → match_year (print_year y +:+ rest) = Some (y, rest).
Proof.
  intros Hy. rewrite print_year_four_digits by done. unfold match_year.
  rewrite !append_String, append_empty.
  rewrite !digit_val_digit_char by (apply Z.mod_pos_bound; lia).
  do 2 f_equal. Z.div_mod_to_equations. lia.
Qed.

Lemma match_alt_A2 (a b c d k1 k2 : Z) (rest : string) :
  0 <= k1 < 10 → 0 <= k2 < 10 →
  match_alt (A2 a b c d) (String (digit_char k1) (String (digit_char k2) rest))
  = if (a <=? k1) && (k1 <=? b) && ((c <=? k2) && (k2 <=? d))
    then Some (10 * k1 + k2, rest) else None.
Proof.
  intros H1 H2. unfold match_alt, A2, digit_in. cbn [blank two lo1 hi1 lo2 hi2].
  rewrite !digit_val_digit_char by done.
  by destruct (a <=? k1), (k1 <=? b), (c <=? k2), (k2 <=? d).
Qed.

Lemma pad2_digits (v : Z) (rest : string) :
  0 <= v < 100 →
  ∃ k1 k2, 0 <= k1 < 10 ∧ 0 <= k2 < 10 ∧ v = 10 * k1 + k2
    ∧ pad2 v +:+ rest = String (digit_char k1) (String (digit_char k2) rest).
Proof.
  intros Hv. exists (v / 10 mod 10), (v mod 10). unfold pad2.
  rewrite !append_String, append_empty.
  repeat split; try (apply Z.mod_pos_bound; lia); Z.div_mod_to_equations; lia.
Qed.

Lemma candidates_pad2 (d : directive) (v : Z) (rest : string) :
  d ≠ dY → in_range d v →
  ∃ tl, candidates d (pad2 v +:+ rest) = (v, rest) :: tl.
Proof.
  intros Hd Hv.
  destruct d; [done| | | | |]; cbn in Hv;
    (destruct (pad2_digits v rest) as (k1 & k2 & Hk1 & Hk2 & -> & ->); [lia|]);
    unfold candidates, alternatives; cbn [omap list_omap];
    rewrite !match_alt_A2 by done;
    repeat match goal with
           | |- context [Z.leb ?x ?y] => destruct (Z.leb_spec x y)
           end; cbn [andb]; try lia; by eexists.
Qed.

Lemma is_space_digit_char (k : Z) : 0 <= k < 10 → is_space (digit_char k) = false.
Proof.
  intros Hk.
  assert (k = 0 ∨ k = 1 ∨ k = 2 ∨ k = 3 ∨ k = 4 ∨ k = 5 ∨ k = 6 ∨ k = 7
          ∨ k = 8 ∨ k = 9) as Hcases by lia.
  repeat (destruct Hcases as [-> | Hcases]; [reflexivity|]). by subst.
Qed.

Lemma format_directive_print (d : directive) (x : tm) :
  format_directive d x = print d (tm_get d x).
Proof. by destruct d. Qed.

Lemma regex_match_Dir (d : directive) (v : Z) (its : list item)
    (rest : string) (acc : tm) (r : tm * string) :
  in_range d v →
  regex_match its rest (tm_set d v acc) = Some r →
  regex_match (Dir d :: its) (print d v +:+ rest) acc = Some r.
Proof.
  intros Hv Hr. cbn [regex_match].
  assert (d = dY ∨ d ≠ dY) as [-> | Hd] by (destruct d; [left | right ..]; done).
  - unfold candidates, print. rewrite match_year_print_year by done.
    cbn -[tm_set]. by rewrite Hr.
  - destruct (candidates_pad2 d v rest Hd Hv) as [tl Htl].
    replace (print d v) with (pad2 v) by (by destruct d).
    rewrite Htl. cbn -[tm_set]. by rewrite Hr.
Qed.

Lemma regex_match_Lit (c : ascii) (its : list item) (s : string) (acc : tm) :
  is_space c = false →
  regex_match (Lit c :: its) (String c s) acc = regex_match its s acc.
Proof. intros Hc. cbn [regex_match]. by rewrite Hc, Ascii.eqb_refl. Qed.

Lemma regex_match_blank (c : ascii) (d : directive) (v : Z) (its : list item)
    (rest : string) (acc : tm) :
  is_space c = true → 0 <= v →  in_range d v →
  regex_match (Lit c :: its) (String c (print d v +:+ rest)) acc
  = regex_match its (print d v +:+ rest) acc.
Proof.
  intros Hc Hv0 Hv. cbn [regex_match]. rewrite Hc.
  assert (∃ k s, 0 <= k < 10 ∧ print d v +:+ rest = String (digit_char k) s)
    as (k & s & Hk & ->).
  { destruct d; cbn in Hv; unfold print;
      try (destruct (pad2_digits v rest) as (k1 & k2 & Hk1 & Hk2 & _ & ->);
           [lia | by eauto]).
    rewrite print_year_four_digits, append_String by done.
    eexists _, _. split; [|done]. apply Z.mod_pos_bound. lia. }
  cbn [blank_runs]. rewrite Hc. cbn [blank_runs].
  rewrite (is_space_digit_char k Hk). cbn.
  by destruct (regex_match its _ acc).
Qed.

Lemma valid_date_range (d : date) :
  valid_date d = true → 1000 <= year d →
  in_range dY (year d) ∧ in_range dm (month d) ∧ in_range dd (day d).
Proof.
  unfold valid_date. rewrite !andb_true_iff, !Z.leb_le. intros Hd HY. cbn.
  assert (days_in_month (year d) (month d) <= 31).
  { unfold days_in_month. repeat case_match; lia. }
  lia.
Qed.

Lemma valid_time_range (t : time) :
  valid_time t = true →
  in_range dH (hour t) ∧ in_range dM (minute t) ∧ in_range dS (second t).
Proof.
  unfold valid_time. rewrite !andb_true_iff, !Z.leb_le, !Z.ltb_lt. cbn. lia.
Qed.

Lemma strptime_strftime_datetime (dt : datetime) :
  valid_datetime dt = true → 1000 <= year (date_of dt) →
  microsecond (time_of dt) = 0 →
  (s ← strftime_tm (tm_of_datetime dt) "%Y-%m-%d %H:%M:%S";
   strptime s "%Y-%m-%d %H:%M:%S") = Ok dt.
Proof.
  intros Hvalid Hyear Hus. pose proof Hvalid as Hv.
  unfold valid_datetime in Hv. apply andb_true_iff in Hv as [Hd Ht].
  apply valid_date_range in Hd as (HY & Hm & Hd); [|done].
  apply valid_time_range in Ht as (HH & HM & HS).
  unfold strftime_tm, strptime.
  change (parse_format "%Y-%m-%d %H:%M:%S")
    with (Some [Dir dY; Lit "-"; Dir dm; Lit "-"; Dir dd; Lit " ";
                Dir dH; Lit ":"; Dir dM; Lit ":"; Dir dS]).
  cbn [mbind Py.result_bind format_items]. rewrite !format_directive_print.
  erewrite regex_match_Dir; [| exact HY |].
  2:{ rewrite regex_match_Lit by done.
      erewrite regex_match_Dir; [reflexivity | exact Hm |].
      rewrite regex_match_Lit by done.
      erewrite regex_match_Dir; [reflexivity | exact Hd |].
      rewrite regex_match_blank; [| done | cbn in HH; cbn; lia | exact HH].
      erewrite regex_match_Dir; [reflexivity | exact HH |].
      rewrite regex_match_Lit by done.
      erewrite regex_match_Dir; [reflexivity | exact HM |].
      rewrite regex_match_Lit by done.
      erewrite regex_match_Dir; [reflexivity | exact HS |].
      reflexivity. }
  clear HY Hm Hd HH HM HS.
  destruct dt as [[Y m d] [H M S us]]. cbn in Hus. subst us.
  unfold datetime_of_tm. cbn -[valid_datetime]. by rewrite Hvalid.
Qed.

Lemma strptime_strftime_date (d : date) :
  valid_date d = true → 1000 <= year d →
  (s ← strftime_tm (tm_of_date d) "%Y-%m-%d";
   date_of <$> strptime s "%Y-%m-%d") = Ok d.
Proof.
  intros Hvalid Hyear.
  pose proof (valid_date_range d Hvalid Hyear) as (HY & Hm & Hd).
  unfold strftime_tm, strptime.
  change (parse_format "%Y-%m-%d")
    with (Some [Dir dY; Lit "-"; Dir dm; Lit "-"; Dir dd]).
  cbn [mbind Py.result_bind format_items]. rewrite !format_directive_print.
  erewrite regex_match_Dir; [| exact HY |].
  2:{ rewrite regex_match_Lit by done.
      erewrite regex_match_Dir; [reflexivity | exact Hm |].
      rewrite regex_match_Lit by done.
      erewrite regex_match_Dir; [reflexivity | exact Hd |].
      reflexivity. }
  clear HY Hm Hd. destruct d as [Y m d].
  unfold datetime_of_tm, valid_datetime. cbn -[valid_date].
  by rewrite Hvalid.
Qed.

Lemma strptime_strftime_time (t : time) :
  valid_time t = true → microsecond t = 0 →
  (s ← strftime_tm (tm_of_time t) "%H:%M:%S";
   time_of <$> strptime s "%H:%M:%S") = Ok t.
Proof.
  intros Hvalid Hus. pose proof (valid_time_range t Hvalid) as (HH & HM & HS).
  unfold strftime_tm, strptime.
  change (parse_format "%H:%M:%S")
    with (Some [Dir dH; Lit ":"; Dir dM; Lit ":"; Dir dS]).
  cbn [mbind Py.result_bind format_items]. rewrite !format_directive_print.
  erewrite regex_match_Dir; [| exact HH |].
  2:{ rewrite regex_match_Lit by done.
      erewrite regex_match_Dir; [reflexivity | exact HM |].
      rewrite regex_match_Lit by done.
      erewrite regex_match_Dir; [reflexivity | exact HS |].
      reflexivity. }
  clear HH HM HS. destruct t as [H M S us]. cbn in Hus. subst us.
  unfold datetime_of_tm, valid_datetime. cbn -[valid_time].
  by rewrite Hvalid.
Qed.

End Roundtrip.

(** C8, as the code has it.  For each temporal field, [to_object] undoes
    [to_database] on the values whose year has four digits: a datetime of
    the years 1000 to 9999 with no fraction of a second comes back equal
    through the text [YYYY-MM-DD HH:MM:SS], a date of those years through
    [YYYY-MM-DD], a time with no fraction of a second through [HH:MM:SS];
    and both directions of the three fields send [None] to [None]. *)
Theorem temporal_fields_round_trip :
  (∀ dt, Datetime.valid_datetime dt = true →
         1000 <= Datetime.year (Datetime.date_of dt) →
         Datetime.microsecond (Datetime.time_of dt) = 0 →
         TimestampField.to_database (VDatetime dt) ≫= TimestampField.to_object
         = Ok (VDatetime dt))
  ∧ (∀ d, Datetime.valid_date d = true → 1000 <= Datetime.year d →
          DateField.to_database (VDate d) ≫= DateField.to_object = Ok (VDate d))
  ∧ (∀ t, Datetime.valid_time t = true → Datetime.microsecond t = 0 →
          TimeField.to_database (VTime t) ≫= TimeField.to_object = Ok (VTime t))
  ∧ (TimestampField.to_database VNone = Ok VNone
     ∧ TimestampField.to_object VNone = Ok VNone
     ∧ DateField.to_database VNone = Ok VNone
     ∧ DateField.to_object VNone = Ok VNone
     ∧ TimeField.to_database VNone = Ok VNone
     ∧ TimeField.to_object VNone = Ok VNone).
Proof.
  split; [|split; [|split]]; [| | |done].
  - intros dt Hvalid Hyear Hus.
    pose proof (strptime_strftime_datetime dt Hvalid Hyear Hus) as Hrt.
    unfold TimestampField.to_database, strftime.
    destruct (Datetime.strftime_tm _ _) as [s|]; [|done]. cbn -[Datetime.strptime] in *.
    by rewrite Hrt.
  - intros d Hvalid Hyear.
    pose proof (strptime_strftime_date d Hvalid Hyear) as Hrt.
    unfold DateField.to_database, strftime.
    destruct (Datetime.strftime_tm _ _) as [s|]; [|done]. cbn -[Datetime.strptime] in *.
    destruct (Datetime.strptime s _); cbn in *; congruence.
  - intros t Hvalid Hus.
    pose proof (strptime_strftime_time t Hvalid Hus) as Hrt.
    unfold TimeField.to_database, strftime.
    destruct (Datetime.strftime_tm _ _) as [s|]; [|done]. cbn -[Datetime.strptime] in *.
    destruct (Datetime.strptime s _); cbn in *; congruence.
Qed.

Lemma temporal_fields_round_trip_witness :
  let dt := {| Datetime.date_of :=
                 {| Datetime.year := 2024; Datetime.month := 2; Datetime.day := 29 |};
               Datetime.time_of :=
                 {| Datetime.hour := 23; Datetime.minute := 59;
                    Datetime.second := 7; Datetime.microsecond := 0 |} |} in
  Datetime.valid_datetime dt = true
  ∧ 1000 <= Datetime.year (Datetime.date_of dt)
  ∧ Datetime.microsecond (Datetime.time_of dt) = 0
  ∧ TimestampField.to_database (VDatetime dt) ≫= TimestampField.to_object
    = Ok (VDatetime dt).
Proof.
  cbv zeta. split; [reflexivity|]. split; [cbn; lia|]. split; [reflexivity|].
  apply (proj1 temporal_fields_round_trip); [reflexivity | cbn; lia | reflexivity].
Defined.

(** C8 as stated fails before the year 1000: the datetime 0999-01-01
    00:00:00 and the date 0033-04-03 are values of the fields, [to_database]
    prints their years on three and on two digits, and [to_object] raises
    [ValueError] on the text. *)
Lemma temporal_fields_short_year :
  let dt := {| Datetime.date_of :=
                 {| Datetime.year := 999; Datetime.month := 1; Datetime.day := 1 |};
               Datetime.time_of :=
                 {| Datetime.hour := 0; Datetime.minute := 0;
                    Datetime.second := 0; Datetime.microsecond := 0 |} |} in
  let d := {| Datetime.year := 33; Datetime.month := 4; Datetime.day := 3 |} in
  Datetime.valid_datetime dt = true
  ∧ Datetime.microsecond (Datetime.time_of dt) = 0
  ∧ TimestampField.to_database (VDatetime dt) = Ok (VStr "999-01-01 00:00:00")
  ∧ TimestampField.to_database (VDatetime dt) ≫= TimestampField.to_object
    = Raise ValueError
  ∧ Datetime.valid_date d = true
  ∧ DateField.to_database (VDate d) = Ok (VStr "33-04-03")
  ∧ DateField.to_database (VDate d) ≫= DateField.to_object = Raise ValueError.
Proof. cbv zeta. repeat split; vm_compute; reflexivity. Qed.

(** ** Sorting, and the order of the JOIN clauses *)

Lemma sorted_cons {A} (le : A → A → bool) (x : A) (l : list A) :
  Py.sorted le (x :: l) = Py.insert_sorted le x (Py.sorted le l).
Proof. reflexivity. Qed.

Section Sorting.
Context {A : Type} (le : A → A → bool) (R : relation A).
Hypothesis le_R : ∀ a b, le a b = true → R a b.
Hypothesis nle_R : ∀ a b, le a b = false → R b a.
Hypothesis R_trans : Transitive R.

Lemma insert_sorted_perm (x : A) (l : list A) : Py.insert_sorted le x l ≡ₚ x :: l.
Proof.
  induction l as [|y l IH]; [done|]. cbn. destruct (le x y); [done|].
  rewrite IH. apply Permutation_swap.
Qed.

Lemma sorted_perm (l : list A) : Py.sorted le l ≡ₚ l.
Proof.
  induction l as [|x l IH]; [done|]. cbn.
  by rewrite insert_sorted_perm, IH.
Qed.

Lemma insert_sorted_StronglySorted (x : A) (l : list A) :
  StronglySorted R l → StronglySorted R (Py.insert_sorted le x l).
Proof.
  induction 1 as [|y l Hl IH Hy]; cbn; [repeat constructor|].
  destruct (le x y) eqn:Hxy.
  - constructor; [by constructor|]. apply le_R in Hxy.
    constructor; [done|]. eapply Forall_impl; [exact Hy|].
    intros z Hz. by etrans.
  - constructor; [done|]. rewrite insert_sorted_perm.
    constructor; [by apply nle_R | done].
Qed.

Lemma sorted_StronglySorted (l : list A) : StronglySorted R (Py.sorted le l).
Proof.
  induction l as [|x l IH]; cbn; [constructor|].
  by apply insert_sorted_StronglySorted.
Qed.
End Sorting.

(** A stable sort on a key refines the order its input has. *)
Section Stable.
Context {A : Type} (key : A → nat) (R1 : relation A).

#[local] Abbreviation key_then := (key_then key R1).

Lemma key_then_intro (a b : A) : (key a <= key b)%nat → R1 a b → key_then a b.
Proof.
  intros Hk HR. unfold key_then.
  destruct (decide (key a = key b)); [by right | left; lia].
Qed.

Lemma key_then_le (a b : A) : key_then a b → (key a <= key b)%nat.
Proof. unfold key_then. lia. Qed.

Lemma insert_sorted_stable (x : A) (l : list A) :
  Forall (R1 x) l → StronglySorted key_then l →
  StronglySorted key_then
    (Py.insert_sorted (fun a b => (key a <=? key b)%nat) x l).
Proof.
  intros Hx Hl. induction Hl as [|y l Hl IH Hy]; cbn; [repeat constructor|].
  apply Forall_cons in Hx as [Hxy Hx].
  destruct (Nat.leb_spec (key x) (key y)) as [Hle | Hlt].
  - constructor; [by constructor|].
    constructor; [by apply key_then_intro|].
    rewrite Forall_forall in Hy, Hx |- *. intros z Hz.
    apply key_then_intro; [|by apply Hx].
    specialize (Hy z Hz). apply key_then_le in Hy. lia.
  - constructor; [by apply IH|].
    rewrite insert_sorted_perm. constructor; [|done]. unfold key_then. lia.
Qed.

Lemma sorted_stable (l : list A) :
  StronglySorted R1 l →
  StronglySorted key_then (Py.sorted (fun a b => (key a <=? key b)%nat) l).
Proof.
  induction 1 as [|x l Hl IH Hx]; [constructor|]. rewrite sorted_cons.
  apply insert_sorted_stable; [|done]. by rewrite sorted_perm.
Qed.
End Stable.

Lemma str_leb_cases (a b : string) :
  str_leb a b ↔ a = b ∨ OrderedTypeEx.String_as_OT.lt a b.
Proof.
  unfold str_leb, String.leb.
  rewrite <- OrderedTypeEx.String_as_OT.cmp_lt, <- OrderedTypeEx.String_as_OT.cmp_eq.
  unfold OrderedTypeEx.String_as_OT.cmp. destruct (String.compare a b); intuition congruence.
Qed.

#[local] Instance str_leb_trans : Transitive str_leb.
Proof.
  intros a b c. rewrite !str_leb_cases.
  intros [-> | Hab] [-> | Hbc]; auto.
  right. by eapply OrderedTypeEx.String_as_OT.lt_trans.
Qed.

#[local] Instance str_leb_antisym : AntiSymm eq str_leb.
Proof. intros a b. apply String.leb_antisym. Qed.

Lemma str_leb_false (a b : string) : Py.str_le a b = false → str_leb b a.
Proof.
  unfold Py.str_le, str_leb. intros Hab.
  destruct (String.leb_total a b); congruence.
Qed.

(** Sorting by [str_le] forgets the order of its input. *)
Lemma sorted_str_le_perm (l1 l2 : list string) :
  l1 ≡ₚ l2 → Py.sorted Py.str_le l1 = Py.sorted Py.str_le l2.
Proof.
  intros Hl. apply (StronglySorted_unique str_leb).
  - apply sorted_StronglySorted; [done | apply str_leb_false | apply _].
  - apply sorted_StronglySorted; [done | apply str_leb_false | apply _].
  - by rewrite !sorted_perm.
Qed.

Lemma join_order_perm (l1 l2 : list string) :
  l1 ≡ₚ l2 → QuerySet.join_order l1 = QuerySet.join_order l2.
Proof. intros Hl. unfold QuerySet.join_order. by rewrite (sorted_str_le_perm l1 l2). Qed.

Lemma join_order_sorted (keys : list string) :
  QuerySet.join_order keys ≡ₚ keys
  ∧ StronglySorted join_before (QuerySet.join_order keys).
Proof.
  unfold QuerySet.join_order. split.
  - by rewrite !sorted_perm.
  - apply sorted_stable.
    apply sorted_StronglySorted; [done | apply str_leb_false | apply _].
Qed.

Lemma split_go_dots (cur s : string) :
  length (Py.split_go "." 0 cur s) = S (dots s).
Proof.
  revert cur. induction s as [|c s IH]; intros cur; [done|].
  cbn [Py.split_go dots String.prefix String.length Nat.pred].
  destruct (ascii_dec "." c) as [<- | Hc].
  - replace (String.prefix "" s) with true by (by destruct s).
    cbn. by rewrite IH.
  - destruct (Ascii.eqb_spec c ".") as [-> | _]; [done|]. by rewrite IH.
Qed.

Lemma dots_app (a b : string) : dots (a +:+ b) = (dots a + dots b)%nat.
Proof.
  induction a as [|c a IH]; [done|].
  rewrite append_String. cbn [dots]. rewrite IH. lia.
Qed.

Lemma depth_extend (a r : string) :
  (QuerySet.depth a < QuerySet.depth (a +:+ "." +:+ r))%nat.
Proof.
  unfold QuerySet.depth, Py.split. rewrite !split_go_dots, !dots_app. cbn. lia.
Qed.

(** ** Running store computations *)

Section StoreFacts.
Context `{Storage}.

Lemma bind_Ok {A B} (m : M A) (f : A → M B) (w w1 : world) (a : A) :
  m w = (w1, Ok a) → (m ≫= f) w = f a w1.
Proof. intros Hm. unfold mbind, M_bind. by rewrite Hm. Qed.

Lemma bind_Raise {A B} (m : M A) (f : A → M B) (w w1 : world) (e : exn) :
  m w = (w1, Raise e) → (m ≫= f) w = (w1, Raise e).
Proof. intros Hm. unfold mbind, M_bind. by rewrite Hm. Qed.

Lemma bind_inv {A B} (m : M A) (f : A → M B) (w w' : world) (r : result B) :
  (m ≫= f) w = (w', r) →
  (∃ w1 a, m w = (w1, Ok a) ∧ f a w1 = (w', r))
  ∨ (∃ e, m w = (w', Raise e) ∧ r = Raise e).
Proof.
  unfold mbind, M_bind. destruct (m w) as [w1 [a|e]]; intros Hr.
  - left. eauto.
  - right. exists e. by simplify_eq.
Qed.

Lemma fmap_Ok {A B} (g : A → B) (m : M A) (w w1 : world) (a : A) :
  m w = (w1, Ok a) → (g <$> m) w = (w1, Ok (g a)).
Proof. intros Hm. unfold fmap, M_fmap. by rewrite Hm. Qed.

Lemma fmap_Raise {A B} (g : A → B) (m : M A) (w w1 : world) (e : exn) :
  m w = (w1, Raise e) → (g <$> m) w = (w1, Raise e).
Proof. intros Hm. unfold fmap, M_fmap. by rewrite Hm. Qed.

Lemma load_Some (w : world) (l : loc) (c : cell) :
  heap w !! l = Some c → load l w = (w, Ok c).
Proof. intros Hl. unfold load. by rewrite Hl. Qed.

Lemma load_qs_Some (w : world) (l : loc) (q : QS.t) :
  heap w !! l = Some (CQuerySet q) → load_qs l w = (w, Ok q).
Proof. intros Hl. unfold load_qs. by rewrite (bind_Ok _ _ _ _ _ (load_Some _ _ _ Hl)). Qed.

Lemma load_clauses_Some (w : world) (l : loc) (c : Clauses.t) :
  heap w !! l = Some (CClauses c) → load_clauses l w = (w, Ok c).
Proof. intros Hl. unfold load_clauses. by rewrite (bind_Ok _ _ _ _ _ (load_Some _ _ _ Hl)). Qed.

Lemma load_fields_Some (w : world) (l : loc) (x : list (string * option string)) :
  heap w !! l = Some (CFields x) → load_fields l w = (w, Ok x).
Proof. intros Hl. unfold load_fields. by rewrite (bind_Ok _ _ _ _ _ (load_Some _ _ _ Hl)). Qed.

Lemma load_joins_Some (w : world) (l : loc) (j : gmap string loc) :
  heap w !! l = Some (CJoins j) → load_joins l w = (w, Ok j).
Proof. intros Hl. unfold load_joins. by rewrite (bind_Ok _ _ _ _ _ (load_Some _ _ _ Hl)). Qed.

Lemma load_strs_Some (w : world) (l : loc) (x : list string) :
  heap w !! l = Some (CStrs x) → load_strs l w = (w, Ok x).
Proof. intros Hl. unfold load_strs. by rewrite (bind_Ok _ _ _ _ _ (load_Some _ _ _ Hl)). Qed.

Lemma load_wrappers_Some (w : world) (l : loc) (x : list (string * string)) :
  heap w !! l = Some (CWrappers x) → load_wrappers l w = (w, Ok x).
Proof. intros Hl. unfold load_wrappers. by rewrite (bind_Ok _ _ _ _ _ (load_Some _ _ _ Hl)). Qed.

Lemma joins_rel_dom (h : gmap loc cell) (j : gmap string loc)
    (vj : gmap string (list string)) :
  joins_rel h j vj → (fst <$> map_to_list j) ≡ₚ (fst <$> map_to_list vj).
Proof.
  intros Hrel. apply NoDup_Permutation; try apply NoDup_fst_map_to_list.
  intros k. rewrite !list_elem_of_fmap.
  specialize (Hrel k). split; intros ([k' x] & -> & Hx%elem_of_map_to_list); cbn in *.
  - rewrite Hx in Hrel. inversion Hrel as [l s Hl Hj Hv|]; subst.
    exists (k', s). split; [done|]. by apply elem_of_map_to_list.
  - rewrite Hx in Hrel. inversion Hrel as [l s Hl Hj Hv|]; subst.
    exists (k', l). split; [done|]. by apply elem_of_map_to_list.
Qed.

Lemma map_M_joins (w : world) (j : gmap string loc)
    (vj : gmap string (list string)) (keys : list string) :
  joins_rel (heap w) j vj → Forall (fun k => is_Some (vj !! k)) keys →
  map_M (fun k => l ← lift (Py.of_option KeyError (j !! k)); load_strs l) keys w
  = (w, Ok ((fun k => default [] (vj !! k)) <$> keys)).
Proof.
  intros Hrel. induction 1 as [|k keys [s Hs] _ IH]; [done|].
  cbn [map_M fmap list_fmap].
  specialize (Hrel k). rewrite Hs in Hrel.
  inversion Hrel as [l s' Hl Hj Hv|]; subst.
  erewrite bind_Ok.
  2:{ erewrite bind_Ok; [|reflexivity]. by apply load_strs_Some. }
  erewrite bind_Ok by exact IH. by rewrite Hs.
Qed.

(** [sql] reads the view and changes nothing. *)
Lemma sql_has_view (env : classes) (w : world) (self : loc) (q : QS.t) (v : view) :
  has_view (heap w) self q v →
  QuerySet.sql env self w = (w, sql_of env (QS.cls q) v).
Proof.
  intros (Hq & Hc & Hf & Hw & j & Hj & Hrel).
  unfold QuerySet.sql, sql_of.
  erewrite bind_Ok by (by apply load_qs_Some).
  destruct (meta_of env (QS.cls q)) as [m|e] eqn:Hm; [|done].
  erewrite bind_Ok by done.
  erewrite bind_Ok by (by apply load_clauses_Some).
  erewrite bind_Ok.
  2:{ instantiate (1 := [head_line (TableMetaInfo.table_name m) v]).
      unfold head_line. destruct (String.eqb _ _); [done|].
      by erewrite bind_Ok by (by apply load_fields_Some). }
  erewrite bind_Ok by (by apply load_joins_Some).
  erewrite bind_Ok.
  2:{ apply map_M_joins; [done|].
      rewrite (join_order_perm _ _ (joins_rel_dom _ _ _ Hrel)).
      apply Forall_forall. intros k Hk.
      rewrite (proj1 (join_order_sorted _)) in Hk.
      apply list_elem_of_fmap in Hk as ([k' s] & -> & Hs%elem_of_map_to_list).
      by exists s. }
  erewrite bind_Ok by (by apply load_wrappers_Some).
  cbn [mret M_ret mbind Py.result_bind]. do 3 f_equal.
  unfold sql_lines, join_clauses, tail_lines.
  rewrite (join_order_perm _ _ (joins_rel_dom _ _ _ Hrel)).
  destruct (Clauses.where_ (v_clauses v)), (Clauses.order_by (v_clauses v)),
    (Clauses.limit (v_clauses v)), (Clauses.offset (v_clauses v));
    cbn [app]; rewrite <- ?app_assoc, ?app_nil_r; reflexivity.
Qed.

End StoreFacts.

Lemma join_order_shallow_first (keys : list string) (a b : string) :
  NoDup keys → a ∈ keys → b ∈ keys →
  (QuerySet.depth a < QuerySet.depth b)%nat →
  ∃ l1 l2 l3, QuerySet.join_order keys = l1 ++ a :: l2 ++ b :: l3.
Proof.
  intros Hnd Ha Hb Hlt.
  destruct (join_order_sorted keys) as [Hperm Hsorted].
  rewrite <- Hperm in Ha, Hb.
  apply list_elem_of_split in Ha as (l1 & l2 & Heq).
  rewrite Heq in Hb, Hsorted |- *.
  apply elem_of_app in Hb as [Hb | Hb].
  - apply (StronglySorted_app_1_elem_of _ _ _ b a) in Hsorted;
      [|done|by left].
    unfold join_before, key_then in Hsorted. lia.
  - apply elem_of_cons in Hb as [-> | Hb]; [lia|].
    apply list_elem_of_split in Hb as (l2' & l3 & ->). by exists l1, l2', l3.
Qed.

(** C5.  The compiled SQL writes the JOIN clauses alias by alias in the
    order [sorted(sorted(keys), key=depth)]: every alias of the join map
    once, sorted by depth and lexically within a depth, so that a join comes
    before every deeper join, in particular before those whose alias
    extends its own. *)
Theorem join_clauses_sorted `{Storage} (env : classes) (w : world) (self : loc)
    (q : QS.t) (v : view) :
  has_view (heap w) self q v →
  let keys := QuerySet.join_order (fst <$> map_to_list (v_joins v)) in
  QuerySet.sql env self w = (w, sql_of env (QS.cls q) v)
  ∧ (∀ tbl, ∃ tail, sql_lines tbl v
       = head_line tbl v
         :: concat ((fun k => default [] (v_joins v !! k)) <$> keys) ++ tail)
  ∧ NoDup keys
  ∧ (∀ k, k ∈ keys ↔ is_Some (v_joins v !! k))
  ∧ StronglySorted join_before keys
  ∧ (∀ a b, a ∈ keys → b ∈ keys →
       (QuerySet.depth a < QuerySet.depth b)%nat →
       ∃ l1 l2 l3, keys = l1 ++ a :: l2 ++ b :: l3)
  ∧ (∀ a r, a ∈ keys → a +:+ "." +:+ r ∈ keys →
       ∃ l1 l2 l3, keys = l1 ++ a :: l2 ++ (a +:+ "." +:+ r) :: l3).
Proof.
  intros Hview keys.
  destruct (join_order_sorted (fst <$> map_to_list (v_joins v)))
    as [Hperm Hsorted].
  assert (Hnd : NoDup (fst <$> map_to_list (v_joins v)))
    by apply NoDup_fst_map_to_list.
  assert (Hin : ∀ k, k ∈ keys ↔ is_Some (v_joins v !! k)).
  { intros k. unfold keys. rewrite Hperm, list_elem_of_fmap. split.
    - intros ([k' s] & -> & Hs%elem_of_map_to_list). by exists s.
    - intros [s Hs]. exists (k, s). split; [done|]. by apply elem_of_map_to_list. }
  assert (Hfirst : ∀ a b, a ∈ keys → b ∈ keys →
            (QuerySet.depth a < QuerySet.depth b)%nat →
            ∃ l1 l2 l3, keys = l1 ++ a :: l2 ++ b :: l3).
  { intros a b Ha Hb. unfold keys in *. rewrite Hperm in Ha, Hb.
    by apply join_order_shallow_first. }
  split; [by apply sql_has_view|].
  split; [intros tbl; by eexists|].
  split; [unfold keys; by rewrite Hperm|].
  split; [done|]. split; [done|]. split; [done|].
  intros a r Ha Hb. apply Hfirst; [done..|]. apply depth_extend.
Qed.

Lemma join_clauses_sorted_witness :
  let run := QuerySet.join Example.env 1%positive ["members__team__name"]
               (Example.world_of Example.team_heap []) in
  let w := run.1 in
  let q := {| QS.cls := "Team"; QS.clauses := 6%positive;
              QS.select_fields := 7%positive; QS.joins := 8%positive;
              QS.convfunc := conv_first; QS.wrappers := 9%positive;
              QS.factory := factory_to_objects; QS.subquery_serial := 1;
              QS.cur := None; QS._index := -1; QS._cache := [] |} in
  let members := "INNER JOIN " +:+ dq "member" +:+ " AS " +:+ dq "team.members"
                 +:+ " ON " +:+ dq "team" +:+ "." +:+ dq "id" +:+ " = "
                 +:+ dq "team.members" +:+ "." +:+ dq "team_id" in
  let team := "INNER JOIN " +:+ dq "team" +:+ " AS " +:+ dq "team.members.team"
              +:+ " ON " +:+ dq "team.members" +:+ "." +:+ dq "team_id" +:+ " = "
              +:+ dq "team.members.team" +:+ "." +:+ dq "id" in
  let v := {| v_clauses := v_clauses Example.team_view;
              v_fields := v_fields Example.team_view;
              v_joins := {[ "team.members" := [members];
                            "team.members.team" := [team] ]};
              v_wrappers := [] |} in
  let keys := QuerySet.join_order (fst <$> map_to_list (v_joins v)) in
  run.2 = Ok 10%positive
  ∧ has_view (heap w) 10%positive q v
  ∧ QuerySet.sql Example.env 10%positive w = (w, sql_of Example.env "Team" v)
  ∧ (∃ tail, sql_lines "team" v = head_line "team" v :: members :: team :: tail)
  ∧ StronglySorted join_before keys
  ∧ (∃ l1 l2 l3,
       keys = l1 ++ "team.members" :: l2 ++ "team.members.team" :: l3).
Proof.
  cbv zeta. split; [vm_compute; reflexivity|].
  match goal with |- ?P ∧ _ => assert P as Hview end.
  { repeat split; try (vm_compute; reflexivity).
    exists {[ "team.members" := 11%positive; "team.members.team" := 12%positive ]}.
    split; [vm_compute; reflexivity|].
    intros k. cbn [v_joins].
    destruct (decide (k = "team.members")) as [-> | Hk1].
    { rewrite !lookup_insert_eq. constructor. vm_compute. reflexivity. }
    rewrite !lookup_insert_ne by done.
    destruct (decide (k = "team.members.team")) as [-> | Hk2].
    { rewrite !lookup_singleton_eq. constructor. vm_compute. reflexivity. }
    rewrite !lookup_singleton_ne by done. constructor. }
  split; [exact Hview|].
  destruct (join_clauses_sorted Example.env _ _ _ _ Hview)
    as (Hsql & Hlines & _ & Hin & Hsorted & _ & Hext).
  split; [exact Hsql|]. split.
  { destruct (Hlines "team") as [tail Htail]. exists tail. rewrite Htail.
    reflexivity. }
  split; [exact Hsorted|].
  apply (Hext "team.members" "team"); apply Hin; cbn [v_joins].
  - rewrite lookup_insert_eq. by eexists.
  - rewrite lookup_insert_ne by done. rewrite lookup_singleton_eq. by eexists.
Defined.

(** ** The copy constructor and the clause update *)

Section CopyFacts.
Context `{Storage}.

Lemma has_view_mono (h h' : gmap loc cell) (self : loc) (q : QS.t) (v : view) :
  h ⊆ h' → has_view h self q v → has_view h' self q v.
Proof.
  intros Hsub (Hq & Hc & Hf & Hw & j & Hj & Hrel).
  repeat split; try by eapply lookup_weaken.
  exists j. split; [by eapply lookup_weaken|].
  intros k. specialize (Hrel k).
  destruct Hrel; constructor. by eapply lookup_weaken.
Qed.

Lemma alloc_spec (c : cell) (w : world) :
  ∃ l, alloc c w = (set_heap (<[l := c]> (heap w)) w, Ok l) ∧ heap w !! l = None.
Proof.
  exists (fresh (dom (heap w))). split; [done|].
  apply not_elem_of_dom, is_fresh.
Qed.

(** The copy denotes what the original denotes, and none of its cells is
    a cell of the store before the call. *)
Lemma init_copy_spec (env : classes) (w : world) (self : loc) (q : QS.t) (v : view) :
  has_view (heap w) self q v →
  ∃ w' n q',
    QuerySet.__init__ env (inl self) w = (w', Ok n)
    ∧ heap w ⊆ heap w' ∧ db w' = db w ∧ executed w' = executed w
    ∧ has_view (heap w') n q' v ∧ owned (heap w) n q'
    ∧ QS.cls q' = QS.cls q ∧ QS.convfunc q' = QS.convfunc q
    ∧ QS.cur q' = None ∧ QS._index q' = -1 ∧ QS._cache q' = []
    ∧ QS.factory q' = factory_to_objects.
Proof.
  intros (Hq & Hc & Hf & Hw & j & Hj & Hrel).
  unfold QuerySet.__init__.
  erewrite bind_Ok by (by apply load_qs_Some).
  erewrite bind_Ok by (by apply load_clauses_Some).
  destruct (alloc_spec (CClauses (v_clauses v)) w) as (lc & Ea & Hlc).
  erewrite bind_Ok by exact Ea. clear Ea.
  set (w1 := set_heap _ w).
  assert (Hsub1 : heap w ⊆ heap w1) by (by apply insert_subseteq).
  erewrite bind_Ok by (apply load_fields_Some; by eapply lookup_weaken).
  destruct (alloc_spec (CFields (v_fields v)) w1) as (lf & Ea & Hlf).
  erewrite bind_Ok by exact Ea. clear Ea.
  set (w2 := set_heap _ w1).
  assert (Hsub2 : heap w1 ⊆ heap w2) by (by apply insert_subseteq).
  erewrite bind_Ok by (apply load_joins_Some; by do 2 (eapply lookup_weaken; [|done])).
  destruct (alloc_spec (CJoins j) w2) as (lj & Ea & Hlj).
  erewrite bind_Ok by exact Ea. clear Ea.
  set (w3 := set_heap _ w2).
  assert (Hsub3 : heap w2 ⊆ heap w3) by (by apply insert_subseteq).
  erewrite bind_Ok
    by (apply load_wrappers_Some; by do 3 (eapply lookup_weaken; [|done])).
  destruct (alloc_spec (CWrappers (v_wrappers v)) w3) as (lw & Ea & Hlw).
  erewrite bind_Ok by exact Ea. clear Ea.
  set (w4 := set_heap _ w3).
  assert (Hsub4 : heap w3 ⊆ heap w4) by (by apply insert_subseteq).
  match goal with |- context [alloc (CQuerySet ?x)] => set (q' := x) end.
  destruct (alloc_spec (CQuerySet q') w4) as (n & Ea & Hn).
  rewrite Ea. clear Ea.
  set (w5 := set_heap _ w4).
  assert (Hsub5 : heap w4 ⊆ heap w5) by (by apply insert_subseteq).
  assert (Hsub : heap w ⊆ heap w5).
  { etrans; [exact Hsub1|]. etrans; [exact Hsub2|]. etrans; [exact Hsub3|].
    etrans; [exact Hsub4 | exact Hsub5]. }
  exists w5, n, q'. split; [done|]. split; [done|].
  split; [done|]. split; [done|]. split; [|split; [|done]].
  - assert (heap w1 !! lc = Some (CClauses (v_clauses v))) by apply lookup_insert_eq.
    assert (heap w2 !! lf = Some (CFields (v_fields v))) by apply lookup_insert_eq.
    assert (heap w3 !! lj = Some (CJoins j)) by apply lookup_insert_eq.
    assert (heap w4 !! lw = Some (CWrappers (v_wrappers v))) by apply lookup_insert_eq.
    assert (Hs35 : heap w3 ⊆ heap w5) by (etrans; [exact Hsub4 | exact Hsub5]).
    assert (Hs25 : heap w2 ⊆ heap w5) by (etrans; [exact Hsub3 | exact Hs35]).
    assert (Hs15 : heap w1 ⊆ heap w5) by (etrans; [exact Hsub2 | exact Hs25]).
    repeat split; cbn [QS.clauses QS.select_fields QS.wrappers QS.joins q'].
    + apply lookup_insert_eq.
    + by apply (lookup_weaken (heap w1)).
    + by apply (lookup_weaken (heap w2)).
    + by apply (lookup_weaken (heap w4)).
    + exists j. split; [by apply (lookup_weaken (heap w3))|].
      intros k. specialize (Hrel k). destruct Hrel; constructor.
      by apply (lookup_weaken (heap w)).
  - unfold owned. cbn [QS.clauses QS.select_fields QS.wrappers QS.joins q'].
    assert (Hs02 : heap w ⊆ heap w2) by (etrans; [exact Hsub1 | exact Hsub2]).
    assert (Hs03 : heap w ⊆ heap w3) by (etrans; [exact Hs02 | exact Hsub3]).
    assert (Hs04 : heap w ⊆ heap w4) by (etrans; [exact Hs03 | exact Hsub4]).
    repeat split.
    + by apply (lookup_weaken_None _ (heap w4)).
    + done.
    + by apply (lookup_weaken_None _ (heap w1)).
    + by apply (lookup_weaken_None _ (heap w2)).
    + by apply (lookup_weaken_None _ (heap w3)).
Qed.

Lemma store_spec (l : loc) (c : cell) (w : world) :
  store l c w = (set_heap (<[l := c]> (heap w)) w, Ok tt).
Proof. done. Qed.

(** Updating the clauses of a query set changes its clause cell only. *)
Lemma set_clauses_spec (w : world) (n : loc) (q : QS.t) (v : view)
    (f : Clauses.t → Clauses.t) :
  has_view (heap w) n q v →
  let w' := set_heap (<[QS.clauses q := CClauses (f (v_clauses v))]> (heap w)) w in
  QuerySet.set_clauses n f w = (w', Ok tt)
  ∧ has_view (heap w') n q
      {| v_clauses := f (v_clauses v); v_fields := v_fields v;
         v_joins := v_joins v; v_wrappers := v_wrappers v |}.
Proof.
  intros (Hq & Hc & Hf & Hw & j & Hj & Hrel) w'. split.
  - unfold QuerySet.set_clauses.
    erewrite bind_Ok by (by apply load_qs_Some).
    by erewrite bind_Ok by (by apply load_clauses_Some).
  - unfold w'. cbn [heap set_heap].
    repeat split; cbn [v_clauses v_fields v_joins v_wrappers].
    + rewrite lookup_insert_ne; [done|]. intros Heq. rewrite Heq in Hc. congruence.
    + apply lookup_insert_eq.
    + rewrite lookup_insert_ne; [done|]. intros Heq. rewrite Heq in Hc. congruence.
    + rewrite lookup_insert_ne; [done|]. intros Heq. rewrite Heq in Hc. congruence.
    + exists j. split.
      * rewrite lookup_insert_ne; [done|]. intros Heq. rewrite Heq in Hc. congruence.
      * intros k. specialize (Hrel k). destruct Hrel as [l s Hl|]; constructor.
        rewrite lookup_insert_ne; [done|]. intros Heq. rewrite Heq in Hc. congruence.
Qed.

End CopyFacts.

(** ** Slicing *)

Lemma set_window_spec `{Storage} (w : world) (n : loc) (q : QS.t) (v : view)
    (limit offset : option Z) :
  has_view (heap w) n q v →
  ∃ w', QuerySet.set_window n limit offset w = (w', Ok tt)
        ∧ heap w' = <[QS.clauses q := CClauses (v_clauses (with_window v limit offset))]> (heap w)
        ∧ db w' = db w ∧ executed w' = executed w
        ∧ has_view (heap w') n q (with_window v limit offset).
Proof.
  intros Hview. unfold QuerySet.set_window.
  destruct (set_clauses_spec w n q v
              (fun c => {| Clauses.type := Clauses.type c;
                           Clauses.where_ := Clauses.where_ c;
                           Clauses.order_by := Clauses.order_by c;
                           Clauses.values := Clauses.values c;
                           Clauses.distinct := Clauses.distinct c;
                           Clauses.limit := limit; Clauses.offset := offset |})
              Hview) as [Hrun Hview'].
  eexists. split; [exact Hrun|]. do 3 (split; [done|]). exact Hview'.
Qed.

Lemma slice_item_spec `{Storage} (w : world) (n : loc) (q : QS.t) (v : view)
    (start stop step : option Z) :
  has_view (heap w) n q v →
  let s := QuerySet.or_else start 0 in
  let o := QuerySet.or_else (Clauses.offset (v_clauses v)) 0 in
  let lim := match stop with Some e => e - s | None => -1 end in
  let r := if negb (bool_decide (step = Some 1)) && negb (bool_decide (step = None))
           then Raise ValueError
           else match stop with
                | Some e => if e <? s then Raise ValueError
                            else Ok (QuerySet.a_queryset n)
                | None => Ok (QuerySet.a_queryset n)
                end in
  ∃ w', QuerySet.slice_item n start stop step w = (w', r)
        ∧ (∀ l, l ≠ QS.clauses q → heap w' !! l = heap w !! l)
        ∧ db w' = db w ∧ executed w' = executed w
        ∧ (r = Ok (QuerySet.a_queryset n) →
           has_view (heap w') n q (with_window v (Some lim) (Some (o + s)))).
Proof.
  intros Hview s o lim r. unfold QuerySet.slice_item. subst r.
  destruct (negb _ && negb _).
  { exists w. by repeat split. }
  pose proof Hview as (Hq & Hc & _).
  erewrite bind_Ok by (by apply load_qs_Some).
  erewrite bind_Ok by (by apply load_clauses_Some).
  destruct (set_window_spec w n q v (Clauses.limit (v_clauses v)) (Some (o + s)) Hview)
    as (w1 & Hrun1 & Hheap1 & Hdb1 & Hex1 & Hview1).
  erewrite bind_Ok by exact Hrun1.
  pose proof Hview1 as (_ & Hc1 & _).
  erewrite bind_Ok by (by apply load_clauses_Some).
  fold s. cbn [with_window v_clauses Clauses.offset].
  assert (Hframe1 : ∀ l, l ≠ QS.clauses q → heap w1 !! l = heap w !! l).
  { intros l Hl. rewrite Hheap1. by apply lookup_insert_ne. }
  destruct stop as [e|].
  - destruct (e <? s).
    + exists w1. split; [done|]. split; [done|]. by repeat split.
    + destruct (set_window_spec w1 n q _ (Some (e - s)) (Some (o + s)) Hview1)
        as (w2 & Hrun2 & Hheap2 & Hdb2 & Hex2 & Hview2).
      erewrite bind_Ok by exact Hrun2.
      exists w2. split; [done|]. split; [|split; [congruence|split; [congruence|]]].
      * intros l Hl. rewrite Hheap2, lookup_insert_ne by done. by apply Hframe1.
      * intros _. exact Hview2.
  - destruct (set_window_spec w1 n q _ (Some (-1)) (Some (o + s)) Hview1)
      as (w2 & Hrun2 & Hheap2 & Hdb2 & Hex2 & Hview2).
    erewrite bind_Ok by exact Hrun2.
    exists w2. split; [done|]. split; [|split; [congruence|split; [congruence|]]].
    + intros l Hl. rewrite Hheap2, lookup_insert_ne by done. by apply Hframe1.
    + intros _. exact Hview2.
Qed.

Lemma frame_subseteq (h0 h1 h2 : gmap loc cell) (l0 : loc) :
  h0 ⊆ h1 → h0 !! l0 = None → (∀ l, l ≠ l0 → h2 !! l = h1 !! l) → h0 ⊆ h2.
Proof.
  intros Hsub Hl0 Hframe. apply map_subseteq_spec. intros l c Hl.
  rewrite Hframe by congruence. by eapply lookup_weaken.
Qed.

Lemma window_slice {A} (rows : list A) (limit offset : option Z) (s e : Z) :
  (∀ l, limit = Some l → l < 0) → 0 <= default 0 offset → 0 <= s <= e →
  window (Some (e - s)) (Some (QuerySet.or_else offset 0 + s)) rows
  = py_slice s e (window limit offset rows).
Proof.
  intros Hlim Ho Hs.
  assert (Hoff : QuerySet.or_else offset 0 = default 0 offset).
  { destruct offset as [z|]; [|done]. cbn. destruct (Z.eqb_spec z 0); by subst. }
  rewrite Hoff. remember (default 0 offset) as off eqn:Eoff.
  assert (Hw : window limit offset rows = drop (Z.to_nat off) rows).
  { unfold window. rewrite <- Eoff. destruct limit as [l|]; [|done].
    specialize (Hlim l eq_refl). by destruct (Z.ltb_spec l 0); [|lia]. }
  rewrite Hw. unfold window, py_slice. cbn [default].
  destruct (Z.ltb_spec (e - s) 0); [lia|].
  rewrite drop_drop. f_equal. f_equal. unfold id. lia.
Qed.

(** C4, as the code has it.  A slice adds its start to the offset the
    query set already has ([None] counting as 0) and sets the limit to
    [stop - start], or to -1 when there is no stop, whatever limit the query
    set had before; a stop below the start and a step other than 1 or
    [None] raise [ValueError], and the receiver is left as it was.  When the
    receiver has no limit, the rows the result selects are the slice of the
    rows the receiver selects. *)
Theorem getitem_slice `{Storage} (env : classes) (w : world) (self : loc)
    (q : QS.t) (v : view) (start stop step : option Z) :
  has_view (heap w) self q v →
  let s := QuerySet.or_else start 0 in
  let o := QuerySet.or_else (Clauses.offset (v_clauses v)) 0 in
  let run := QuerySet.__getitem__ env self (QuerySet.slice start stop step) w in
  has_view (heap run.1) self q v
  ∧ (step ≠ None → step ≠ Some 1 → run.2 = Raise ValueError)
  ∧ (step = None ∨ step = Some 1 →
     match stop with
     | Some e =>
         if e <? s then run.2 = Raise ValueError
         else ∃ n q', run.2 = Ok (QuerySet.a_queryset n)
                      ∧ has_view (heap run.1) n q'
                          (with_window v (Some (e - s)) (Some (o + s)))
     | None =>
         ∃ n q', run.2 = Ok (QuerySet.a_queryset n)
                 ∧ has_view (heap run.1) n q'
                     (with_window v (Some (-1)) (Some (o + s)))
     end)
  ∧ (∀ (A : Type) (rows : list A) (e : Z),
       (∀ l, Clauses.limit (v_clauses v) = Some l → l < 0) →
       0 <= default 0 (Clauses.offset (v_clauses v)) → 0 <= s <= e →
       window (Some (e - s)) (Some (o + s)) rows
       = py_slice s e
           (window (Clauses.limit (v_clauses v)) (Clauses.offset (v_clauses v)) rows)).
Proof.
  intros Hview s o run.
  destruct (init_copy_spec env w self q v Hview)
    as (w1 & n & q1 & Hinit & Hsub & _ & _ & Hview1 & Hown & _).
  destruct (slice_item_spec w1 n q1 v start stop step Hview1)
    as (w2 & Hrun & Hframe & _ & _ & Hview2).
  assert (Hrun' : run = (w2, if negb (bool_decide (step = Some 1))
                                && negb (bool_decide (step = None))
                             then Raise ValueError
                             else match stop with
                                  | Some e => if e <? s then Raise ValueError
                                              else Ok (QuerySet.a_queryset n)
                                  | None => Ok (QuerySet.a_queryset n)
                                  end)).
  { unfold run, QuerySet.__getitem__. by erewrite bind_Ok by exact Hinit. }
  rewrite Hrun'. cbn [fst snd]. split; [|split; [|split]].
  - eapply has_view_mono; [|exact Hview].
    eapply frame_subseteq; [exact Hsub | | exact Hframe]. apply Hown.
  - intros Hs1 Hs2.
    by rewrite bool_decide_eq_false_2, bool_decide_eq_false_2 by done.
  - intros Hstep.
    assert (negb (bool_decide (step = Some 1)) && negb (bool_decide (step = None))
            = false) as Hb.
    { destruct Hstep as [-> | ->]; [done|].
      by rewrite bool_decide_eq_true_2. }
    rewrite Hb in Hview2 |- *. fold o s in Hview2.
    destruct stop as [e|].
    + destruct (e <? s); [done|]. exists n, q1. split; [done|]. by apply Hview2.
    + exists n, q1. split; [done|]. by apply Hview2.
  - intros A rows e Hlim Ho Hs. by apply window_slice.
Qed.

Lemma getitem_slice_witness :
  let q := {| QS.cls := "Member"; QS.clauses := 2%positive;
              QS.select_fields := 3%positive; QS.joins := 4%positive;
              QS.convfunc := conv_first; QS.wrappers := 5%positive;
              QS.factory := factory_to_objects; QS.subquery_serial := 1;
              QS.cur := None; QS._index := -1; QS._cache := [] |} in
  let c := {| Clauses.type := "SELECT"; Clauses.where_ := [];
              Clauses.order_by := []; Clauses.values := [];
              Clauses.distinct := false; Clauses.limit := Some (-1);
              Clauses.offset := Some 1 |} in
  let v := {| v_clauses := c; v_fields := [(dq "member" +:+ ".*", Some "Member")];
              v_joins := ∅; v_wrappers := [] |} in
  let w := Example.world_of
             (list_to_map
                [(1%positive, CQuerySet q); (2%positive, CClauses c);
                 (3%positive, CFields (v_fields v)); (4%positive, CJoins ∅);
                 (5%positive, CWrappers [])]) [] in
  let run := QuerySet.__getitem__ Example.env 1%positive
               (QuerySet.slice (Some 2) (Some 5) None) w in
  has_view (heap w) 1%positive q v
  ∧ ∃ n q', run.2 = Ok (QuerySet.a_queryset n)
            ∧ has_view (heap run.1) n q' (with_window v (Some 3) (Some 3)).
Proof.
  cbv zeta.
  match goal with |- ?P ∧ _ => assert P as Hview end.
  { repeat split. eexists. split; [reflexivity|].
    intros k. cbn [v_joins]. rewrite !lookup_empty. constructor. }
  split; [exact Hview|].
  exact (proj1 (proj2 (proj2 (getitem_slice Example.env _ _ _ _
                                (Some 2) (Some 5) None Hview)))
               (or_introl eq_refl)).
Defined.

(** The query [Member.all().offset(1)[2:5]] compiles to offset 3, limit 3. *)
Example slice_after_offset :
  snd ((qs ← QuerySet.__init__ Example.env (inr "Member");
   q1 ← QuerySet.offset Example.env qs 1;
   r ← QuerySet.__getitem__ Example.env q1 (QuerySet.slice (Some 2) (Some 5) None);
   match r with
   | QuerySet.a_queryset n => QuerySet.sql Example.env n
   | QuerySet.an_object _ => raise TypeError
   end) (Example.world0 []))
  = Ok ("SELECT " +:+ dq "member" +:+ ".* FROM " +:+ dq "member" +:+ QuerySet.newline
        +:+ "LIMIT 3" +:+ QuerySet.newline +:+ "OFFSET 3").
Proof. vm_compute. reflexivity. Qed.

(** C4 as stated fails: the limit of a slice does not compose with a limit
    the query set already has.  [Member.all().limit(2)] selects the first
    two rows, so its slice [0:5] should select at most those two; the code
    gives the result limit 5 and offset 0, which selects five rows. *)
Lemma slice_replaces_limit :
  let run := (qs ← QuerySet.__init__ Example.env (inr "Member");
              q2 ← QuerySet.limit Example.env qs 2;
              QuerySet.__getitem__ Example.env q2
                (QuerySet.slice (Some 0) (Some 5) None)) (Example.world0 []) in
  ∃ n c, run.2 = Ok (QuerySet.a_queryset n)
         ∧ clauses_of (heap run.1) n = Some c
         ∧ Clauses.limit c = Some 5 ∧ Clauses.offset c = Some 0
         ∧ window (Clauses.limit c) (Clauses.offset c) [1; 2; 3; 4; 5; 6]
           ≠ py_slice 0 5 (window (Some 2) None [1; 2; 3; 4; 5; 6]).
Proof.
  cbv zeta. eexists _, _.
  split; [vm_compute; reflexivity|]. split; [vm_compute; reflexivity|].
  split; [reflexivity|]. split; [reflexivity|]. vm_compute. discriminate.
Qed.

(** ** Resolving a path *)

Section ParseFacts.
Context `{Storage}.

Lemma set_join_spec (w : world) (n : loc) (q : QS.t) (v : view)
    (asname : string) (js : list string) :
  has_view (heap w) n q v →
  ∃ w', QuerySet.set_join n asname js w = (w', Ok tt)
        ∧ has_view (heap w') n q (with_joins v (<[asname := js]> (v_joins v)))
        ∧ (∀ h0, h0 ⊆ heap w → h0 !! QS.joins q = None → h0 ⊆ heap w')
        ∧ db w' = db w ∧ executed w' = executed w.
Proof.
  intros (Hq & Hc & Hf & Hw & j & Hj & Hrel). unfold QuerySet.set_join.
  destruct (alloc_spec (CStrs js) w) as (l & Ea & Hl).
  erewrite bind_Ok by exact Ea. clear Ea.
  set (w1 := set_heap _ w).
  assert (Hsub1 : heap w ⊆ heap w1) by (by apply insert_subseteq).
  erewrite bind_Ok by (apply load_qs_Some; by eapply lookup_weaken).
  erewrite bind_Ok by (apply load_joins_Some; by eapply lookup_weaken).
  rewrite store_spec. eexists. split; [done|].
  assert (Hne : ∀ l' c, heap w !! l' = Some c → l ≠ l') by (intros; congruence).
  assert (Hnj : ∀ l' c, heap w !! l' = Some c →
                  (∀ j', c ≠ CJoins j') → QS.joins q ≠ l').
  { intros l' c Hl' Hc' <-. rewrite Hj in Hl'. naive_solver. }
  cbn [heap set_heap w1].
  split; [|split; [|done]].
  - repeat split; cbn [with_joins v_clauses v_fields v_joins v_wrappers].
    + rewrite !lookup_insert_ne by (first [by eapply Hne | by eapply Hnj]); done.
    + rewrite !lookup_insert_ne by (first [by eapply Hne | by eapply Hnj]); done.
    + rewrite !lookup_insert_ne by (first [by eapply Hne | by eapply Hnj]); done.
    + rewrite !lookup_insert_ne by (first [by eapply Hne | by eapply Hnj]); done.
    + eexists. split; [apply lookup_insert_eq|].
      intros k. destruct (decide (k = asname)) as [-> | Hk].
      * rewrite !lookup_insert_eq. constructor.
        rewrite lookup_insert_ne by (by intros <-; rewrite Hj in Hl).
        apply lookup_insert_eq.
      * rewrite !lookup_insert_ne by done.
        specialize (Hrel k). destruct Hrel as [l' s Hl'|]; constructor.
        rewrite !lookup_insert_ne by (first [by eapply Hne | by eapply Hnj]); done.
  - intros h0 Hsub Hnone.
    apply insert_subseteq_r; [done|].
    apply insert_subseteq_r; [|done].
    by eapply lookup_weaken_None.
Qed.

(** The loop of the parser writes the entries of the path into the join
    dictionary, in order, and returns what the path resolves to. *)
Lemma parse_items_spec (env : classes) (items : list string) :
  ∀ (w : world) (n : loc) (q : QS.t) (v : view) (curmdl curname : string)
    (fld : option attr),
  has_view (heap w) n q v →
  ∃ w', QuerySet.parse_items env n curmdl curname fld items w
        = (w', (path_entries env curmdl curname fld items).2)
        ∧ has_view (heap w') n q
            (with_joins v (write_entries
                             (path_entries env curmdl curname fld items).1
                             (v_joins v)))
        ∧ (∀ h0, h0 ⊆ heap w → h0 !! QS.joins q = None → h0 ⊆ heap w')
        ∧ db w' = db w ∧ executed w' = executed w.
Proof.
  induction items as [|item items IH]; intros w n q v curmdl curname fld Hview.
  { exists w. split; [done|]. split; [by destruct v|]. by repeat split. }
  cbn [QuerySet.parse_items path_entries].
  destruct (env !! curmdl) as [c|] eqn:Hc.
  2:{ exists w. split; [done|]. split; [by destruct v|]. by repeat split. }
  erewrite bind_Ok by done.
  destruct (__dict__ c !! item) as [a|] eqn:Ha.
  2:{ exists w. split; [done|]. split; [by destruct v|]. by repeat split. }
  erewrite bind_Ok by done.
  destruct (sql_joins env a) as [fld_sql_joins|] eqn:Hsj.
  2:{ exists w. destruct (is_Field a);
        (split; [done|]; split; [by destruct v|]; by repeat split). }
  destruct (model a) as [fld_model|] eqn:Hmodel.
  2:{ exists w. destruct (is_Field a);
        (split; [done|]; split; [by destruct v|]; by repeat split). }
  destruct (fld_sql_joins (curname +:+ "." +:+ item) curname) as [js|e] eqn:Hjs.
  2:{ exists w. split; [done|]. split; [by destruct v|]. by repeat split. }
  erewrite bind_Ok by done.
  destruct (set_join_spec w n q v (curname +:+ "." +:+ item) js Hview)
    as (w1 & Hset & Hview1 & Hframe1 & Hdb1 & Hex1).
  erewrite bind_Ok by exact Hset.
  destruct (IH w1 n q _ fld_model (curname +:+ "." +:+ item) (Some a) Hview1)
    as (w2 & Hrun & Hview2 & Hframe2 & Hdb2 & Hex2).
  destruct (path_entries env fld_model (curname +:+ "." +:+ item) (Some a) items)
    as [es r] eqn:Hes.
  exists w2. cbn [fst snd] in *. split; [done|].
  split; [exact Hview2|]. split; [|split; congruence].
  intros h0 Hsub Hnone. apply Hframe2; [|done]. by apply Hframe1.
Qed.

End ParseFacts.

Lemma lookup_write_entries (es : list (string * list string))
    (vj : gmap string (list string)) (k : string) :
  write_entries es vj !! k = from_option Some (vj !! k) (last_binding k es).
Proof.
  revert vj. induction es as [|[k' x] es IH]; intros vj; [done|].
  cbn [write_entries foldl last_binding]. fold (write_entries es (<[k':=x]> vj)).
  rewrite IH. destruct (last_binding k es); [done|].
  cbn. destruct (decide (k = k')) as [-> | Hk].
  - by rewrite lookup_insert_eq.
  - by rewrite lookup_insert_ne.
Qed.

(** Writing the same entries again changes nothing. *)
Lemma write_entries_idem (es : list (string * list string))
    (vj : gmap string (list string)) :
  write_entries es (write_entries es vj) = write_entries es vj.
Proof.
  apply map_eq. intros k. rewrite !lookup_write_entries.
  by destruct (last_binding k es).
Qed.

Lemma last_binding_elem_of (es : list (string * list string)) (k : string) :
  k ∈ es.*1 → is_Some (last_binding k es).
Proof.
  induction es as [|[k' x] es IH]; cbn; [by intros ?%elem_of_nil|].
  intros [-> | Hk]%elem_of_cons.
  - destruct (last_binding k' es); [done|]. by rewrite decide_True.
  - destruct (IH Hk) as [y ->]. done.
Qed.

(** The aliases a path writes are its cumulative aliases, as far as the
    resolution gets. *)
Lemma path_entries_keys (env : classes) (items : list string) :
  ∀ curmdl curname fld,
    (path_entries env curmdl curname fld items).1.*1
      `prefix_of` cumulative curname items.
Proof.
  induction items as [|item items IH]; intros curmdl curname fld; [done|].
  cbn [path_entries cumulative].
  repeat case_match; cbn; try apply prefix_nil.
  apply prefix_cons.
  match goal with H : path_entries _ ?m ?n ?f _ = _ |- _ =>
    specialize (IH m n f); by rewrite H in IH end.
Qed.

Lemma filter_eq_absent (l : list string) (x : string) :
  x ∉ l → filter (fun k => k = x) l = [].
Proof.
  induction l as [|k l IH]; [done|]. intros [Hk Hl]%not_elem_of_cons.
  rewrite filter_cons, decide_False by done. by apply IH.
Qed.

Lemma filter_eq_once (l : list string) (x : string) :
  NoDup l → x ∈ l → length (filter (fun k => k = x) l) = 1%nat.
Proof.
  induction l as [|k l IH]; [by intros _ ?%elem_of_nil|].
  intros [Hk Hnd]%NoDup_cons Hin. rewrite filter_cons.
  destruct (decide (k = x)) as [-> | Hne].
  - by rewrite filter_eq_absent.
  - apply elem_of_cons in Hin as [-> | Hin]; [done|]. by apply IH.
Qed.

Section ResolveFacts.
Context `{Storage}.

Lemma parse_field_name_spec (env : classes) (w : world) (n : loc) (q : QS.t)
    (v : view) (name : string) :
  has_view (heap w) n q v →
  ∃ w', QuerySet._parse_field_name env n name w
        = (w', (resolve env (QS.cls q) name).2)
        ∧ has_view (heap w') n q
            (with_joins v (write_entries (resolve env (QS.cls q) name).1
                             (v_joins v)))
        ∧ (∀ h0, h0 ⊆ heap w → h0 !! QS.joins q = None → h0 ⊆ heap w')
        ∧ db w' = db w ∧ executed w' = executed w.
Proof.
  intros Hview. pose proof Hview as (Hq & _).
  unfold QuerySet._parse_field_name, resolve.
  erewrite bind_Ok by (by apply load_qs_Some).
  destruct (meta_of env (QS.cls q)) as [m|e].
  2:{ exists w. split; [done|]. split; [by destruct v|]. by repeat split. }
  erewrite bind_Ok by done.
  destruct (parse_items_spec env (Py.split "__" name) w n q v (QS.cls q)
              (TableMetaInfo.table_name m) None Hview)
    as (w1 & Hrun & Hview1 & Hframe & Hdb & Hex).
  destruct (path_entries env (QS.cls q) (TableMetaInfo.table_name m) None
              (Py.split "__" name)) as [es r].
  cbn [fst snd] in *. exists w1.
  split; [|split; [exact Hview1|split; [exact Hframe|split; [exact Hdb|exact Hex]]]].
  destruct r as [[[curname fld] items]|e].
  - erewrite bind_Ok by exact Hrun. cbn [mbind Py.result_bind].
    destruct (2 <=? length items)%nat; [done|].
    by destruct fld.
  - by erewrite bind_Raise by exact Hrun.
Qed.

(** C1.  Resolving a path writes one entry per relationship traversed into
    the join map, under the cumulative alias; resolving the same path again
    leaves the join map, and with it the compiled SQL, as they were after
    the first time, and returns the same result.  Each alias of the map is
    written once in the SQL. *)
Theorem path_resolved_once (env : classes) (w : world) (n : loc) (q : QS.t)
    (v : view) (name : string) :
  has_view (heap w) n q v →
  let once := QuerySet._parse_field_name env n name w in
  let twice := QuerySet._parse_field_name env n name once.1 in
  let es := (resolve env (QS.cls q) name).1 in
  let v1 := with_joins v (write_entries es (v_joins v)) in
  has_view (heap once.1) n q v1
  ∧ has_view (heap twice.1) n q v1
  ∧ twice.2 = once.2
  ∧ (QuerySet.sql env n twice.1).2 = (QuerySet.sql env n once.1).2
  ∧ (∀ alias, alias ∈ es.*1 →
       v_joins v1 !! alias = last_binding alias es
       ∧ is_Some (v_joins v1 !! alias)
       ∧ length (filter (fun k => k = alias)
                   (QuerySet.join_order (fst <$> map_to_list (v_joins v1)))) = 1%nat)
  ∧ (∀ m, meta_of env (QS.cls q) = Ok m →
       es.*1 `prefix_of`
         cumulative (TableMetaInfo.table_name m) (Py.split "__" name)).
Proof.
  intros Hview once twice es v1.
  destruct (parse_field_name_spec env w n q v name Hview)
    as (w1 & Hrun1 & Hview1 & _).
  destruct (parse_field_name_spec env w1 n q _ name Hview1)
    as (w2 & Hrun2 & Hview2 & _).
  cbn [with_joins v_joins] in Hview2. rewrite write_entries_idem in Hview2.
  assert (Hv2 : has_view (heap w2) n q v1) by (by destruct v).
  subst once twice. rewrite Hrun1. cbn [fst snd]. rewrite Hrun2. cbn [fst snd].
  split; [done|]. split; [done|]. split; [done|].
  split; [by rewrite (sql_has_view _ _ _ _ _ Hview1), (sql_has_view _ _ _ _ _ Hv2)|].
  split.
  - intros alias Halias. cbn [v1 with_joins v_joins].
    rewrite lookup_write_entries.
    destruct (last_binding_elem_of es alias Halias) as [js Hjs].
    rewrite Hjs. cbn. split; [done|]. split; [done|].
    destruct (join_order_sorted (fst <$> map_to_list (write_entries es (v_joins v))))
      as [Hperm _].
    rewrite Hperm.
    assert (Hin : alias ∈ (map_to_list (write_entries es (v_joins v))).*1).
    { apply list_elem_of_fmap. exists (alias, js). split; [done|].
      apply elem_of_map_to_list. by rewrite lookup_write_entries, Hjs. }
    apply filter_eq_once; [apply NoDup_fst_map_to_list | done].
  - intros m Hm. subst es. unfold resolve. rewrite Hm.
    pose proof (path_entries_keys env (Py.split "__" name) (QS.cls q)
                  (TableMetaInfo.table_name m) None) as Hkeys.
    by destruct (path_entries _ _ _ _ _).
Qed.

End ResolveFacts.

Lemma member_has_view :
  has_view Example.member_heap 1%positive Example.member_qs Example.member_view.
Proof.
  repeat split. eexists. split; [reflexivity|].
  intros k. cbn [v_joins Example.member_view]. rewrite !lookup_empty. constructor.
Qed.

Lemma path_resolved_once_witness :
  let w := Example.world_of Example.member_heap [] in
  let once := QuerySet._parse_field_name Example.env 1%positive "team__name" w in
  let twice := QuerySet._parse_field_name Example.env 1%positive "team__name" once.1 in
  has_view (heap w) 1%positive Example.member_qs Example.member_view
  ∧ twice.2 = once.2
  ∧ (QuerySet.sql Example.env 1%positive twice.1).2
    = (QuerySet.sql Example.env 1%positive once.1).2.
Proof.
  cbv zeta. split; [exact member_has_view|].
  pose proof (path_resolved_once Example.env
                (Example.world_of Example.member_heap []) 1%positive
                Example.member_qs Example.member_view "team__name"
                member_has_view) as (_ & _ & Hres & Hsql & _).
  split; [exact Hres | exact Hsql].
Defined.

(** Two conditions through the relationship [team] give one JOIN clause. *)
Example same_path_twice_one_join :
  snd ((qs ← QuerySet.__init__ Example.env (inr "Member");
        q1 ← QuerySet.select Example.env qs []
               {[ "team__name" := VStr "HTT"; "team__id" := VInt 1 ]};
        QuerySet.sql Example.env q1) (Example.world0 []))
  = Ok ("SELECT " +:+ dq "member" +:+ ".* FROM " +:+ dq "member" +:+ QuerySet.newline
        +:+ "INNER JOIN " +:+ dq "team" +:+ " AS " +:+ dq "member.team" +:+ " ON "
        +:+ dq "member" +:+ "." +:+ dq "team_id" +:+ " = " +:+ dq "member.team"
        +:+ "." +:+ dq "id" +:+ QuerySet.newline
        +:+ "WHERE (((" +:+ dq "member.team" +:+ "." +:+ dq "id" +:+ " = ? AND "
        +:+ dq "member.team" +:+ "." +:+ dq "name" +:+ " = ?)))").
Proof. vm_compute. reflexivity. Qed.

(** ** Chained calls leave the receiver alone *)

Section Frame.
Context `{Storage}.
Variable env : classes.
Variable h0 : gmap loc cell.
Variable n : loc.
Variable q : QS.t.

Lemma keeps_ret {A} (a : A) : keeps h0 n q (mret a).
Proof. by intros w0 w Hinv. Qed.

Lemma keeps_raise {A} (e : exn) : keeps h0 n q (raise (A := A) e).
Proof. by intros w0 w Hinv. Qed.

Lemma keeps_lift {A} (r : result A) : keeps h0 n q (lift r).
Proof. by intros w0 w Hinv. Qed.

Lemma keeps_bind {A B} (m : M A) (f : A → M B) :
  keeps h0 n q m → (∀ a, keeps h0 n q (f a)) → keeps h0 n q (m ≫= f).
Proof.
  intros Hm Hf w0 w Hinv. specialize (Hm w0 w Hinv).
  unfold mbind, M_bind. destruct (m w) as [w1 [a|e]]; cbn [fst] in *; [|done].
  by apply Hf.
Qed.

Lemma keeps_for_each {A} (f : A → M unit) (l : list A) :
  (∀ x, keeps h0 n q (f x)) → keeps h0 n q (for_each f l).
Proof.
  intros Hf. induction l as [|x l IH]; cbn [for_each]; [apply keeps_ret|].
  apply keeps_bind; [apply Hf | by intros _].
Qed.

Lemma keeps_set_clauses (f : Clauses.t → Clauses.t) :
  keeps h0 n q (QuerySet.set_clauses n f).
Proof.
  intros w0 w (Hsub & Hdb & Hex & Hown & v & Hview).
  destruct (set_clauses_spec w n q v f Hview) as [Hrun Hview'].
  rewrite Hrun. cbn [fst]. split; [|split; [done|split; [done|split; [done|]]]].
  - cbn [heap set_heap]. apply insert_subseteq_r; [|done]. apply Hown.
  - eexists. exact Hview'.
Qed.

Lemma keeps_parse_field_name (name : string) :
  keeps h0 n q (QuerySet._parse_field_name env n name).
Proof.
  intros w0 w (Hsub & Hdb & Hex & Hown & v & Hview).
  destruct (parse_field_name_spec env w n q v name Hview)
    as (w' & Hrun & Hview' & Hframe & Hdb' & Hex').
  rewrite Hrun. cbn [fst]. split; [|split; [congruence|split; [congruence|split; [done|]]]].
  - apply Hframe; [done|]. apply Hown.
  - eexists. exact Hview'.
Qed.

Lemma keeps_Q_items (items : list (string * value)) :
  ∀ whrs prms, keeps h0 n q (QuerySet.Q_items env n items whrs prms).
Proof.
  induction items as [|[key val] items IH]; intros whrs prms;
    cbn [QuerySet.Q_items]; [apply keeps_ret|].
  apply keeps_bind.
  { destruct val; try apply keeps_ret.
    apply keeps_bind; [apply keeps_lift|]. intros k.
    apply keeps_bind; [apply keeps_lift|]. intros o.
    apply keeps_bind; [apply keeps_lift|]. intros v. apply keeps_ret. }
  intros [key' val']. apply keeps_bind; [apply keeps_parse_field_name|].
  intros [[curname fld] op]. apply keeps_bind; [apply keeps_lift|].
  intros [whr prm]. apply IH.
Qed.

Lemma keeps_to_sql : ∀ c : value, keeps h0 n q (QuerySet.to_sql env c n).
Proof.
  fix IH 1. intros c. destruct c; cbn [QuerySet.to_sql]; try apply keeps_raise.
  - apply keeps_bind; [apply keeps_Q_items|]. intros [whrs prms]. apply keeps_ret.
  - apply keeps_bind; [|intros [whrs prms]; apply keeps_ret].
    match goal with |- keeps _ _ _ (?each l [] []) =>
      enough (∀ whrs prms, keeps h0 n q (each l whrs prms)) by done end.
    induction l as [|c l IHl]; intros whrs prms; [apply keeps_ret|].
    apply keeps_bind; [apply IH|]. intros [whr prm]. apply IHl.
  - apply keeps_ret.
Qed.

Lemma returns_only_ret {A} (a : A) : returns_only (mret a) a.
Proof. intros w a' Ha. cbn in Ha. congruence. Qed.

Lemma returns_only_bind {A B} (m : M A) (f : A → M B) (b : B) :
  (∀ a, returns_only (f a) b) → returns_only (m ≫= f) b.
Proof.
  intros Hf w b'. unfold mbind, M_bind.
  destruct (m w) as [w1 [a|e]]; cbn [snd]; [apply Hf | done].
Qed.

End Frame.

Section Calls.
Context `{Storage}.
Variable env : classes.

(** Appending to the projected fields changes the field cell only. *)
Lemma keeps_append_field (h0 : gmap loc cell) (n : loc) (q : QS.t)
    (info : string * option string) :
  keeps h0 n q (sf ← load_fields (QS.select_fields q);
                store (QS.select_fields q) (CFields (sf ++ [info]))).
Proof.
  intros w0 w (Hsub & Hdb & Hex & Hown & v & Hview).
  pose proof Hview as (Hq & Hc & Hf & Hw & j & Hj & Hrel).
  erewrite bind_Ok by (by apply load_fields_Some).
  rewrite store_spec. cbn [fst heap set_heap db executed].
  assert (Hne : ∀ l c, heap w !! l = Some c → (∀ x, c ≠ CFields x) →
                 QS.select_fields q ≠ l).
  { intros l c Hl Hc' <-. rewrite Hf in Hl. naive_solver. }
  split; [|split; [done|split; [done|split; [done|]]]].
  - cbn [heap set_heap]. apply insert_subseteq_r; [|done]. apply Hown.
  - exists {| v_clauses := v_clauses v; v_fields := v_fields v ++ [info];
              v_joins := v_joins v; v_wrappers := v_wrappers v |}.
    repeat split; cbn [v_clauses v_fields v_joins v_wrappers heap set_heap].
    + rewrite lookup_insert_ne by (by eapply Hne). done.
    + rewrite lookup_insert_ne by (by eapply Hne). done.
    + apply lookup_insert_eq.
    + rewrite lookup_insert_ne by (by eapply Hne). done.
    + exists j. split; [rewrite lookup_insert_ne by (by eapply Hne); done|].
      intros k. specialize (Hrel k). destruct Hrel as [l s Hl|]; constructor.
      rewrite lookup_insert_ne by (by eapply Hne). done.
Qed.

(** What follows the copy in a chained method works on the copy only. *)
Lemma after_init (w : world) (self : loc) (q : QS.t) (v : view)
    (rest : loc → M loc) :
  has_view (heap w) self q v →
  (∀ n q' w1, made_after (heap w) n q' w w1 →
     ∃ q'', made_after (heap w) n q'' w (rest n w1).1) →
  (∀ n, returns_only (rest n) n) →
  let run := (QuerySet.__init__ env (inl self) ≫= rest) w in
  heap w ⊆ heap run.1 ∧ db run.1 = db w ∧ executed run.1 = executed w
  ∧ ∀ n, run.2 = Ok n →
      heap w !! n = None ∧ ∃ q' v', has_view (heap run.1) n q' v'.
Proof.
  intros Hview Hkeeps Hret run.
  destruct (init_copy_spec env w self q v Hview)
    as (w1 & n & q1 & Hinit & Hsub & Hdb & Hex & Hview1 & Hown & _).
  assert (Hrun : run = rest n w1).
  { unfold run. by erewrite bind_Ok by exact Hinit. }
  destruct (Hkeeps n q1 w1) as (q2 & Hsub2 & Hdb2 & Hex2 & Hown2 & v2 & Hview2).
  { split; [done|]. split; [done|]. split; [done|]. split; [done|]. by exists v. }
  rewrite Hrun. split; [done|]. split; [done|]. split; [done|].
  intros n' Hn'. apply Hret in Hn' as ->.
  split; [apply Hown2|]. by exists q2, v2.
Qed.

Lemma keeps_exists (h0 : gmap loc cell) (n : loc) (rest : M loc) :
  (∀ q, keeps h0 n q rest) →
  ∀ w0 q' w1, made_after h0 n q' w0 w1 → ∃ q'', made_after h0 n q'' w0 (rest w1).1.
Proof. intros Hk w0 q' w1 Hinv. exists q'. by apply Hk. Qed.

Lemma select_frame (w : world) (self : loc) (q : QS.t) (v : view)
    (args : list value) (kw : gmap string value) :
  has_view (heap w) self q v →
  let run := QuerySet.select env self args kw w in
  heap w ⊆ heap run.1 ∧ db run.1 = db w ∧ executed run.1 = executed w
  ∧ ∀ n, run.2 = Ok n →
      heap w !! n = None ∧ ∃ q' v', has_view (heap run.1) n q' v'.
Proof.
  intros Hview. unfold QuerySet.select. apply (after_init w self q v); [done| |].
  - intros n. apply keeps_exists. intros q'.
    apply keeps_bind.
    { destruct args as [|[] rest]; try apply keeps_ret.
      destruct (_ <? _)%nat; [apply keeps_raise | apply keeps_ret]. }
    intros args'. apply keeps_bind; [|intros _; apply keeps_ret].
    destruct (_ && _); [apply keeps_ret|].
    apply keeps_bind; [apply keeps_to_sql|]. intros [whr prms].
    apply keeps_set_clauses.
  - intros n. apply returns_only_bind. intros args'.
    apply returns_only_bind. intros _. apply returns_only_ret.
Qed.

Lemma order_by_frame (w : world) (self : loc) (q : QS.t) (v : view)
    (names : list string) :
  has_view (heap w) self q v →
  let run := QuerySet.order_by env self names w in
  heap w ⊆ heap run.1 ∧ db run.1 = db w ∧ executed run.1 = executed w
  ∧ ∀ n, run.2 = Ok n →
      heap w !! n = None ∧ ∃ q' v', has_view (heap run.1) n q' v'.
Proof.
  intros Hview. unfold QuerySet.order_by. apply (after_init w self q v); [done| |].
  - intros n. apply keeps_exists. intros q'.
    apply keeps_bind; [|intros _; apply keeps_ret].
    apply keeps_for_each. intros name.
    destruct (Py.startswith "-" name).
    + apply keeps_bind; [apply keeps_parse_field_name|].
      intros [[curname fld] [op|]]; [apply keeps_raise|].
      apply keeps_bind; [apply keeps_lift|]. intros fname. apply keeps_set_clauses.
    + apply keeps_bind; [apply keeps_parse_field_name|].
      intros [[curname fld] [op|]]; [apply keeps_raise|].
      apply keeps_bind; [apply keeps_lift|]. intros fname. apply keeps_set_clauses.
  - intros n. apply returns_only_bind. intros _. apply returns_only_ret.
Qed.

Lemma join_frame (w : world) (self : loc) (q : QS.t) (v : view)
    (names : list string) :
  has_view (heap w) self q v →
  let run := QuerySet.join env self names w in
  heap w ⊆ heap run.1 ∧ db run.1 = db w ∧ executed run.1 = executed w
  ∧ ∀ n, run.2 = Ok n →
      heap w !! n = None ∧ ∃ q' v', has_view (heap run.1) n q' v'.
Proof.
  intros Hview. unfold QuerySet.join. apply (after_init w self q v); [done| |].
  - intros n. apply keeps_exists. intros q'.
    apply keeps_bind; [|intros _; apply keeps_ret].
    apply keeps_for_each. intros name.
    apply keeps_bind; [apply keeps_parse_field_name|]. intros _. apply keeps_ret.
  - intros n. apply returns_only_bind. intros _. apply returns_only_ret.
Qed.

(** [limit], [offset] and [distinct] only update the clauses of the copy,
    and always return it. *)
Lemma set_clauses_frame (w : world) (self : loc) (q : QS.t) (v : view)
    (f : Clauses.t → Clauses.t) :
  has_view (heap w) self q v →
  let run := (newset ← QuerySet.__init__ env (inl self);
              QuerySet.set_clauses newset f;; mret newset) w in
  heap w ⊆ heap run.1 ∧ db run.1 = db w ∧ executed run.1 = executed w
  ∧ ∀ n, run.2 = Ok n →
      heap w !! n = None ∧ ∃ q' v', has_view (heap run.1) n q' v'.
Proof.
  intros Hview.
  apply (after_init w self q v
           (fun newset => QuerySet.set_clauses newset f;; mret newset) Hview).
  - intros n. apply keeps_exists. intros q'.
    apply keeps_bind; [apply keeps_set_clauses | intros _; apply keeps_ret].
  - intros n. apply returns_only_bind. intros _. apply returns_only_ret.
Qed.

Lemma set_clauses_returns (w : world) (self : loc) (q : QS.t) (v : view)
    (f : Clauses.t → Clauses.t) :
  has_view (heap w) self q v →
  let run := (newset ← QuerySet.__init__ env (inl self);
              QuerySet.set_clauses newset f;; mret newset) w in
  ∃ n q', run.2 = Ok n
          ∧ has_view (heap run.1) n q'
              {| v_clauses := f (v_clauses v); v_fields := v_fields v;
                 v_joins := v_joins v; v_wrappers := v_wrappers v |}
          ∧ QS.cls q' = QS.cls q.
Proof.
  intros Hview run.
  destruct (init_copy_spec env w self q v Hview)
    as (w1 & n & q1 & Hinit & _ & _ & _ & Hview1 & _ & Hcls & _).
  destruct (set_clauses_spec w1 n q1 v f Hview1) as [Hset Hview2].
  exists n, q1. unfold run.
  erewrite bind_Ok by exact Hinit. erewrite bind_Ok by exact Hset.
  split; [done|]. split; [exact Hview2 | exact Hcls].
Qed.

Lemma fields_frame (w : world) (self : loc) (q : QS.t) (v : view)
    (names : list QuerySet.field_spec) (conv : option convfunc_t) :
  has_view (heap w) self q v →
  let run := QuerySet.fields env self names conv w in
  heap w ⊆ heap run.1 ∧ db run.1 = db w ∧ executed run.1 = executed w
  ∧ ∀ n, run.2 = Ok n →
      heap w !! n = None ∧ ∃ q' v', has_view (heap run.1) n q' v'.
Proof.
  intros Hview. unfold QuerySet.fields. apply (after_init w self q v); [done| |].
  - intros n q1 w1 (Hsub & Hdb & Hex & Hown & v1 & Hview1).
    pose proof Hview1 as (Hq & Hc & Hf & Hw & j & Hj & Hrel).
    destruct (alloc_spec (CFields []) w1) as (lsf & Ea & Hlsf).
    erewrite bind_Ok by exact Ea. clear Ea.
    assert (Hne : ∀ l c, heap w1 !! l = Some c → lsf ≠ l) by (intros; congruence).
    assert (Hnn : ∀ l c, heap w1 !! l = Some c → (∀ x, c ≠ CQuerySet x) → n ≠ l).
    { intros l c Hl Hc' <-. rewrite Hq in Hl. naive_solver. }
    erewrite bind_Ok.
    2:{ apply load_qs_Some. cbn [heap set_heap].
        rewrite lookup_insert_ne by (by eapply Hne). exact Hq. }
    match goal with |- context [store n (CQuerySet ?x)] => set (q2 := x) end.
    erewrite bind_Ok by apply store_spec.
    match goal with |- context [(_ ≫= _) ?x] => set (w3 := x) end.
    exists q2.
    assert (Hinv : made_after (heap w) n q2 w w3).
    { split; [|split; [done|split; [done|split]]].
      - cbn [w3 heap set_heap]. apply insert_subseteq_r; [apply Hown|].
        apply insert_subseteq_r; [|done]. by eapply lookup_weaken_None.
      - destruct Hown as (? & ? & ? & ? & ?).
        repeat split; cbn [q2 QS.clauses QS.select_fields QS.joins QS.wrappers];
          try done.
        by eapply lookup_weaken_None.
      - exists {| v_clauses := v_clauses v1; v_fields := [];
                  v_joins := v_joins v1; v_wrappers := v_wrappers v1 |}.
        cbn [w3 heap set_heap].
        repeat split;
          cbn [q2 QS.clauses QS.select_fields QS.joins QS.wrappers
               v_clauses v_fields v_joins v_wrappers].
        + apply lookup_insert_eq.
        + rewrite !lookup_insert_ne by (first [by eapply Hne | by eapply Hnn]). done.
        + rewrite lookup_insert_ne by (by intros ->; rewrite Hq in Hlsf).
          apply lookup_insert_eq.
        + rewrite !lookup_insert_ne by (first [by eapply Hne | by eapply Hnn]). done.
        + exists j. split.
          * rewrite !lookup_insert_ne by (first [by eapply Hne | by eapply Hnn]). done.
          * intros k. specialize (Hrel k). destruct Hrel as [l s Hl|]; constructor.
            rewrite !lookup_insert_ne by (first [by eapply Hne | by eapply Hnn]). done. }
    revert Hinv. generalize w3. clear. intros w3 Hinv.
    assert (Hk : keeps (heap w) n q2
              (for_each (fun name =>
                 info ← match name with
                        | QuerySet.AggregateFunction agg field_name =>
                            fldname ←
                              (if String.eqb field_name "*" then mret "*" else
                                 '(curname, fld, op) ←
                                   QuerySet._parse_field_name env n field_name;
                                 n ← lift (attr_name fld);
                                 mret (dq curname +:+ "." +:+ dq n));
                            mret (agg +:+ "(" +:+ fldname +:+ ")", None)
                        | QuerySet.FieldName name =>
                            '(curname, fld, op) ← QuerySet._parse_field_name env n name;
                            match model fld with
                            | Some m => mret (dq curname +:+ ".*", Some m)
                            | None =>
                                n ← lift (attr_name fld);
                                mret (dq curname +:+ "." +:+ dq n, None)
                            end
                        end;
                 sf ← load_fields (QS.select_fields q2);
                 store (QS.select_fields q2) (CFields (sf ++ [info]))) names
               ;; mret n)).
    { apply keeps_bind; [|intros _; apply keeps_ret].
      apply keeps_for_each. intros name.
      apply keeps_bind; [|intros info; apply keeps_append_field].
      destruct name as [agg field_name|name].
      - apply keeps_bind; [|intros ?; apply keeps_ret].
        destruct (String.eqb _ _); [apply keeps_ret|].
        apply keeps_bind; [apply keeps_parse_field_name|].
        intros [[curname fld] op]. apply keeps_bind; [apply keeps_lift|].
        intros ?. apply keeps_ret.
      - apply keeps_bind; [apply keeps_parse_field_name|].
        intros [[curname fld] op]. destruct (model fld); [apply keeps_ret|].
        apply keeps_bind; [apply keeps_lift|]. intros ?. apply keeps_ret. }
    exact (Hk w w3 Hinv).
  - intros n. apply returns_only_bind. intros lsf.
    apply returns_only_bind. intros q'. apply returns_only_bind. intros _.
    apply returns_only_bind. intros _. apply returns_only_ret.
Qed.

End Calls.

Lemma clauses_of_has_view (h : gmap loc cell) (n : loc) (q : QS.t) (v : view) :
  has_view h n q v → clauses_of h n = Some (v_clauses v).
Proof. intros (Hq & Hc & _). unfold clauses_of. by rewrite Hq, Hc. Qed.

(** C2.  A chained call (select, order_by, limit, offset, join, fields,
    distinct) changes no object of the store it starts from: whether it
    returns or raises, the receiver denotes what it denoted, so it compiles
    to the same SQL with the same clauses and parameters, and nothing is
    sent to the storage engine.  What the call returns is an object that was
    not in the store before, a query set other than the receiver; limit,
    offset and distinct always return. *)
Theorem chained_call_leaves_receiver `{Storage} (env : classes) (w : world)
    (self : loc) (q : QS.t) (v : view) (c : chained_call) :
  has_view (heap w) self q v →
  let run := run_call env self c w in
  heap w ⊆ heap run.1
  ∧ has_view (heap run.1) self q v
  ∧ (QuerySet.sql env self run.1).2 = (QuerySet.sql env self w).2
  ∧ clauses_of (heap run.1) self = clauses_of (heap w) self
  ∧ db run.1 = db w ∧ executed run.1 = executed w
  ∧ (∀ n, run.2 = Ok n →
       n ≠ self ∧ heap w !! n = None
       ∧ ∃ q' v', has_view (heap run.1) n q' v')
  ∧ (∀ k, c = call_limit k ∨ c = call_offset k ∨ c = call_distinct →
       ∃ n, run.2 = Ok n).
Proof.
  intros Hview run.
  assert (Hframe : heap w ⊆ heap run.1 ∧ db run.1 = db w
                   ∧ executed run.1 = executed w
                   ∧ ∀ n, run.2 = Ok n →
                       heap w !! n = None
                       ∧ ∃ q' v', has_view (heap run.1) n q' v').
  { unfold run. destruct c as [args kw|names|k|k|names|names conv|]; cbn [run_call].
    - by apply (select_frame env w self q v).
    - by apply (order_by_frame env w self q v).
    - by apply (set_clauses_frame env w self q v).
    - by apply (set_clauses_frame env w self q v).
    - by apply (join_frame env w self q v).
    - by apply (fields_frame env w self q v).
    - by apply (set_clauses_frame env w self q v). }
  destruct Hframe as (Hsub & Hdb & Hex & Hnew).
  assert (Hview' : has_view (heap run.1) self q v) by (by eapply has_view_mono).
  split; [done|]. split; [done|].
  split; [by rewrite (sql_has_view _ _ _ _ _ Hview), (sql_has_view _ _ _ _ _ Hview')|].
  split; [by rewrite (clauses_of_has_view _ _ _ _ Hview),
                     (clauses_of_has_view _ _ _ _ Hview')|].
  split; [done|]. split; [done|]. split.
  - intros n Hn. destruct (Hnew n Hn) as [Hnone Hq']. split; [|done].
    intros ->. destruct Hview as (Hq & _). congruence.
  - intros k Hc. unfold run.
    destruct Hc as [-> | [-> | ->]]; cbn [run_call].
    + edestruct (set_clauses_returns env w self q v) as (n & q' & Hn & _);
        [exact Hview|].
      exists n. exact Hn.
    + edestruct (set_clauses_returns env w self q v) as (n & q' & Hn & _);
        [exact Hview|].
      exists n. exact Hn.
    + edestruct (set_clauses_returns env w self q v) as (n & q' & Hn & _);
        [exact Hview|].
      exists n. exact Hn.
Qed.

Lemma chained_call_leaves_receiver_witness :
  let w := Example.world_of Example.member_heap [] in
  let run := run_call Example.env 1%positive
               (call_select [] {[ "team__name" := VStr "HTT" ]}) w in
  has_view (heap w) 1%positive Example.member_qs Example.member_view
  ∧ has_view (heap run.1) 1%positive Example.member_qs Example.member_view
  ∧ (QuerySet.sql Example.env 1%positive run.1).2
    = (QuerySet.sql Example.env 1%positive w).2.
Proof.
  cbv zeta. split; [exact member_has_view|].
  pose proof (chained_call_leaves_receiver Example.env
                (Example.world_of Example.member_heap []) 1%positive
                Example.member_qs Example.member_view
                (call_select [] {[ "team__name" := VStr "HTT" ]})
                member_has_view) as (_ & Hv & Hsql & _).
  split; [exact Hv | exact Hsql].
Defined.

(** [Member.all().select(team__name=...)] returns a query set with a JOIN
    and a condition; the receiver still compiles to the plain SELECT. *)
Example select_then_receiver :
  let run := run_call Example.env 1%positive
               (call_select [] {[ "team__name" := VStr "HTT" ]})
               (Example.world_of Example.member_heap []) in
  (∃ n, run.2 = Ok n
        ∧ (QuerySet.sql Example.env n run.1).2
          = Ok ("SELECT " +:+ dq "member" +:+ ".* FROM " +:+ dq "member"
                +:+ QuerySet.newline
                +:+ "INNER JOIN " +:+ dq "team" +:+ " AS " +:+ dq "member.team"
                +:+ " ON " +:+ dq "member" +:+ "." +:+ dq "team_id" +:+ " = "
                +:+ dq "member.team" +:+ "." +:+ dq "id" +:+ QuerySet.newline
                +:+ "WHERE (((" +:+ dq "member.team" +:+ "." +:+ dq "name"
                +:+ " = ?)))"))
  ∧ (QuerySet.sql Example.env 1%positive run.1).2
    = Ok ("SELECT " +:+ dq "member" +:+ ".* FROM " +:+ dq "member").
Proof.
  cbv zeta. split; [eexists; split|]; vm_compute; reflexivity.
Qed.

(** ** Executing and fetching *)

Section Fetch.
Context `{Storage}.
Variable env : classes.

(** Rebinding the cursor, the pointer and the cache of a query set leaves
    what it denotes. *)
Lemma has_view_with_cursor (h : gmap loc cell) (n : loc) (q : QS.t) (v : view)
    (c : option Cursor) (i : Z) (l : list value) :
  has_view h n q v →
  has_view (<[n := CQuerySet (QuerySet.with_cursor q c i l)]> h) n
           (QuerySet.with_cursor q c i l) v.
Proof.
  intros (Hq & Hc & Hf & Hw & j & Hj & Hrel).
  assert (Hne : ∀ l' c', h !! l' = Some c' → (∀ x, c' ≠ CQuerySet x) → n ≠ l').
  { intros l' c' Hl' Hc' <-. rewrite Hq in Hl'. naive_solver. }
  repeat split;
    cbn [QuerySet.with_cursor QS.clauses QS.select_fields QS.joins QS.wrappers].
  - apply lookup_insert_eq.
  - rewrite lookup_insert_ne by (by eapply Hne). done.
  - rewrite lookup_insert_ne by (by eapply Hne). done.
  - rewrite lookup_insert_ne by (by eapply Hne). done.
  - exists j. split; [rewrite lookup_insert_ne by (by eapply Hne); done|].
    intros k. specialize (Hrel k). destruct Hrel as [l' s Hl'|]; constructor.
    rewrite lookup_insert_ne by (by eapply Hne). done.
Qed.

(** [_execute] compiles the query set, sends the statement with the
    parameters of the clauses, and binds the cursor, with an empty cache. *)
Lemma execute_spec (w : world) (n : loc) (q : QS.t) (v : view) (s : string)
    (d : DB) (cur : Cursor) :
  has_view (heap w) n q v →
  sql_of env (QS.cls q) v = Ok s →
  execute (db w) s (Clauses.values (v_clauses v)) = Ok (d, cur) →
  QuerySet._execute env n w
  = ({| heap := <[n := CQuerySet (QuerySet.with_cursor q (Some cur) (-1) [])]> (heap w);
        db := d;
        executed := executed w ++ [(s, Clauses.values (v_clauses v))] |}, Ok tt).
Proof.
  intros Hview Hsql Hexec. pose proof Hview as (Hq & Hc & _).
  unfold QuerySet._execute.
  erewrite bind_Ok by (by apply load_qs_Some).
  erewrite bind_Ok by apply store_spec.
  pose proof (has_view_with_cursor _ _ _ _ None (-1) [] Hview) as Hview0.
  change (QuerySet.with_cursor q None (-1) []) with (QuerySet._initialize_cursor q)
    in Hview0.
  set (w0 := set_heap _ w) in *.
  erewrite bind_Ok.
  2:{ rewrite (sql_has_view env w0 n _ v Hview0).
      cbn [QuerySet._initialize_cursor QS.cls]. by rewrite Hsql. }
  pose proof Hview0 as (Hq0 & Hc0 & _).
  erewrite bind_Ok by (by apply load_qs_Some).
  erewrite bind_Ok by (by apply load_clauses_Some).
  erewrite bind_Ok.
  2:{ unfold run_sql. cbn [db w0 set_heap]. by rewrite Hexec. }
  erewrite bind_Ok by (by apply load_qs_Some).
  rewrite store_spec. cbn [heap set_heap db executed w0].
  by rewrite insert_insert_eq.
Qed.

(** [next] on a query set bound to a cursor: the pointer advances before
    the row is looked at; an absent row raises [StopIteration]; otherwise
    the object made of the row is appended to the cache and returned. *)
Lemma next_with_cursor (w : world) (n : loc) (q : QS.t) (v : view) (c : Cursor) :
  has_view (heap w) n q v → QS.cur q = Some c →
  let c' := (QuerySet.fetchone c).2 in
  let at_ cache := set_heap (<[n := CQuerySet (QuerySet.with_cursor q (Some c')
                                            (QS._index q + 1) cache)]> (heap w)) w in
  QuerySet.next env n w
  = match (QuerySet.fetchone c).1 with
    | None | Some [] => (at_ (QS._cache q), Raise StopIteration)
    | Some row =>
        match factored env q v c' row with
        | Ok obj => (at_ (QS._cache q ++ [obj]), Ok obj)
        | Raise e => (at_ (QS._cache q), Raise e)
        end
    end.
Proof.
  intros Hview Hcur c' at_. pose proof Hview as (Hq & Hc & Hf & _).
  unfold QuerySet.next.
  erewrite bind_Ok by (by apply load_qs_Some).
  rewrite Hcur. erewrite bind_Ok by done.
  erewrite bind_Ok by (by apply load_qs_Some).
  rewrite Hcur. erewrite bind_Ok by done.
  destruct (QuerySet.fetchone c) as [row c''] eqn:Hfetch. cbn [fst snd] in *.
  erewrite bind_Ok by apply store_spec.
  destruct row as [[|x row]|]; [done| |done].
  pose proof (has_view_with_cursor _ _ _ _ (Some c') (QS._index q + 1) (QS._cache q)
                Hview) as Hview1.
  set (w1 := set_heap _ w).
  assert (Hfac : QuerySet.call_factory env q c'' (x :: row) w1
                 = (w1, factored env q v c'' (x :: row))).
  { unfold QuerySet.call_factory, factored. destruct (QS.factory q); [|done].
    erewrite bind_Ok; [done|].
    apply load_fields_Some. destruct Hview1 as (_ & _ & Hf1 & _). exact Hf1. }
  subst c'. destruct (factored env q v c'' (x :: row)) as [obj|e].
  - erewrite bind_Ok by exact Hfac.
    erewrite bind_Ok.
    2:{ apply load_qs_Some. cbn [heap set_heap w1]. apply lookup_insert_eq. }
    erewrite bind_Ok by apply store_spec.
    unfold mret, M_ret, at_, w1. cbn [heap db executed set_heap].
    by rewrite insert_insert_eq.
  - by erewrite bind_Raise by exact Hfac.
Qed.

(** [next] on a query set without a cursor executes it first. *)
Lemma next_fresh (w : world) (n : loc) (q : QS.t) (v : view) (s : string)
    (d : DB) (cur : Cursor) :
  has_view (heap w) n q v → QS.cur q = None →
  sql_of env (QS.cls q) v = Ok s →
  execute (db w) s (Clauses.values (v_clauses v)) = Ok (d, cur) →
  QuerySet.next env n w
  = QuerySet.next env n
      {| heap := <[n := CQuerySet (QuerySet.with_cursor q (Some cur) (-1) [])]> (heap w);
         db := d;
         executed := executed w ++ [(s, Clauses.values (v_clauses v))] |}.
Proof.
  intros Hview Hcur Hsql Hexec. pose proof Hview as (Hq & _).
  unfold QuerySet.next at 1.
  erewrite bind_Ok by (by apply load_qs_Some).
  rewrite Hcur. erewrite bind_Ok by (by eapply execute_spec).
  match goal with |- _ = QuerySet.next env n ?x => set (w1 := x) end.
  assert (Hl : load_qs n w1
               = (w1, Ok (QuerySet.with_cursor q (Some cur) (-1) []))).
  { apply load_qs_Some. cbn [heap w1]. apply lookup_insert_eq. }
  unfold QuerySet.next. rewrite !(bind_Ok _ _ _ _ _ Hl).
  cbn [QuerySet.with_cursor QS.cur].
  erewrite (bind_Ok (mret tt)) by done. by rewrite (bind_Ok _ _ _ _ _ Hl).
Qed.

End Fetch.

(** ** [get] *)

Section Get.
Context `{Storage}.
Variable env : classes.

Lemma try_except_Ok {A} (m h : M A) (e : exn) (w w' : world) (a : A) :
  m w = (w', Ok a) → try_except m e h w = (w', Ok a).
Proof. intros Hm. unfold try_except. by rewrite Hm. Qed.

Lemma try_except_caught {A} (m h : M A) (e : exn) (w w' : world) :
  m w = (w', Raise e) → try_except m e h w = h w'.
Proof. intros Hm. unfold try_except. by rewrite Hm, decide_True. Qed.

Lemma fetchone_description (c : Cursor) :
  description (QuerySet.fetchone c).2 = description c.
Proof. unfold QuerySet.fetchone. by destruct (rows c). Qed.

Lemma to_objects_description (sf : list (string * option string))
    (conv : convfunc_t) (c1 c2 : Cursor) (row : list value) :
  description c1 = description c2 →
  QuerySet._to_objects env sf conv c1 row = QuerySet._to_objects env sf conv c2 row.
Proof. intros Hd. unfold QuerySet._to_objects. by rewrite Hd. Qed.

(** What follows the copy in a chained method that keeps the object it made:
    the result is the copy, with no cursor yet. *)
Lemma after_init_keeps (w : world) (self : loc) (q : QS.t) (v : view)
    (rest : loc → M loc) (w1 : world) (qs : loc) :
  has_view (heap w) self q v →
  (∀ n q', keeps (heap w) n q' (rest n)) →
  (∀ n, returns_only (rest n) n) →
  (QuerySet.__init__ env (inl self) ≫= rest) w = (w1, Ok qs) →
  executed w1 = executed w ∧ db w1 = db w
  ∧ ∃ q1 v1, has_view (heap w1) qs q1 v1
      ∧ QS.cls q1 = QS.cls q ∧ QS.convfunc q1 = QS.convfunc q
      ∧ QS.cur q1 = None ∧ QS._index q1 = -1 ∧ QS._cache q1 = []
      ∧ QS.factory q1 = factory_to_objects.
Proof.
  intros Hview Hkeeps Hret Hrun.
  destruct (init_copy_spec env w self q v Hview)
    as (w0 & n & q1 & Hinit & Hsub & Hdb & Hex & Hview1 & Hown & Hq1).
  erewrite bind_Ok in Hrun by exact Hinit.
  destruct (Hkeeps n q1 w w0) as (_ & Hdb2 & Hex2 & _ & v2 & Hview2).
  { split; [done|]. split; [done|]. split; [done|]. split; [done|]. by exists v. }
  rewrite Hrun in Hdb2, Hex2, Hview2. cbn [fst] in *.
  assert (qs = n) as ->.
  { apply (Hret n w0). by rewrite Hrun. }
  split; [done|]. split; [done|]. by exists q1, v2.
Qed.

Lemma select_new (w : world) (self : loc) (q : QS.t) (v : view)
    (args : list value) (kw : gmap string value) (w1 : world) (qs : loc) :
  has_view (heap w) self q v →
  QuerySet.select env self args kw w = (w1, Ok qs) →
  executed w1 = executed w ∧ db w1 = db w
  ∧ ∃ q1 v1, has_view (heap w1) qs q1 v1
      ∧ QS.cls q1 = QS.cls q ∧ QS.convfunc q1 = QS.convfunc q
      ∧ QS.cur q1 = None ∧ QS._index q1 = -1 ∧ QS._cache q1 = []
      ∧ QS.factory q1 = factory_to_objects.
Proof.
  intros Hview. unfold QuerySet.select. apply after_init_keeps with (v := v); [done| |].
  - intros n q'.
    apply keeps_bind.
    { destruct args as [|[] rest]; try apply keeps_ret.
      destruct (_ <? _)%nat; [apply keeps_raise | apply keeps_ret]. }
    intros args'. apply keeps_bind; [|intros _; apply keeps_ret].
    destruct (_ && _); [apply keeps_ret|].
    apply keeps_bind; [apply keeps_to_sql|]. intros [whr prms].
    apply keeps_set_clauses.
  - intros n. apply returns_only_bind. intros args'.
    apply returns_only_bind. intros _. apply returns_only_ret.
Qed.

Lemma load_qs_state (l : loc) (w : world) : (load_qs l w).1 = w.
Proof.
  unfold load_qs, load, mbind, M_bind. cbn.
  by destruct (heap w !! l) as [[]|].
Qed.

Lemma get_query_select (w : world) (self : loc) (args : list value)
    (kw : gmap string value) (w1 : world) (qs : loc) :
  QuerySet.get_query env self args kw w = (w1, Ok qs) →
  ∃ args' kw', QuerySet.select env self args' kw' w = (w1, Ok qs).
Proof.
  unfold QuerySet.get_query. intros Hrun.
  destruct args as [|arg [|arg' args]];
    [by exists [], kw | | by exists (arg :: arg' :: args), kw].
  apply bind_inv in Hrun as [(w0 & [a k] & Hargs & Hsel) | (e & _ & ?)]; [|done].
  exists a, k. enough (w0 = w) by congruence.
  apply bind_inv in Hargs as [(w' & q' & Hl & Hargs) | (e & _ & ?)]; [|done].
  apply bind_inv in Hargs as [(w'' & k' & Hk & Hargs) | (e & _ & ?)]; [|done].
  pose proof (load_qs_state self w) as Hw. rewrite Hl in Hw. cbn in Hw.
  unfold lift in Hk. unfold mret, M_ret in Hargs. congruence.
Qed.

Lemma next_step (w : world) (n : loc) (q : QS.t) (v : view) (c : Cursor) :
  has_view (heap w) n q v → QS.cur q = Some c →
  let r := QuerySet.next env n w in
  executed r.1 = executed w ∧ db r.1 = db w
  ∧ ∃ cache, has_view (heap r.1) n
               (QuerySet.with_cursor q (Some (QuerySet.fetchone c).2)
                                     (QS._index q + 1) cache) v.
Proof.
  intros Hview Hcur r. unfold r.
  rewrite (next_with_cursor env w n q v c Hview Hcur).
  destruct (QuerySet.fetchone c).1 as [[|x row]|].
  - split; [done|]. split; [done|]. eexists. by apply has_view_with_cursor.
  - destruct (factored _ _ _ _ _);
      (split; [done|]; split; [done|]; eexists; by apply has_view_with_cursor).
  - split; [done|]. split; [done|]. eexists. by apply has_view_with_cursor.
Qed.

(** The last statements of [get] call [next] once or twice. *)
Lemma get_tail_world (qs : loc) (w : world) :
  let tail := obj ← try_except (QuerySet.next env qs) StopIteration
                      (raise ObjectDoesNotExist);
              more ← try_except (Some <$> QuerySet.next env qs)
                       StopIteration (mret None);
              match more with
              | None => mret obj
              | Some _ => raise MultipleObjectsReturned
              end in
  (tail w).1 = (QuerySet.next env qs w).1
  ∨ (tail w).1 = (QuerySet.next env qs (QuerySet.next env qs w).1).1.
Proof.
  cbv zeta. unfold mbind, M_bind, try_except, fmap, M_fmap.
  destruct (QuerySet.next env qs w) as [w3 [o1|e1]]; cbn [fst].
  - right. destruct (QuerySet.next env qs w3) as [w4 [o2|e2]]; cbn [fst]; [done|].
    by destruct (decide (e2 = StopIteration)).
  - left. by destruct (decide (e1 = StopIteration)).
Qed.

(** C3.  [get] draws from the query set of its conditions and sends its
    statement once.  When the statement yields no row, [get] raises
    [ObjectDoesNotExist]; when it yields one row, [get] returns the object
    made of that row; when it yields two rows or more, [get] raises
    [MultipleObjectsReturned]. *)
Theorem get_one_or_raise (w : world) (self : loc) (q : QS.t) (v : view)
    (args : list value) (kw : gmap string value) (w1 : world) (qs : loc)
    (q1 : QS.t) (v1 : view) (s : string) (d : DB) (cur : Cursor) :
  has_view (heap w) self q v →
  QuerySet.get_query env self args kw w = (w1, Ok qs) →
  has_view (heap w1) qs q1 v1 →
  sql_of env (QS.cls q1) v1 = Ok s →
  execute (db w1) s (Clauses.values (v_clauses v1)) = Ok (d, cur) →
  Forall (fun r => r ≠ []) (rows cur) →
  let run := QuerySet.get env self args kw w in
  let made r := QuerySet._to_objects env (v_fields v1) (QS.convfunc q) cur r in
  executed run.1 = executed w ++ [(s, Clauses.values (v_clauses v1))]
  ∧ match rows cur with
    | [] => run.2 = Raise ObjectDoesNotExist
    | [r] => ∀ obj, made r = Ok obj → run.2 = Ok obj
    | r1 :: r2 :: _ =>
        ∀ o1 o2, made r1 = Ok o1 → made r2 = Ok o2 →
                 run.2 = Raise MultipleObjectsReturned
    end.
Proof.
  intros Hview Hquery Hview1 Hsql Hexec Hrows run made.
  destruct (get_query_select _ _ _ _ _ _ Hquery) as (args' & kw' & Hsel).
  destruct (select_new _ _ _ _ _ _ _ _ Hview Hsel)
    as (Hex1 & Hdb1 & q1' & v1' & Hview1' & _ & Hconv & Hcur & _ & _ & Hfac).
  assert (q1' = q1) as ->.
  { destruct Hview1 as (Hq1 & _), Hview1' as (Hq1' & _). congruence. }
  clear Hview1' v1'.
  set (qc := QuerySet.with_cursor q1 (Some cur) (-1) []).
  set (w2 := {| heap := <[qs := CQuerySet qc]> (heap w1); db := d;
                executed := executed w1 ++ [(s, Clauses.values (v_clauses v1))] |}).
  assert (Hview2 : has_view (heap w2) qs qc v1) by (by apply has_view_with_cursor).
  assert (Hnext1 : QuerySet.next env qs w1 = QuerySet.next env qs w2)
    by (by eapply next_fresh).
  assert (Hmade : ∀ q' c r, description c = description cur →
            QS.factory q' = QS.factory q1 → QS.convfunc q' = QS.convfunc q1 →
            factored env q' v1 c r = made r).
  { intros q' c r Hd Hf' Hc'. unfold factored, made.
    rewrite Hf', Hfac, Hc', Hconv. by apply to_objects_description. }
  assert (Hget : run = (obj ← try_except (QuerySet.next env qs) StopIteration
                                (raise ObjectDoesNotExist);
                        more ← try_except (Some <$> QuerySet.next env qs)
                                 StopIteration (mret None);
                        match more with
                        | None => mret obj
                        | Some _ => raise MultipleObjectsReturned
                        end) w1).
  { unfold run, QuerySet.get. by erewrite bind_Ok by exact Hquery. }
  rewrite Hget. clear Hget run. split.
  { (* one statement is sent *)
    destruct (next_step w2 qs qc v1 cur Hview2 eq_refl)
      as (Hex3 & _ & cache & Hview3).
    destruct (next_step _ qs _ v1 _ Hview3 eq_refl) as (Hex4 & _).
    rewrite <- Hex1.
    destruct (get_tail_world qs w1) as [-> | ->]; rewrite Hnext1; [done|].
    by rewrite Hex4. }
  pose proof (next_with_cursor env w2 qs qc v1 cur Hview2 eq_refl) as Hnext2.
  cbv zeta in Hnext2. unfold QuerySet.fetchone in Hnext2.
  destruct (rows cur) as [|r1 rs] eqn:Hr; cbn [fst snd] in Hnext2.
  { (* no row *)
    erewrite bind_Raise; [done|].
    erewrite try_except_caught; [|rewrite Hnext1; exact Hnext2]. reflexivity. }
  apply Forall_cons in Hrows as [Hr1 Hrows].
  destruct r1 as [|x1 r1]; [done|].
  set (c1 := {| rows := rs; description := description cur;
                lastrowid := lastrowid cur |}) in *.
  rewrite (Hmade qc c1 (x1 :: r1) eq_refl eq_refl eq_refl) in Hnext2.
  assert (Hfirst : ∀ o1, made (x1 :: r1) = Ok o1 →
            ∃ w3 q3, try_except (QuerySet.next env qs) StopIteration
                       (raise ObjectDoesNotExist) w1 = (w3, Ok o1)
                     ∧ has_view (heap w3) qs q3 v1 ∧ QS.cur q3 = Some c1
                     ∧ QS.factory q3 = QS.factory q1
                     ∧ QS.convfunc q3 = QS.convfunc q1).
  { intros o1 Ho1. rewrite Ho1 in Hnext2. eexists _, _. split.
    - apply try_except_Ok. rewrite Hnext1. exact Hnext2.
    - split; [by apply has_view_with_cursor|]. done. }
  destruct rs as [|r2 rs].
  - (* one row *)
    intros obj Hobj. destruct (Hfirst obj Hobj) as (w3 & q3 & Htry & Hview3 & Hcur3 & _).
    erewrite bind_Ok by exact Htry.
    pose proof (next_with_cursor env w3 qs q3 v1 c1 Hview3 Hcur3) as Hnext3.
    cbv zeta in Hnext3. unfold QuerySet.fetchone in Hnext3.
    cbn [rows c1 fst snd] in Hnext3.
    erewrite bind_Ok.
    2:{ erewrite try_except_caught; [reflexivity|].
        by erewrite fmap_Raise by exact Hnext3. }
    done.
  - (* two rows or more *)
    intros o1 o2 Ho1 Ho2.
    destruct (Hfirst o1 Ho1) as (w3 & q3 & Htry & Hview3 & Hcur3 & Hf3 & Hc3).
    erewrite bind_Ok by exact Htry.
    pose proof (next_with_cursor env w3 qs q3 v1 c1 Hview3 Hcur3) as Hnext3.
    cbv zeta in Hnext3. unfold QuerySet.fetchone in Hnext3.
    cbn [rows c1 fst snd] in Hnext3.
    apply Forall_cons in Hrows as [Hr2 _].
    destruct r2 as [|x2 r2]; [done|].
    match type of Hnext3 with context [factored env q3 v1 ?c _] =>
      rewrite (Hmade q3 c (x2 :: r2) eq_refl Hf3 Hc3), Ho2 in Hnext3 end.
    erewrite bind_Ok.
    2:{ apply try_except_Ok. by erewrite fmap_Ok by exact Hnext3. }
    done.
Qed.

End Get.

Lemma team_has_view :
  has_view Example.team_heap 1%positive Example.team_qs Example.team_view.
Proof.
  repeat split. eexists. split; [reflexivity|].
  intros k. cbn [v_joins Example.team_view]. rewrite !lookup_empty. constructor.
Qed.

Lemma get_one_or_raise_witness :
  let w := Example.world_of Example.team_heap [[VInt 1; VStr "HTT"]] in
  has_view (heap w) 1%positive Example.team_qs Example.team_view
  ∧ (QuerySet.get Example.env 1%positive [VInt 1] ∅ w).2
    = Ok (VModel "Team" {[ "id" := VInt 1; "name" := VStr "HTT" ]} (VInt 1)).
Proof.
  cbv zeta. split; [exact team_has_view|].
  set (w := Example.world_of Example.team_heap [[VInt 1; VStr "HTT"]]).
  set (w1 := (QuerySet.get_query Example.env 1%positive [VInt 1] ∅ w).1).
  set (q1 := {| QS.cls := "Team"; QS.clauses := 6%positive;
                QS.select_fields := 7%positive; QS.joins := 8%positive;
                QS.convfunc := conv_first; QS.wrappers := 9%positive;
                QS.factory := factory_to_objects; QS.subquery_serial := 1;
                QS.cur := None; QS._index := -1; QS._cache := [] |}).
  set (v1 := {| v_clauses :=
                  {| Clauses.type := "SELECT";
                     Clauses.where_ := ["((" +:+ dq "team" +:+ "." +:+ dq "id" +:+ " = ?))"];
                     Clauses.order_by := []; Clauses.values := [VInt 1];
                     Clauses.distinct := false; Clauses.limit := None;
                     Clauses.offset := None |};
                v_fields := [(dq "team" +:+ ".*", Some "Team")];
                v_joins := ∅; v_wrappers := [] |}).
  set (s := "SELECT " +:+ dq "team" +:+ ".* FROM " +:+ dq "team" +:+ QuerySet.newline
            +:+ "WHERE (((" +:+ dq "team" +:+ "." +:+ dq "id" +:+ " = ?)))").
  set (cur := {| rows := [[VInt 1; VStr "HTT"]]; description := ["id"; "name"];
                 lastrowid := VNone |}).
  assert (Hquery : QuerySet.get_query Example.env 1%positive [VInt 1] ∅ w
                   = (w1, Ok 10%positive)) by (vm_compute; reflexivity).
  assert (Hview1 : has_view (heap w1) 10%positive q1 v1).
  { repeat split; try (vm_compute; reflexivity).
    exists ∅. split; [vm_compute; reflexivity|].
    intros k. cbn [v_joins v1]. rewrite !lookup_empty. constructor. }
  assert (Hsql : sql_of Example.env (QS.cls q1) v1 = Ok s) by (vm_compute; reflexivity).
  assert (Hexec : execute (db w1) s (Clauses.values (v_clauses v1))
                  = Ok ([[VInt 1; VStr "HTT"]], cur)) by (vm_compute; reflexivity).
  assert (Hrows : Forall (fun r => r ≠ []) (rows cur))
    by (repeat constructor; discriminate).
  apply (proj2 (get_one_or_raise Example.env w 1%positive Example.team_qs
                  Example.team_view [VInt 1] ∅ w1 10%positive q1 v1 s _ cur
                  team_has_view Hquery Hview1 Hsql Hexec Hrows)).
  vm_compute. reflexivity.
Defined.

(** [Team.get(1)] on an empty table and on a table of two rows. *)
Example get_on_no_row :
  (Model.get Example.env "Team" [VInt 1] ∅ (Example.world0 [])).2
  = Raise ObjectDoesNotExist.
Proof. vm_compute. reflexivity. Qed.

Example get_on_two_rows :
  (Model.get Example.env "Team" [VInt 1] ∅
     (Example.world0 [[VInt 1; VStr "HTT"]; [VInt 2; VStr "Wakaba"]])).2
  = Raise MultipleObjectsReturned.
Proof. vm_compute. reflexivity. Qed.

(** ** Indexing by position *)

(** C10.  [next] advances the pointer before it looks at the row, so once
    the cursor is exhausted the pointer is one past the cache.  Indexing at
    a position the pointer has reached is answered from the cache: at a
    position between the length of the cache and the pointer, [__getitem__]
    raises [IndexError]; it does not return [None]. *)
Theorem getitem_beyond_cache `{Storage} (env : classes) (w : world) (self : loc)
    (q : QS.t) (v : view) (i : Z) :
  has_view (heap w) self q v →
  Z.of_nat (length (QS._cache q)) <= i <= QS._index q →
  (QuerySet.__getitem__ env self (QuerySet.int_index i) w).2 = Raise IndexError.
Proof.
  intros Hview [Hlo Hhi].
  destruct (init_copy_spec env w self q v Hview)
    as (w1 & n & q1 & Hinit & Hsub & _).
  unfold QuerySet.__getitem__. erewrite bind_Ok by exact Hinit.
  unfold QuerySet.int_item.
  erewrite bind_Ok.
  2:{ apply load_qs_Some. eapply lookup_weaken; [apply Hview | exact Hsub]. }
  destruct (Z.leb_spec i (QS._index q)); [|lia].
  erewrite fmap_Raise; [done|].
  unfold lift, Py.getitem.
  destruct (Z.ltb_spec i (Z.of_nat (length (QS._cache q)))); [lia|].
  destruct (Z.ltb_spec i 0); [lia|].
  by rewrite !andb_false_r.
Qed.

Lemma getitem_beyond_cache_witness :
  let w := Example.world_of Example.team_heap [] in
  let first := QuerySet.__getitem__ Example.env 1%positive (QuerySet.int_index 0) w in
  let q := QuerySet.with_cursor Example.team_qs
             (Some {| rows := []; description := ["id"; "name"]; lastrowid := VNone |})
             0 [] in
  first.2 = Ok (QuerySet.an_object VNone)
  ∧ has_view (heap first.1) 1%positive q Example.team_view
  ∧ (QuerySet.__getitem__ Example.env 1%positive (QuerySet.int_index 0) first.1).2
    = Raise IndexError.
Proof.
  cbv zeta. split; [vm_compute; reflexivity|].
  match goal with |- ?P ∧ _ => assert P as Hview end.
  { repeat split; try (vm_compute; reflexivity).
    exists ∅. split; [vm_compute; reflexivity|].
    intros k. cbn [v_joins Example.team_view]. rewrite !lookup_empty. constructor. }
  split; [exact Hview|].
  apply (getitem_beyond_cache Example.env _ 1%positive _ Example.team_view 0 Hview).
  cbn. lia.
Defined.

(** ** Statements are only ever added *)

Create HintDb sends.

Section Appends.
Context `{Storage}.
Variable env : classes.

Lemma appends_ret {A} (a : A) : appends (mret a).
Proof. intros w. exists []. by rewrite app_nil_r. Qed.

Lemma appends_raise {A} (e : exn) : appends (raise (A := A) e).
Proof. intros w. exists []. by rewrite app_nil_r. Qed.

Lemma appends_lift {A} (r : result A) : appends (lift r).
Proof. intros w. exists []. by rewrite app_nil_r. Qed.

Lemma appends_bind {A B} (m : M A) (f : A → M B) :
  appends m → (∀ a, appends (f a)) → appends (m ≫= f).
Proof.
  intros Hm Hf w. unfold mbind, M_bind. destruct (Hm w) as [l Hl].
  destruct (m w) as [w1 [a|e]]; cbn [fst] in *; [|by exists l].
  destruct (Hf a w1) as [l' Hl']. exists (l ++ l').
  by rewrite Hl', Hl, app_assoc.
Qed.

Lemma appends_fmap {A B} (g : A → B) (m : M A) : appends m → appends (g <$> m).
Proof.
  intros Hm w. unfold fmap, M_fmap. destruct (Hm w) as [l Hl].
  destruct (m w) as [w1 [a|e]]; by exists l.
Qed.

Lemma appends_try_except {A} (m h : M A) (e : exn) :
  appends m → appends h → appends (try_except m e h).
Proof.
  intros Hm Hh w. unfold try_except. destruct (Hm w) as [l Hl].
  destruct (m w) as [w1 [a|e']]; cbn [fst] in *; [by exists l|].
  destruct (decide (e' = e)); [|by exists l].
  destruct (Hh w1) as [l' Hl']. exists (l ++ l').
  by rewrite Hl', Hl, app_assoc.
Qed.

Lemma appends_alloc (c : cell) : appends (alloc c).
Proof. intros w. exists []. by rewrite app_nil_r. Qed.

Lemma appends_load (l : loc) : appends (load l).
Proof. intros w. exists []. by rewrite app_nil_r. Qed.

Lemma appends_store (l : loc) (c : cell) : appends (store l c).
Proof. intros w. exists []. by rewrite app_nil_r. Qed.

Lemma appends_run_sql (s : string) (params : list value) :
  appends (run_sql s params).
Proof.
  intros w. exists [(s, params)]. unfold run_sql.
  by destruct (execute (db w) s params) as [[d c]|e].
Qed.

Lemma appends_for_each {A} (f : A → M unit) (l : list A) :
  (∀ x, appends (f x)) → appends (for_each f l).
Proof.
  intros Hf. induction l as [|x l IH]; cbn [for_each]; [apply appends_ret|].
  apply appends_bind; [apply Hf | by intros _].
Qed.

Lemma appends_map_M {A B} (f : A → M B) (l : list A) :
  (∀ x, appends (f x)) → appends (map_M f l).
Proof.
  intros Hf. induction l as [|x l IH]; cbn [map_M]; [apply appends_ret|].
  apply appends_bind; [apply Hf|]. intros y.
  apply appends_bind; [apply IH|]. intros ys. apply appends_ret.
Qed.

End Appends.

#[export] Hint Resolve appends_ret appends_raise appends_lift appends_alloc
  appends_load appends_store appends_run_sql : sends.

(** One step through a computation: a primitive, a bind, or a case. *)
Ltac sends_step :=
  first
    [ solve [auto with sends]
    | match goal with
      | |- appends (_ <$> _) => apply appends_fmap
      | |- appends (try_except _ _ _) => apply appends_try_except
      | |- appends (for_each _ _) => apply appends_for_each; intros ?
      | |- appends (map_M _ _) => apply appends_map_M; intros ?
      | |- appends (_ ≫= _) => apply appends_bind; [|intros ?]
      | |- appends (match ?x with _ => _ end) => destruct x
      | |- appends (let '(_, _) := ?x in _) => destruct x
      end ].

Ltac sends := repeat sends_step.

Section AppendsQuerySet.
Context `{Storage}.
Variable env : classes.

Lemma appends_load_qs (l : loc) : appends (load_qs l).
Proof. unfold load_qs. sends. Qed.

Lemma appends_load_clauses (l : loc) : appends (load_clauses l).
Proof. unfold load_clauses. sends. Qed.

Lemma appends_load_fields (l : loc) : appends (load_fields l).
Proof. unfold load_fields. sends. Qed.

Lemma appends_load_joins (l : loc) : appends (load_joins l).
Proof. unfold load_joins. sends. Qed.

Lemma appends_load_strs (l : loc) : appends (load_strs l).
Proof. unfold load_strs. sends. Qed.

Lemma appends_load_wrappers (l : loc) : appends (load_wrappers l).
Proof. unfold load_wrappers. sends. Qed.

Hint Resolve appends_load_qs appends_load_clauses appends_load_fields
  appends_load_joins appends_load_strs appends_load_wrappers : sends.

Lemma appends_init (parent : loc + string) : appends (QuerySet.__init__ env parent).
Proof. unfold QuerySet.__init__. sends. Qed.

Lemma appends_set_clauses (n : loc) (f : Clauses.t → Clauses.t) :
  appends (QuerySet.set_clauses n f).
Proof. unfold QuerySet.set_clauses. sends. Qed.

Lemma appends_set_join (n : loc) (asname : string) (js : list string) :
  appends (QuerySet.set_join n asname js).
Proof. unfold QuerySet.set_join. sends. Qed.

Hint Resolve appends_init appends_set_clauses appends_set_join : sends.

Lemma appends_parse_items (n : loc) (items : list string) :
  ∀ curmdl curname fld,
    appends (QuerySet.parse_items env n curmdl curname fld items).
Proof.
  induction items as [|item items IH]; intros curmdl curname fld;
    cbn [QuerySet.parse_items]; sends.
Qed.

Hint Resolve appends_parse_items : sends.

Lemma appends_parse_field_name (n : loc) (name : string) :
  appends (QuerySet._parse_field_name env n name).
Proof. unfold QuerySet._parse_field_name. sends. Qed.

Hint Resolve appends_parse_field_name : sends.

Lemma appends_sql (n : loc) : appends (QuerySet.sql env n).
Proof. unfold QuerySet.sql. sends. Qed.

Hint Resolve appends_sql : sends.

Lemma appends_Q_items (n : loc) (items : list (string * value)) :
  ∀ whrs prms, appends (QuerySet.Q_items env n items whrs prms).
Proof.
  induction items as [|[key val] items IH]; intros whrs prms;
    cbn [QuerySet.Q_items]; sends.
Qed.

Hint Resolve appends_Q_items : sends.

Lemma appends_to_sql : ∀ (c : value) (n : loc), appends (QuerySet.to_sql env c n).
Proof.
  fix IH 1. intros c n. destruct c; cbn [QuerySet.to_sql]; sends.
  match goal with |- appends (?each l [] []) =>
    enough (∀ whrs prms, appends (each l whrs prms)) by done end.
  induction l as [|c l IHl]; intros whrs prms; sends.
Qed.

Hint Resolve appends_to_sql : sends.

Lemma appends_select (n : loc) (args : list value) (kw : gmap string value) :
  appends (QuerySet.select env n args kw).
Proof. unfold QuerySet.select. sends. Qed.

Lemma appends_execute (n : loc) : appends (QuerySet._execute env n).
Proof. unfold QuerySet._execute. sends. Qed.

Hint Resolve appends_select appends_execute : sends.

Lemma appends_next (n : loc) : appends (QuerySet.next env n).
Proof. unfold QuerySet.next, QuerySet.call_factory. sends. Qed.

Hint Resolve appends_next : sends.



End AppendsQuerySet.

(** ** Saving an object *)

Section Save.
Context `{Storage}.
Variable env : classes.
Variable now : Datetime.datetime.









End Save.


(** ** Further properties of the chained methods *)

Section Windows.
Context `{Storage}.
Variable env : classes.




End Windows.




(** ** The class methods *)

Section ClassMethods.
Context `{Storage}.
Variable env : classes.



End ClassMethods.


(** ** Objects *)

Section Objects.
Variable env : classes.



End Objects.


Section SaveErrors.
Context `{Storage}.
Variable env : classes.
Variable now : Datetime.datetime.


End SaveErrors.


(** ** Conditions given as operators and as SQL text *)


Section RawSQL.
Context `{Storage}.
Variable env : classes.


End RawSQL.


(** ** Positions served from the cache, positions fetched *)

Section Positions.
Context `{Storage}.
Variable env : classes.


Lemma factored_with_cursor (q : QS.t) (v : view) (c c' : Cursor)
    (cur : option Cursor) (i : Z) (l : list value) (row : list value) :
  description c' = description c →
  factored env (QuerySet.with_cursor q cur i l) v c' row = factored env q v c row.
Proof.
  intros Hd. unfold factored. cbn [QuerySet.with_cursor QS.factory QS.convfunc].
  destruct (QS.factory q); [|done]. by apply to_objects_description.
Qed.



End Positions.



(** ** [get] by primary key, and [order_by] *)

Section ByKey.
Context `{Storage}.
Variable env : classes.



End ByKey.


